(** * MantisDB SQL lexer (src/cgo/sql_parser.c): shallow embedding and checked properties

    The lexer of sql_parser.c is embedded as functions on a [Lexer] record
    that is passed from call to call.  The input buffer [(input,
    input_len)] is a list of bytes, a heap string a list of bytes without
    its terminator, the null pointer [None].  Each [while] loop is a
    [Fixpoint] on a fuel argument that the caller sets to the number of
    unread bytes, and a lemma shows that this fuel is never used up.
    Allocation and release ([palloc], [pfree]) are left out; the libc
    functions the lexer calls are modelled next to it. *)

From Stdlib Require Import List Ascii String ZArith Bool Arith Lia.
Import ListNotations.
Local Open Scope Z_scope.

(** ** Token kinds (sql_parser.h, [TokenType]) *)

(** Modelled from the spec: the last four enumerators,
    [TOKEN_COALESCE_EXPR], [TOKEN_COLUMN_REF], [TOKEN_FOR] and
    [TOKEN_INTO_CLAUSE], which the keyword table of sql_parser.c names but
    the header does not declare.  The spec has the table map every
    spelling to a reserved-word kind, so they are taken as further
    reserved-word kinds, distinct from every declared one.  All the other
    enumerators are those of [TokenType] in sql_parser.h, in header
    order. *)
Inductive TokenType : Set :=
  | TOKEN_EOF
  | TOKEN_ERROR
  | TOKEN_ICONST
  | TOKEN_FCONST
  | TOKEN_SCONST
  | TOKEN_BCONST
  | TOKEN_XCONST
  | TOKEN_PARAM
  | TOKEN_IDENT
  | TOKEN_UIDENT
  | TOKEN_TYPECAST
  | TOKEN_DOT
  | TOKEN_COMMA
  | TOKEN_SEMICOLON
  | TOKEN_COLON
  | TOKEN_PLUS
  | TOKEN_MINUS
  | TOKEN_MULTIPLY
  | TOKEN_DIVIDE
  | TOKEN_MODULO
  | TOKEN_POWER
  | TOKEN_LT
  | TOKEN_LE
  | TOKEN_GT
  | TOKEN_GE
  | TOKEN_EQ
  | TOKEN_NE
  | TOKEN_CONCAT
  | TOKEN_LSHIFT
  | TOKEN_RSHIFT
  | TOKEN_BITAND
  | TOKEN_BITOR
  | TOKEN_BITXOR
  | TOKEN_BITNOT
  | TOKEN_REGEX_MATCH
  | TOKEN_REGEX_IMATCH
  | TOKEN_REGEX_NMATCH
  | TOKEN_REGEX_INMATCH
  | TOKEN_JSON_EXTRACT
  | TOKEN_JSON_EXTRACT_TEXT
  | TOKEN_JSON_PATH
  | TOKEN_JSON_PATH_TEXT
  | TOKEN_LPAREN
  | TOKEN_RPAREN
  | TOKEN_LBRACKET
  | TOKEN_RBRACKET
  | TOKEN_LBRACE
  | TOKEN_RBRACE
  | TOKEN_SELECT
  | TOKEN_FROM
  | TOKEN_WHERE
  | TOKEN_INSERT
  | TOKEN_UPDATE
  | TOKEN_DELETE
  | TOKEN_CREATE
  | TOKEN_DROP
  | TOKEN_ALTER
  | TOKEN_TABLE
  | TOKEN_INDEX
  | TOKEN_VIEW
  | TOKEN_FUNCTION
  | TOKEN_PROCEDURE
  | TOKEN_TRIGGER
  | TOKEN_SCHEMA
  | TOKEN_DATABASE
  | TOKEN_WITH
  | TOKEN_RECURSIVE
  | TOKEN_AS
  | TOKEN_DISTINCT
  | TOKEN_ALL
  | TOKEN_ANY
  | TOKEN_SOME
  | TOKEN_EXISTS
  | TOKEN_IN
  | TOKEN_BETWEEN
  | TOKEN_LIKE
  | TOKEN_ILIKE
  | TOKEN_SIMILAR
  | TOKEN_IS
  | TOKEN_NULL_P
  | TOKEN_TRUE_P
  | TOKEN_FALSE_P
  | TOKEN_AND
  | TOKEN_OR
  | TOKEN_NOT
  | TOKEN_CASE
  | TOKEN_WHEN
  | TOKEN_THEN
  | TOKEN_ELSE
  | TOKEN_END_P
  | TOKEN_IF_P
  | TOKEN_JOIN
  | TOKEN_INNER_P
  | TOKEN_LEFT
  | TOKEN_RIGHT
  | TOKEN_FULL
  | TOKEN_OUTER_P
  | TOKEN_CROSS
  | TOKEN_NATURAL
  | TOKEN_ON
  | TOKEN_USING
  | TOKEN_GROUP_P
  | TOKEN_BY
  | TOKEN_HAVING
  | TOKEN_ORDER
  | TOKEN_ASC
  | TOKEN_DESC
  | TOKEN_LIMIT
  | TOKEN_OFFSET
  | TOKEN_UNION
  | TOKEN_INTERSECT
  | TOKEN_EXCEPT
  | TOKEN_WINDOW
  | TOKEN_PARTITION
  | TOKEN_OVER
  | TOKEN_RANGE
  | TOKEN_ROWS
  | TOKEN_UNBOUNDED
  | TOKEN_PRECEDING
  | TOKEN_FOLLOWING
  | TOKEN_CURRENT_P
  | TOKEN_ROW
  | TOKEN_CAST
  | TOKEN_EXTRACT
  | TOKEN_OVERLAY
  | TOKEN_POSITION
  | TOKEN_SUBSTRING
  | TOKEN_TRIM
  | TOKEN_LEADING
  | TOKEN_TRAILING
  | TOKEN_BOTH
  | TOKEN_COLLATE
  | TOKEN_CONSTRAINT
  | TOKEN_DEFAULT
  | TOKEN_CHECK
  | TOKEN_PRIMARY
  | TOKEN_KEY
  | TOKEN_UNIQUE
  | TOKEN_FOREIGN
  | TOKEN_REFERENCES
  | TOKEN_MATCH
  | TOKEN_PARTIAL
  | TOKEN_SIMPLE
  | TOKEN_FULL_P
  | TOKEN_CASCADE
  | TOKEN_RESTRICT
  | TOKEN_SET
  | TOKEN_ACTION
  | TOKEN_NO
  | TOKEN_DEFERRABLE
  | TOKEN_INITIALLY
  | TOKEN_DEFERRED
  | TOKEN_IMMEDIATE
  | TOKEN_TEMPORARY
  | TOKEN_TEMP
  | TOKEN_UNLOGGED
  | TOKEN_LOGGED
  | TOKEN_GLOBAL
  | TOKEN_LOCAL
  | TOKEN_PRESERVE
  | TOKEN_COMMIT
  | TOKEN_ROLLBACK
  | TOKEN_WORK
  | TOKEN_TRANSACTION
  | TOKEN_BEGIN_P
  | TOKEN_START
  | TOKEN_SAVEPOINT
  | TOKEN_RELEASE
  | TOKEN_ISOLATION
  | TOKEN_LEVEL
  | TOKEN_READ
  | TOKEN_WRITE
  | TOKEN_ONLY
  | TOKEN_SERIALIZABLE
  | TOKEN_REPEATABLE
  | TOKEN_COMMITTED
  | TOKEN_UNCOMMITTED
  | TOKEN_SNAPSHOT
  | TOKEN_EXPLAIN
  | TOKEN_ANALYZE
  | TOKEN_VERBOSE
  | TOKEN_COSTS
  | TOKEN_SETTINGS
  | TOKEN_BUFFERS
  | TOKEN_TIMING
  | TOKEN_SUMMARY
  | TOKEN_FORMAT
  | TOKEN_GRANT
  | TOKEN_REVOKE
  | TOKEN_ROLE
  | TOKEN_USER
  | TOKEN_PRIVILEGE
  | TOKEN_PRIVILEGES
  | TOKEN_PUBLIC
  | TOKEN_USAGE
  | TOKEN_EXECUTE
  | TOKEN_CONNECT
  | TOKEN_TEMPORARY_P
  | TOKEN_TRUNCATE
  | TOKEN_VACUUM
  | TOKEN_ANALYZE_P
  | TOKEN_REINDEX
  | TOKEN_CLUSTER
  | TOKEN_COPY
  | TOKEN_STDIN
  | TOKEN_STDOUT
  | TOKEN_DELIMITER
  | TOKEN_CSV
  | TOKEN_HEADER
  | TOKEN_QUOTE
  | TOKEN_ESCAPE
  | TOKEN_FORCE
  | TOKEN_NULL_PRINT
  | TOKEN_ENCODING
  | TOKEN_BOOLEAN
  | TOKEN_CHAR_P
  | TOKEN_CHARACTER
  | TOKEN_VARCHAR
  | TOKEN_TEXT
  | TOKEN_NAME
  | TOKEN_BYTEA
  | TOKEN_SMALLINT
  | TOKEN_INTEGER
  | TOKEN_BIGINT
  | TOKEN_REAL
  | TOKEN_DOUBLE_P
  | TOKEN_PRECISION
  | TOKEN_DECIMAL_P
  | TOKEN_NUMERIC
  | TOKEN_MONEY
  | TOKEN_DATE
  | TOKEN_TIME
  | TOKEN_TIMESTAMP
  | TOKEN_TIMESTAMPTZ
  | TOKEN_INTERVAL
  | TOKEN_TIMETZ
  | TOKEN_BIT
  | TOKEN_VARBIT
  | TOKEN_INET
  | TOKEN_CIDR
  | TOKEN_MACADDR
  | TOKEN_MACADDR8
  | TOKEN_UUID
  | TOKEN_JSON
  | TOKEN_JSONB
  | TOKEN_XML
  | TOKEN_POINT
  | TOKEN_LINE
  | TOKEN_LSEG
  | TOKEN_BOX
  | TOKEN_PATH
  | TOKEN_POLYGON
  | TOKEN_CIRCLE
  | TOKEN_ARRAY
  | TOKEN_INT2VECTOR
  | TOKEN_OIDVECTOR
  | TOKEN_TSVECTOR
  | TOKEN_TSQUERY
  | TOKEN_REGPROC
  | TOKEN_REGPROCEDURE
  | TOKEN_REGOPER
  | TOKEN_REGOPERATOR
  | TOKEN_REGCLASS
  | TOKEN_REGTYPE
  | TOKEN_REGROLE
  | TOKEN_REGNAMESPACE
  | TOKEN_REGCONFIG
  | TOKEN_REGDICTIONARY
  | TOKEN_MAX
  | TOKEN_COALESCE_EXPR
  | TOKEN_COLUMN_REF
  | TOKEN_FOR
  | TOKEN_INTO_CLAUSE.

(** ** Keyword table (sql_parser.c, [keywords]) *)

Record KeywordEntry : Set := mkKeyword { name : string; token : TokenType }.

Definition keywords : list KeywordEntry :=
  [ mkKeyword "action" TOKEN_ACTION;
    mkKeyword "all" TOKEN_ALL;
    mkKeyword "alter" TOKEN_ALTER;
    mkKeyword "analyze" TOKEN_ANALYZE_P;
    mkKeyword "and" TOKEN_AND;
    mkKeyword "any" TOKEN_ANY;
    mkKeyword "array" TOKEN_ARRAY;
    mkKeyword "as" TOKEN_AS;
    mkKeyword "asc" TOKEN_ASC;
    mkKeyword "begin" TOKEN_BEGIN_P;
    mkKeyword "between" TOKEN_BETWEEN;
    mkKeyword "bigint" TOKEN_BIGINT;
    mkKeyword "bit" TOKEN_BIT;
    mkKeyword "boolean" TOKEN_BOOLEAN;
    mkKeyword "both" TOKEN_BOTH;
    mkKeyword "by" TOKEN_BY;
    mkKeyword "cascade" TOKEN_CASCADE;
    mkKeyword "case" TOKEN_CASE;
    mkKeyword "cast" TOKEN_CAST;
    mkKeyword "char" TOKEN_CHAR_P;
    mkKeyword "character" TOKEN_CHARACTER;
    mkKeyword "check" TOKEN_CHECK;
    mkKeyword "cluster" TOKEN_CLUSTER;
    mkKeyword "coalesce" TOKEN_COALESCE_EXPR;
    mkKeyword "collate" TOKEN_COLLATE;
    mkKeyword "column" TOKEN_COLUMN_REF;
    mkKeyword "commit" TOKEN_COMMIT;
    mkKeyword "committed" TOKEN_COMMITTED;
    mkKeyword "constraint" TOKEN_CONSTRAINT;
    mkKeyword "copy" TOKEN_COPY;
    mkKeyword "create" TOKEN_CREATE;
    mkKeyword "cross" TOKEN_CROSS;
    mkKeyword "current" TOKEN_CURRENT_P;
    mkKeyword "database" TOKEN_DATABASE;
    mkKeyword "date" TOKEN_DATE;
    mkKeyword "decimal" TOKEN_DECIMAL_P;
    mkKeyword "default" TOKEN_DEFAULT;
    mkKeyword "deferrable" TOKEN_DEFERRABLE;
    mkKeyword "deferred" TOKEN_DEFERRED;
    mkKeyword "delete" TOKEN_DELETE;
    mkKeyword "desc" TOKEN_DESC;
    mkKeyword "distinct" TOKEN_DISTINCT;
    mkKeyword "double" TOKEN_DOUBLE_P;
    mkKeyword "drop" TOKEN_DROP;
    mkKeyword "else" TOKEN_ELSE;
    mkKeyword "end" TOKEN_END_P;
    mkKeyword "except" TOKEN_EXCEPT;
    mkKeyword "execute" TOKEN_EXECUTE;
    mkKeyword "exists" TOKEN_EXISTS;
    mkKeyword "explain" TOKEN_EXPLAIN;
    mkKeyword "extract" TOKEN_EXTRACT;
    mkKeyword "false" TOKEN_FALSE_P;
    mkKeyword "following" TOKEN_FOLLOWING;
    mkKeyword "for" TOKEN_FOR;
    mkKeyword "foreign" TOKEN_FOREIGN;
    mkKeyword "from" TOKEN_FROM;
    mkKeyword "full" TOKEN_FULL_P;
    mkKeyword "function" TOKEN_FUNCTION;
    mkKeyword "grant" TOKEN_GRANT;
    mkKeyword "group" TOKEN_GROUP_P;
    mkKeyword "having" TOKEN_HAVING;
    mkKeyword "if" TOKEN_IF_P;
    mkKeyword "ilike" TOKEN_ILIKE;
    mkKeyword "immediate" TOKEN_IMMEDIATE;
    mkKeyword "in" TOKEN_IN;
    mkKeyword "index" TOKEN_INDEX;
    mkKeyword "initially" TOKEN_INITIALLY;
    mkKeyword "inner" TOKEN_INNER_P;
    mkKeyword "insert" TOKEN_INSERT;
    mkKeyword "integer" TOKEN_INTEGER;
    mkKeyword "intersect" TOKEN_INTERSECT;
    mkKeyword "interval" TOKEN_INTERVAL;
    mkKeyword "into" TOKEN_INTO_CLAUSE;
    mkKeyword "is" TOKEN_IS;
    mkKeyword "join" TOKEN_JOIN;
    mkKeyword "json" TOKEN_JSON;
    mkKeyword "jsonb" TOKEN_JSONB;
    mkKeyword "key" TOKEN_KEY;
    mkKeyword "leading" TOKEN_LEADING;
    mkKeyword "left" TOKEN_LEFT;
    mkKeyword "level" TOKEN_LEVEL;
    mkKeyword "like" TOKEN_LIKE;
    mkKeyword "limit" TOKEN_LIMIT;
    mkKeyword "local" TOKEN_LOCAL;
    mkKeyword "match" TOKEN_MATCH;
    mkKeyword "natural" TOKEN_NATURAL;
    mkKeyword "no" TOKEN_NO;
    mkKeyword "not" TOKEN_NOT;
    mkKeyword "null" TOKEN_NULL_P;
    mkKeyword "numeric" TOKEN_NUMERIC;
    mkKeyword "offset" TOKEN_OFFSET;
    mkKeyword "on" TOKEN_ON;
    mkKeyword "only" TOKEN_ONLY;
    mkKeyword "or" TOKEN_OR;
    mkKeyword "order" TOKEN_ORDER;
    mkKeyword "outer" TOKEN_OUTER_P;
    mkKeyword "over" TOKEN_OVER;
    mkKeyword "overlay" TOKEN_OVERLAY;
    mkKeyword "partial" TOKEN_PARTIAL;
    mkKeyword "partition" TOKEN_PARTITION;
    mkKeyword "position" TOKEN_POSITION;
    mkKeyword "preceding" TOKEN_PRECEDING;
    mkKeyword "precision" TOKEN_PRECISION;
    mkKeyword "primary" TOKEN_PRIMARY;
    mkKeyword "procedure" TOKEN_PROCEDURE;
    mkKeyword "public" TOKEN_PUBLIC;
    mkKeyword "range" TOKEN_RANGE;
    mkKeyword "read" TOKEN_READ;
    mkKeyword "real" TOKEN_REAL;
    mkKeyword "recursive" TOKEN_RECURSIVE;
    mkKeyword "references" TOKEN_REFERENCES;
    mkKeyword "reindex" TOKEN_REINDEX;
    mkKeyword "restrict" TOKEN_RESTRICT;
    mkKeyword "revoke" TOKEN_REVOKE;
    mkKeyword "right" TOKEN_RIGHT;
    mkKeyword "role" TOKEN_ROLE;
    mkKeyword "rollback" TOKEN_ROLLBACK;
    mkKeyword "row" TOKEN_ROW;
    mkKeyword "rows" TOKEN_ROWS;
    mkKeyword "schema" TOKEN_SCHEMA;
    mkKeyword "select" TOKEN_SELECT;
    mkKeyword "serializable" TOKEN_SERIALIZABLE;
    mkKeyword "set" TOKEN_SET;
    mkKeyword "similar" TOKEN_SIMILAR;
    mkKeyword "smallint" TOKEN_SMALLINT;
    mkKeyword "some" TOKEN_SOME;
    mkKeyword "start" TOKEN_START;
    mkKeyword "substring" TOKEN_SUBSTRING;
    mkKeyword "table" TOKEN_TABLE;
    mkKeyword "temp" TOKEN_TEMP;
    mkKeyword "temporary" TOKEN_TEMPORARY;
    mkKeyword "text" TOKEN_TEXT;
    mkKeyword "then" TOKEN_THEN;
    mkKeyword "time" TOKEN_TIME;
    mkKeyword "timestamp" TOKEN_TIMESTAMP;
    mkKeyword "trailing" TOKEN_TRAILING;
    mkKeyword "transaction" TOKEN_TRANSACTION;
    mkKeyword "trigger" TOKEN_TRIGGER;
    mkKeyword "trim" TOKEN_TRIM;
    mkKeyword "true" TOKEN_TRUE_P;
    mkKeyword "truncate" TOKEN_TRUNCATE;
    mkKeyword "unbounded" TOKEN_UNBOUNDED;
    mkKeyword "uncommitted" TOKEN_UNCOMMITTED;
    mkKeyword "union" TOKEN_UNION;
    mkKeyword "unique" TOKEN_UNIQUE;
    mkKeyword "update" TOKEN_UPDATE;
    mkKeyword "user" TOKEN_USER;
    mkKeyword "using" TOKEN_USING;
    mkKeyword "vacuum" TOKEN_VACUUM;
    mkKeyword "varchar" TOKEN_VARCHAR;
    mkKeyword "view" TOKEN_VIEW;
    mkKeyword "when" TOKEN_WHEN;
    mkKeyword "where" TOKEN_WHERE;
    mkKeyword "window" TOKEN_WINDOW;
    mkKeyword "with" TOKEN_WITH;
    mkKeyword "work" TOKEN_WORK;
    mkKeyword "write" TOKEN_WRITE ].

Definition num_keywords : Z := Z.of_nat (List.length keywords).

(** ** C strings and the libc functions the lexer calls *)

(** A C string is kept as the list of its bytes; reading at or past the
    end of the list reads the terminator. *)
Definition NUL : ascii := Ascii.zero.

Definition cstr (s : string) : list ascii := list_ascii_of_string s.

Definition char_code (c : ascii) : Z := Z.of_N (N_of_ascii c).

Definition char_in (lo hi c : ascii) : bool :=
  (char_code lo <=? char_code c) && (char_code c <=? char_code hi).

(** libc [tolower] in the C locale. *)
Definition tolower (c : ascii) : ascii :=
  if char_in "A" "Z" c then ascii_of_N (N_of_ascii c + 32) else c.

(** libc [strlen]: bytes before the first terminator. *)
Fixpoint strlen (s : list ascii) : nat :=
  match s with
  | [] => O
  | c :: s' => if (c =? NUL)%char then O else S (strlen s')
  end.

(** libc [strncasecmp]: compares at most [n] bytes, case folded, and
    stops at a terminator; the result is the difference of the first
    bytes that differ. *)
Fixpoint strncasecmp (s1 s2 : list ascii) (n : nat) : Z :=
  match n with
  | O => 0
  | S n' =>
      let c1 := tolower (hd NUL s1) in
      let c2 := tolower (hd NUL s2) in
      if negb (c1 =? c2)%char then char_code c1 - char_code c2
      else if (c1 =? NUL)%char then 0
      else strncasecmp (tl s1) (tl s2) n'
  end.

(** ** Keyword lookup (sql_parser.c, [lookup_keyword]) *)

Definition keyword_at (i : Z) : KeywordEntry :=
  nth (Z.to_nat i) keywords (mkKeyword EmptyString TOKEN_IDENT).

(** The [while (left <= right)] loop.  Every turn shrinks the interval,
    so [fuel] beyond its width is never used up (see [lookup_loop_fuel]). *)
Fixpoint lookup_keyword_loop (fuel : nat) (str : list ascii) (len : nat)
    (left right : Z) : TokenType :=
  match fuel with
  | O => TOKEN_IDENT
  | S fuel' =>
      if left <=? right then
        let mid := Z.quot (left + right) 2 in
        let cmp := strncasecmp str (cstr (name (keyword_at mid))) len in
        if (cmp =? 0) && (strlen (cstr (name (keyword_at mid))) =? len)%nat
        then token (keyword_at mid)
        else if cmp <? 0
             then lookup_keyword_loop fuel' str len left (mid - 1)
             else lookup_keyword_loop fuel' str len (mid + 1) right
      else TOKEN_IDENT
  end.

Definition lookup_keyword (str : list ascii) (len : nat) : TokenType :=
  lookup_keyword_loop (S (Z.to_nat num_keywords)) str len 0 (num_keywords - 1).

Definition token_eqb_ident (t : TokenType) : bool :=
  match t with TOKEN_IDENT => true | _ => false end.

(** ** Character classes (sql_parser.c, [is_alpha] .. [is_space]) *)

Definition is_alpha (c : ascii) : bool :=
  char_in "a" "z" c || char_in "A" "Z" c || (c =? "_")%char.

Definition is_digit (c : ascii) : bool := char_in "0" "9" c.

Definition is_alnum (c : ascii) : bool := is_alpha c || char_in "0" "9" c.

Definition newline : ascii := "010"%char.
Definition dquote : ascii := "034"%char.
Definition squote : ascii := "'"%char.
Definition backslash : ascii := "092"%char.

Definition is_space (c : ascii) : bool :=
  (c =? " ")%char || (c =? "009")%char || (c =? newline)%char
  || (c =? "013")%char || (c =? "012")%char.

(** ** Numeric literals: libc [strtoll] and [strtod] *)

Definition LLONG_MAX : Z := 2 ^ 63 - 1.

Definition digit_value (c : ascii) : Z := char_code c - char_code "0".

(** Value of the leading digit run of [s], continuing from [acc]. *)
Fixpoint digits_value (acc : Z) (s : list ascii) : Z :=
  match s with
  | c :: s' => if is_digit c then digits_value (10 * acc + digit_value c) s' else acc
  | [] => acc
  end.

(** [strtoll (s, NULL, 10)] on a string that starts with a digit or is
    empty (the lexer never passes blanks or a sign): the value of the
    leading digit run, clamped to [LLONG_MAX] as the C library does on
    overflow. *)
Definition strtoll (s : list ascii) : Z := Z.min (digits_value 0 s) LLONG_MAX.

(** A decimal floating value [mantissa * 10 ^ exponent10]. *)
Record Decimal : Set := mkDecimal { mantissa : Z; exponent10 : Z }.

Fixpoint drop_digits (s : list ascii) : list ascii :=
  match s with
  | c :: s' => if is_digit c then drop_digits s' else s
  | [] => []
  end.

Definition count_digits (s : list ascii) : nat :=
  (List.length s - List.length (drop_digits s))%nat.

(** The exponent part [e[+-]digits] at the head of [s], zero when absent
    or without digits. *)
Definition exponent_part (s : list ascii) : Z :=
  match s with
  | c :: s1 =>
      if (c =? "e")%char || (c =? "E")%char then
        match s1 with
        | "-"%char :: s2 => - digits_value 0 s2
        | "+"%char :: s2 => digits_value 0 s2
        | _ => digits_value 0 s1
        end
      else 0
  | [] => 0
  end.

(** [strtod (s, NULL)] on the decimal forms the number scanner builds:
    digits, an optional [.digits], an optional exponent.  The C function
    returns the binary64 number nearest to the decimal value; the model
    keeps the decimal value itself and leaves the rounding out. *)
Definition strtod (s : list ascii) : Decimal :=
  let after_int := drop_digits s in
  match after_int with
  | "."%char :: frac =>
      mkDecimal (digits_value (digits_value 0 s) frac)
                (exponent_part (drop_digits frac) - Z.of_nat (count_digits frac))
  | _ => mkDecimal (digits_value 0 s) (exponent_part after_int)
  end.

(** ** Tokens and lexer state (sql_parser.h) *)

Definition int_wrap (z : Z) : Z := (z + 2 ^ 31) mod 2 ^ 32 - 2 ^ 31.

(** Conversion of a [size_t] to [int], as in [location.offset = lexer->pos]. *)
Definition int_of_size_t (n : nat) : Z := int_wrap (Z.of_nat n).

Record Location : Set := mkLocation { loc_line : Z; loc_column : Z; offset : Z }.

(** The [data] union holds the member written last. *)
Inductive TokenData : Set :=
  | ival (i : Z)
  | fval (d : Decimal)
  | bval (b : bool).

(** [value] is [None] for the null pointer, otherwise the bytes before the
    terminator that the code stores after them. *)
Record Token : Set := mkToken {
  type : TokenType;
  value : option (list ascii);
  length : nat;
  location : Location;
  data : TokenData
}.

(** [input] is the caller's buffer of [input_len] bytes.  [pos] is a
    [size_t] that only moves by [lexer_advance], which stops at
    [input_len]; it is kept as a natural number. *)
Record Lexer : Set := mkLexer {
  input : list ascii;
  pos : nat;
  line : Z;
  column : Z;
  current_token : Token;
  has_current : bool;
  error_msg : option string
}.

Definition input_len (l : Lexer) : nat := List.length (input l).

(** [lexer->input[i]] *)
Definition byte_at (l : Lexer) (i : nat) : ascii := nth i (input l) NUL.

Definition set_cursor (l : Lexer) (p : nat) (ln col : Z) : Lexer :=
  mkLexer (input l) p ln col (current_token l) (has_current l) (error_msg l).

Definition set_current (l : Lexer) (t : Token) (h : bool) : Lexer :=
  mkLexer (input l) (pos l) (line l) (column l) t h (error_msg l).

Definition set_type (t : Token) (k : TokenType) : Token :=
  mkToken k (value t) (length t) (location t) (data t).

Definition set_value (t : Token) (v : option (list ascii)) (n : nat) : Token :=
  mkToken (type t) v n (location t) (data t).

Definition set_location (t : Token) (loc : Location) : Token :=
  mkToken (type t) (value t) (length t) loc (data t).

Definition set_data (t : Token) (d : TokenData) : Token :=
  mkToken (type t) (value t) (length t) (location t) d.

(** [palloc0] zero-fills the lexer, the embedded token included. *)
Definition zero_token : Token :=
  mkToken TOKEN_EOF None O (mkLocation 0 0 0) (ival 0).

Definition lexer_create (inp : list ascii) : Lexer :=
  mkLexer inp O 1 1 zero_token false None.

Definition lexer_set_error (l : Lexer) (msg : string) : Lexer :=
  mkLexer (input l) (pos l) (line l) (column l) (current_token l)
          (has_current l) (Some msg).

Definition lexer_peek (l : Lexer) : ascii :=
  if (input_len l <=? pos l)%nat then NUL else byte_at l (pos l).

(** [line] and [column] are [int]s; their increments are written with
    the wrap-around of two's complement. *)
Definition lexer_advance (l : Lexer) : ascii * Lexer :=
  if (input_len l <=? pos l)%nat then (NUL, l)
  else
    let c := byte_at l (pos l) in
    (c, if (c =? newline)%char
        then set_cursor l (S (pos l)) (int_wrap (line l + 1)) 1
        else set_cursor l (S (pos l)) (line l) (int_wrap (column l + 1))).

(** [lexer_advance] used as a statement. *)
Definition advance (l : Lexer) : Lexer := snd (lexer_advance l).

(** The loop [while (pos < input_len && p (lexer_peek)) lexer_advance],
    which the lexer writes out for blanks, digits, identifier characters
    and the body of a line comment.  [remaining] turns suffice. *)
Fixpoint advance_while (p : ascii -> bool) (fuel : nat) (l : Lexer) : Lexer :=
  match fuel with
  | O => l
  | S fuel' =>
      if (pos l <? input_len l)%nat && p (lexer_peek l)
      then advance_while p fuel' (advance l)
      else l
  end.

Definition remaining (l : Lexer) : nat := (input_len l - pos l)%nat.

Definition lexer_skip_whitespace (l : Lexer) : Lexer :=
  advance_while is_space (remaining l) l.

(** The block-comment loop [while (pos + 1 < input_len)]. *)
Fixpoint block_comment_loop (fuel : nat) (l : Lexer) : Lexer :=
  match fuel with
  | O => l
  | S fuel' =>
      if (pos l + 1 <? input_len l)%nat then
        if (lexer_peek l =? "*")%char && (byte_at l (pos l + 1) =? "/")%char
        then advance (advance l)
        else block_comment_loop fuel' (advance l)
      else l
  end.

Definition starts_line_comment (l : Lexer) : bool :=
  (lexer_peek l =? "-")%char && (pos l + 1 <? input_len l)%nat
  && (byte_at l (pos l + 1) =? "-")%char.

Definition starts_block_comment (l : Lexer) : bool :=
  (lexer_peek l =? "/")%char && (pos l + 1 <? input_len l)%nat
  && (byte_at l (pos l + 1) =? "*")%char.

Definition lexer_skip_comment (l : Lexer) : Lexer :=
  if starts_line_comment l then
    let l := advance (advance l) in
    advance_while (fun c => negb (c =? newline)%char) (remaining l) l
  else if starts_block_comment l then
    let l := advance (advance l) in
    block_comment_loop (remaining l) l
  else l.

(** ** Scanners *)

(** [memcpy (dst, input + start, len)] *)
Definition substr (s : list ascii) (start len : nat) : list ascii :=
  firstn len (skipn start s).

Definition ScanResult : Set := (bool * Lexer * Token)%type.

(** The [while (pos < input_len)] loop of [lexer_scan_string]; leaving the
    loop is the unterminated-string error.  Every turn advances, so
    [remaining] turns suffice. *)
Fixpoint scan_string_loop (fuel : nat) (quote : ascii) (start : nat)
    (l : Lexer) (tok : Token) : ScanResult :=
  match fuel with
  | O => (false, lexer_set_error l "unterminated string literal", tok)
  | S fuel' =>
      if (pos l <? input_len l)%nat then
        let c := lexer_peek l in
        if (c =? quote)%char then
          if (pos l + 1 <? input_len l)%nat && (byte_at l (pos l + 1) =? quote)%char
          then scan_string_loop fuel' quote start (advance (advance l)) tok
          else
            let len := (pos l - start)%nat in
            (true, advance l, set_value tok (Some (substr (input l) start len)) len)
        else if (c =? backslash)%char then
          let l1 := advance l in
          scan_string_loop fuel' quote start
            (if (pos l1 <? input_len l1)%nat then advance l1 else l1) tok
        else scan_string_loop fuel' quote start (advance l) tok
      else (false, lexer_set_error l "unterminated string literal", tok)
  end.

Definition lexer_scan_string (l : Lexer) (tok : Token) : ScanResult :=
  let (quote, l) := lexer_advance l in
  let start := pos l in
  scan_string_loop (remaining l) quote start l tok.

Definition scan_digits (l : Lexer) : Lexer :=
  advance_while is_digit (remaining l) l.

Definition lexer_scan_number (l : Lexer) (tok : Token) : ScanResult :=
  let start := pos l in
  let l := scan_digits l in
  let has_dot :=
    (pos l <? input_len l)%nat && (lexer_peek l =? ".")%char
    && (pos l + 1 <? input_len l)%nat && is_digit (byte_at l (pos l + 1)) in
  let l := if has_dot then scan_digits (advance l) else l in
  let has_exp :=
    (pos l <? input_len l)%nat
    && ((lexer_peek l =? "e")%char || (lexer_peek l =? "E")%char) in
  let finish (l : Lexer) : ScanResult :=
    let len := (pos l - start)%nat in
    let v := substr (input l) start len in
    let tok := set_value tok (Some v) len in
    if has_dot || has_exp
    then (true, l, set_data (set_type tok TOKEN_FCONST) (fval (strtod v)))
    else (true, l, set_data (set_type tok TOKEN_ICONST) (ival (strtoll v))) in
  if has_exp then
    let l := advance l in
    let l :=
      if (pos l <? input_len l)%nat
         && ((lexer_peek l =? "+")%char || (lexer_peek l =? "-")%char)
      then advance l else l in
    if (input_len l <=? pos l)%nat || negb (is_digit (lexer_peek l))
    then (false, lexer_set_error l "invalid number format", tok)
    else finish (scan_digits l)
  else finish l.

Definition lexer_scan_identifier (l : Lexer) (tok : Token) : ScanResult :=
  let start := pos l in
  if negb (is_alpha (lexer_peek l))
  then (false, lexer_set_error l "invalid identifier", tok)
  else
    let l := advance l in
    let l := advance_while is_alnum (remaining l) l in
    let len := (pos l - start)%nat in
    let v := substr (input l) start len in
    (true, l, set_type (set_value tok (Some v) len) (lookup_keyword v len)).

Definition is_char (c d : ascii) : bool := (c =? d)%char.
Arguments is_char _ _%_char.

(** Operator results: one byte, two bytes (one more advance), three bytes
    (two more advances). *)
Definition op1 (l : Lexer) (tok : Token) (k : TokenType) : ScanResult :=
  (true, l, set_type tok k).

Definition op2 (l : Lexer) (tok : Token) (k : TokenType) (c c1 : ascii) : ScanResult :=
  (true, advance l, set_type (set_value tok (Some [c; c1]) 2) k).

Definition op3 (l : Lexer) (tok : Token) (k : TokenType) (c c1 c2 : ascii) : ScanResult :=
  (true, advance (advance l), set_type (set_value tok (Some [c; c1; c2]) 3) k).

Arguments op2 _ _ _ _%_char _%_char.
Arguments op3 _ _ _ _%_char _%_char _%_char.

(** After the first byte is consumed, [input[pos + 1]] is the third byte. *)
Definition third_is (l : Lexer) (c : ascii) : bool :=
  (pos l + 1 <? input_len l)%nat && (byte_at l (pos l + 1) =? c)%char.

Arguments third_is _ _%_char.

Definition lexer_scan_operator (l : Lexer) (tok : Token) : ScanResult :=
  let c := lexer_peek l in
  let next := if (pos l + 1 <? input_len l)%nat then byte_at l (pos l + 1) else NUL in
  let tok := set_value tok (Some [c]) 1 in
  let l := advance l in
  if is_char c "(" then op1 l tok TOKEN_LPAREN
  else if is_char c ")" then op1 l tok TOKEN_RPAREN
  else if is_char c "[" then op1 l tok TOKEN_LBRACKET
  else if is_char c "]" then op1 l tok TOKEN_RBRACKET
  else if is_char c "{" then op1 l tok TOKEN_LBRACE
  else if is_char c "}" then op1 l tok TOKEN_RBRACE
  else if is_char c "," then op1 l tok TOKEN_COMMA
  else if is_char c ";" then op1 l tok TOKEN_SEMICOLON
  else if is_char c "." then op1 l tok TOKEN_DOT
  else if is_char c "+" then op1 l tok TOKEN_PLUS
  else if is_char c "-" then
    if is_char next ">" then
      if third_is l ">" then op3 l tok TOKEN_JSON_EXTRACT_TEXT c ">" ">"
      else op2 l tok TOKEN_JSON_EXTRACT c ">"
    else op1 l tok TOKEN_MINUS
  else if is_char c "*" then op1 l tok TOKEN_MULTIPLY
  else if is_char c "/" then op1 l tok TOKEN_DIVIDE
  else if is_char c "%" then op1 l tok TOKEN_MODULO
  else if is_char c "^" then op1 l tok TOKEN_POWER
  else if is_char c "<" then
    if is_char next "=" then op2 l tok TOKEN_LE c "="
    else if is_char next ">" then op2 l tok TOKEN_NE c ">"
    else if is_char next "<" then op2 l tok TOKEN_LSHIFT c "<"
    else op1 l tok TOKEN_LT
  else if is_char c ">" then
    if is_char next "=" then op2 l tok TOKEN_GE c "="
    else if is_char next ">" then op2 l tok TOKEN_RSHIFT c ">"
    else op1 l tok TOKEN_GT
  else if is_char c "=" then op1 l tok TOKEN_EQ
  else if is_char c "!" then
    if is_char next "=" then op2 l tok TOKEN_NE c "="
    else if is_char next "~" then
      if third_is l "*" then op3 l tok TOKEN_REGEX_INMATCH c "~" "*"
      else op2 l tok TOKEN_REGEX_NMATCH c "~"
    else (false, lexer_set_error l "unexpected character '!'", tok)
  else if is_char c "|" then
    if is_char next "|" then op2 l tok TOKEN_CONCAT c "|"
    else op1 l tok TOKEN_BITOR
  else if is_char c "&" then op1 l tok TOKEN_BITAND
  else if is_char c "#" then
    if is_char next ">" then
      if third_is l ">" then op3 l tok TOKEN_JSON_PATH_TEXT c ">" ">"
      else op2 l tok TOKEN_JSON_PATH c ">"
    else op1 l tok TOKEN_BITXOR
  else if is_char c "~" then
    if is_char next "*" then op2 l tok TOKEN_REGEX_IMATCH c "*"
    else op1 l tok TOKEN_REGEX_MATCH
  else if is_char c ":" then
    if is_char next ":" then op2 l tok TOKEN_TYPECAST c ":"
    else op1 l tok TOKEN_COLON
  else if is_char c "$" then
    if is_digit next then
      let start := pos l in
      let l := scan_digits l in
      let len := (pos l - start + 1)%nat in
      let digits := substr (input l) start (len - 1) in
      let tok := set_value tok (Some ("$"%char :: digits)) len in
      (true, l, set_data (set_type tok TOKEN_PARAM) (ival (strtoll digits)))
    else (false, lexer_set_error l "invalid parameter marker", tok)
  else (false, lexer_set_error l "unexpected character", tok).

(** ** Driver (sql_parser.c, [lexer_next_token], [lexer_current_token]) *)

(** The skip loop at the head of [lexer_next_token].  A turn that does not
    leave the loop skips a comment of at least two bytes. *)
Fixpoint skip_loop (fuel : nat) (l : Lexer) : Lexer :=
  match fuel with
  | O => l
  | S fuel' =>
      if (pos l <? input_len l)%nat then
        let l := lexer_skip_whitespace l in
        if (input_len l <=? pos l)%nat then l
        else if starts_line_comment l || starts_block_comment l
             then skip_loop fuel' (lexer_skip_comment l)
             else l
      else l
  end.

(** The head of [lexer_next_token]: the value of the previous token is
    released and its pointer cleared. *)
Definition release_current (l : Lexer) : Token :=
  let tok := current_token l in
  if has_current l && (match value tok with Some _ => true | None => false end)
  then set_value tok None (length tok) else tok.

(** The location of the cursor, as stored in a token. *)
Definition here (l : Lexer) : Location :=
  mkLocation (line l) (column l) (int_of_size_t (pos l)).

(** The dispatch on the first byte of the token. *)
Definition scan_token (l : Lexer) (tok : Token) : ScanResult :=
  let c := lexer_peek l in
  if (c =? squote)%char || (c =? dquote)%char
  then lexer_scan_string l (set_type tok TOKEN_SCONST)
  else if is_digit c then lexer_scan_number l tok
  else if is_alpha c then lexer_scan_identifier l tok
  else lexer_scan_operator l tok.

Definition lexer_next_token (l : Lexer) : bool * Lexer :=
  let tok := release_current l in
  let l := skip_loop (remaining l) l in
  let tok := set_location tok (here l) in
  if (input_len l <=? pos l)%nat then
    (true, set_current l (set_value (set_type tok TOKEN_EOF) None O) true)
  else
    let '(success, l, tok) := scan_token l tok in
    (success, set_current l tok success).

Definition lexer_current_token (l : Lexer) : option Token :=
  if has_current l then Some (current_token l) else None.

Definition lexer_error (l : Lexer) : option string := error_msg l.

(** Runs [lexer_next_token] on a fresh lexer over the bytes of [s]. *)
Definition first_token (inp : list ascii) : bool * Lexer :=
  lexer_next_token (lexer_create inp).

(** ** List-level descriptions of what the scanners consume *)

(** The bytes from the cursor on. *)
Definition unread (l : Lexer) : list ascii := skipn (pos l) (input l).

(** [n] calls of [lexer_advance]. *)
Definition advance_n (n : nat) (l : Lexer) : Lexer := Nat.iter n advance l.

(** Length of the longest prefix of [s] whose bytes all satisfy [p]. *)
Fixpoint run_length (p : ascii -> bool) (s : list ascii) : nat :=
  match s with
  | c :: s' => if p c then S (run_length p s') else O
  | [] => O
  end.

(** Whether [s] opens with a comment, as the skip loop tests it. *)
Definition comment_start (s : list ascii) : bool :=
  match s with
  | c :: c1 :: _ =>
      ((c =? "-")%char && (c1 =? "-")%char) || ((c =? "/")%char && (c1 =? "*")%char)
  | _ => false
  end.

(** The outcome of a call: it succeeded and the current token has kind
    [k] and text [v]. *)
Definition yields (r : bool * Lexer) (k : TokenType) (v : list ascii) : Prop :=
  fst r = true /\
  exists t, lexer_current_token (snd r) = Some t /\ type t = k
            /\ value t = Some v /\ length t = List.length v.

(** The outcome of a call: it failed with message [msg] and left no
    current token. *)
Definition fails_with (r : bool * Lexer) (msg : string) : Prop :=
  fst r = false /\ lexer_error (snd r) = Some msg
  /\ lexer_current_token (snd r) = None.

(** *** Number lexemes, after the description of the number scanner

    An integer part (the longest run of digits); a fractional part when a
    dot is immediately followed by a digit (the dot and the longest run of
    digits); an exponent part when [e] or [E] follows (the marker, an
    optional sign, then at least one digit). *)

Definition is_exp_marker (c : ascii) : bool := (c =? "e")%char || (c =? "E")%char.

Definition is_sign (c : ascii) : bool := (c =? "+")%char || (c =? "-")%char.

Definition frac_part_len (s : list ascii) : nat :=
  match s with
  | c :: d :: s' =>
      if (c =? ".")%char && is_digit d then S (run_length is_digit (d :: s')) else O
  | _ => O
  end.

Definition sign_len (s : list ascii) : nat :=
  match s with
  | c :: _ => if is_sign c then 1%nat else O
  | [] => O
  end.

Inductive ExponentPart : Set :=
  | no_exponent
  | exponent (n : nat)
  | dangling_exponent.

(** The exponent part at the head of [s]: absent, [n] bytes long, or a
    marker (and optional sign) with no digit after it. *)
Definition exp_part (s : list ascii) : ExponentPart :=
  match s with
  | c :: s1 =>
      if is_exp_marker c then
        match run_length is_digit (skipn (sign_len s1) s1) with
        | O => dangling_exponent
        | S n => exponent (1 + sign_len s1 + S n)
        end
      else no_exponent
  | [] => no_exponent
  end.

(** What follows the integer and fractional parts of [s]. *)
Definition mantissa_len (s : list ascii) : nat :=
  (run_length is_digit s + frac_part_len (skipn (run_length is_digit s) s))%nat.

Definition exponent_of (s : list ascii) : ExponentPart :=
  exp_part (skipn (mantissa_len s) s).

(** The number lexeme at the head of [s]: whether it is floating point,
    and its length; [None] when the exponent has no digit. *)
Definition number_lexeme (s : list ascii) : option (bool * nat) :=
  match exponent_of s with
  | dangling_exponent => None
  | no_exponent =>
      Some (negb (frac_part_len (skipn (run_length is_digit s) s) =? 0)%nat,
            mantissa_len s)
  | exponent e => Some (true, (mantissa_len s + e)%nat)
  end.




(** The token the number scanner fills in for the slice [v]. *)
Definition number_token (tok : Token) (is_float : bool) (v : list ascii) : Token :=
  let tok := set_value tok (Some v) (List.length v) in
  if is_float
  then set_data (set_type tok TOKEN_FCONST) (fval (strtod v))
  else set_data (set_type tok TOKEN_ICONST) (ival (strtoll v)).

(** *** String literals

    [string_end quote s] is the number of bytes of [s] before the closing
    delimiter, where [s] is what follows the opening one: a doubled
    delimiter and a backslash with the byte after it are stepped over;
    [None] when the input ends first. *)
Fixpoint string_end (quote : ascii) (s : list ascii) : option nat :=
  match s with
  | [] => None
  | c :: s1 =>
      if (c =? quote)%char then
        match s1 with
        | c1 :: s2 =>
            if (c1 =? quote)%char
            then option_map (fun n => S (S n)) (string_end quote s2)
            else Some O
        | [] => Some O
        end
      else if (c =? backslash)%char then
        match s1 with
        | _ :: s2 => option_map (fun n => S (S n)) (string_end quote s2)
        | [] => None
        end
      else option_map S (string_end quote s1)
  end.

(** A byte that is neither the delimiter nor a backslash. *)
Definition plain (quote c : ascii) : bool :=
  negb (c =? quote)%char && negb (c =? backslash)%char.

Definition is_quote (c : ascii) : bool := (c =? squote)%char || (c =? dquote)%char.

(** The body of a well-formed literal is a sequence of plain bytes,
    doubled delimiters and backslash pairs. *)
Inductive BodyItem : Set :=
  | Plain (c : ascii)
  | Doubled
  | Escaped (c : ascii).

Definition render_item (quote : ascii) (it : BodyItem) : list ascii :=
  match it with
  | Plain c => [c]
  | Doubled => [quote; quote]
  | Escaped c => [backslash; c]
  end.

(** The source bytes of a body. *)
Definition render (quote : ascii) (body : list BodyItem) : list ascii :=
  flat_map (render_item quote) body.

Definition item_ok (quote : ascii) (it : BodyItem) : bool :=
  match it with
  | Plain c => plain quote c
  | _ => true
  end.

(** Kinds that no keyword entry and no operator may carry. *)
Definition eof_or_sconst (k : TokenType) : bool :=
  match k with
  | TOKEN_EOF | TOKEN_SCONST => true
  | _ => false
  end.

(** The spelling of an entry, looked up as the identifier scanner does. *)
Definition lookup_spelling (e : KeywordEntry) : TokenType :=
  lookup_keyword (cstr (name e)) (List.length (cstr (name e))).

(** What the string loop returns from state [l] when the closing
    delimiter is [r] bytes ahead ([None]: never). *)
Definition string_result (start : nat) (tok : Token) (l : Lexer)
    (r : option nat) : ScanResult :=
  match r with
  | Some n =>
      (true, advance_n (S n) l,
       set_value tok (Some (substr (input l) start (pos l + n - start)))
                 (pos l + n - start))
  | None =>
      (false,
       lexer_set_error (advance_n (List.length (unread l)) l)
                       "unterminated string literal",
       tok)
  end.

Definition INT_MAX : Z := 2 ^ 31 - 1.

(** The text of [t] is the slice of [inp] that starts at the token's
    offset and has the token's length. *)
Definition text_is_slice (inp : list ascii) (t : Token) : Prop :=
  value t = Some (substr inp (Z.to_nat (offset (location t))) (length t)).

(** The text of [t] is the slice of [inp] that starts one byte after the
    token's offset and has the token's length. *)
Definition text_is_inner_slice (inp : list ascii) (t : Token) : Prop :=
  value t = Some (substr inp (S (Z.to_nat (offset (location t)))) (length t)).


(** Whether the bytes [*/] occur in [s]. *)
Fixpoint has_terminator (s : list ascii) : bool :=
  match s with
  | c :: s' => ((c =? "*")%char && (hd NUL s' =? "/")%char) || has_terminator s'
  | [] => false
  end.

(** ASCII-case variants: [v] folds to the spelling [w]. *)
Definition case_variant (v : list ascii) (w : string) : Prop :=
  map tolower v = cstr w.

(** What a scanner that starts at [l] with token [tok] leaves when it
    succeeds with [l'] and [tok']: the input and the location untouched,
    the text the unread bytes it consumed. *)
Definition frame_ok (l : Lexer) (tok : Token) (l' : Lexer) (tok' : Token) : Prop :=
  input l' = input l /\ location tok' = location tok
  /\ value tok' = Some (firstn (length tok') (unread l))
  /\ (length tok' <= List.length (unread l))%nat
  /\ pos l' = (pos l + length tok')%nat.

(** Case analysis on the tests of the operator scanner. *)
Ltac op_cases H :=
  repeat match type of H with
    | context [if is_char ?a ?b then _ else _] =>
        let E := fresh "E" in destruct (is_char a b) eqn:E; cbv beta iota in H
    | context [if third_is ?a ?b then _ else _] =>
        let E := fresh "E" in destruct (third_is a b) eqn:E; cbv beta iota in H
    end.

(** ** Operators, as a table

    The spellings the [switch] of [lexer_scan_operator] accepts, each with
    the kind it assigns; the parameter marker [$] is not among them. *)
Definition operators : list (string * TokenType) :=
  [ ("(", TOKEN_LPAREN); (")", TOKEN_RPAREN); ("[", TOKEN_LBRACKET);
    ("]", TOKEN_RBRACKET); ("{", TOKEN_LBRACE); ("}", TOKEN_RBRACE);
    (",", TOKEN_COMMA); (";", TOKEN_SEMICOLON); (".", TOKEN_DOT);
    ("+", TOKEN_PLUS);
    ("-", TOKEN_MINUS); ("->", TOKEN_JSON_EXTRACT); ("->>", TOKEN_JSON_EXTRACT_TEXT);
    ("*", TOKEN_MULTIPLY); ("/", TOKEN_DIVIDE); ("%", TOKEN_MODULO);
    ("^", TOKEN_POWER);
    ("<", TOKEN_LT); ("<=", TOKEN_LE); ("<>", TOKEN_NE); ("<<", TOKEN_LSHIFT);
    (">", TOKEN_GT); (">=", TOKEN_GE); (">>", TOKEN_RSHIFT);
    ("=", TOKEN_EQ);
    ("!=", TOKEN_NE); ("!~", TOKEN_REGEX_NMATCH); ("!~*", TOKEN_REGEX_INMATCH);
    ("|", TOKEN_BITOR); ("||", TOKEN_CONCAT);
    ("&", TOKEN_BITAND);
    ("#", TOKEN_BITXOR); ("#>", TOKEN_JSON_PATH); ("#>>", TOKEN_JSON_PATH_TEXT);
    ("~", TOKEN_REGEX_MATCH); ("~*", TOKEN_REGEX_IMATCH);
    (":", TOKEN_COLON); ("::", TOKEN_TYPECAST) ]%string.

Fixpoint is_prefix (p s : list ascii) : bool :=
  match p, s with
  | [], _ => true
  | a :: p', b :: s' => is_char b a && is_prefix p' s'
  | _ :: _, [] => false
  end.

(** The entries of the table whose spelling opens [s]. *)
Definition matching_operators (s : list ascii) : list (string * TokenType) :=
  flat_map (fun e => if is_prefix (cstr (fst e)) s then [e] else []) operators.

(** The entry with the longest spelling, the first of them on a tie. *)
Fixpoint longest (best : option (string * TokenType))
    (es : list (string * TokenType)) : option (string * TokenType) :=
  match es with
  | [] => best
  | e :: es' =>
      longest (match best with
               | Some b =>
                   if (String.length (fst b) <? String.length (fst e))%nat
                   then Some e else best
               | None => Some e
               end) es'
  end.

(** Longest match: the operator at the head of [s]. *)
Definition operator_lexeme (s : list ascii) : option (string * TokenType) :=
  longest None (matching_operators s).

(** What the operator scanner returns from [l] for the outcome [r] of the
    longest match on a first byte [c] other than [$]. *)
Definition operator_result (l : Lexer) (tok : Token) (c : ascii)
    (r : option (string * TokenType)) : ScanResult :=
  match r with
  | Some (sp, k) =>
      (true, advance_n (String.length sp) l,
       set_type (set_value tok (Some (cstr sp)) (String.length sp)) k)
  | None =>
      (false,
       lexer_set_error (advance l)
         (if is_char c "!" then "unexpected character '!'" else "unexpected character"),
       set_value tok (Some [c]) 1%nat)
  end.

(** Solves an equation between the operator scanner and the table by
    cases on the bytes both sides test. *)
Ltac split_char :=
  match goal with
  | |- context [is_char ?a ?b] =>
      is_var a; let E := fresh "E" in
      destruct (is_char a b) eqn:E; [apply Ascii.eqb_eq in E; subst a |]
  | |- context [match ?s with [] => _ | _ :: _ => _ end] =>
      is_var s; destruct s
  end.

Ltac solve_operator :=
  cbn -[is_char advance advance_n lexer_set_error];
  first [split_char; solve_operator | reflexivity].

(** ** The cursor after a call *)

(** Where a scanner leaves the lexer: [k] bytes further, with the message
    [err] set when it failed. *)
Definition scan_end (l : Lexer) (k : nat) (err : option string) : Lexer :=
  match err with
  | None => advance_n k l
  | Some m => lexer_set_error (advance_n k l) m
  end.

(** The messages [lexer_next_token] can set. *)
Definition lexer_messages : list string :=
  [ "unterminated string literal"; "invalid number format";
    "unexpected character '!'"; "invalid parameter marker";
    "unexpected character" ]%string.






(** ** Blanks and comments

    What the skip loop passes over: a blank byte, a line comment with the
    newline that ends it, a block comment with its terminator. *)
Inductive Trivia : Set :=
  | Blank (c : ascii)
  | LineComment (body : list ascii)
  | BlockComment (body : list ascii).

Definition render_trivia (t : Trivia) : list ascii :=
  match t with
  | Blank c => [c]
  | LineComment body => "-"%char :: "-"%char :: body ++ [newline]
  | BlockComment body => "/"%char :: "*"%char :: body ++ ["*"%char; "/"%char]
  end.

Definition not_newline (c : ascii) : bool := negb (c =? newline)%char.

Definition trivia_ok (t : Trivia) : bool :=
  match t with
  | Blank c => is_space c
  | LineComment body => forallb not_newline body
  | BlockComment body => negb (has_terminator body)
  end.

(** The spellings that [lookup_keyword] does not find (see
    [lookup_keyword_misses]). *)
Definition missed_spellings : list string :=
  [ "as"; "char"; "in"; "no"; "on"; "or"; "over"; "time" ]%string.

Definition is_missed (w : string) : bool := existsb (String.eqb w) missed_spellings.

(** * The rest of sql_parser.c: strings, node lists, the parser *)

(** ** [pg_strcasecmp] and [pstrdup] *)

(** The loop of [pg_strcasecmp] and the comparison after it; bytes are
    compared as unsigned. *)
Fixpoint pg_strcasecmp_loop (s1 s2 : list ascii) {struct s1} : bool :=
  match s1 with
  | [] => (NUL =? hd NUL s2)%char
  | c1 :: s1' =>
      let c2 := hd NUL s2 in
      if negb (c1 =? NUL)%char && negb (c2 =? NUL)%char then
        if negb (tolower c1 =? tolower c2)%char then false
        else pg_strcasecmp_loop s1' (tl s2)
      else (c1 =? c2)%char
  end.

(** With a null argument the function returns [s1 != s2]: the two
    pointers differ unless both are null. *)
Definition pg_strcasecmp (s1 s2 : option (list ascii)) : bool :=
  match s1, s2 with
  | Some a, Some b => pg_strcasecmp_loop a b
  | None, None => false
  | _, _ => true
  end.

(** The bytes of a C string, up to its terminator. *)
Definition c_string (s : list ascii) : list ascii := firstn (strlen s) s.

(** [pstrdup]: null for null, otherwise a copy up to the terminator. *)
Definition pstrdup (s : option (list ascii)) : option (list ascii) :=
  option_map c_string s.

(** ** Node lists (sql_parser.h, [NodeType] and [List]) *)

Inductive NodeType : Set :=
  | NODE_INVALID
  | NODE_SELECT_STMT
  | NODE_INSERT_STMT
  | NODE_UPDATE_STMT
  | NODE_DELETE_STMT
  | NODE_CREATE_STMT
  | NODE_DROP_STMT
  | NODE_ALTER_STMT
  | NODE_EXPLAIN_STMT
  | NODE_TRANSACTION_STMT
  | NODE_COPY_STMT
  | NODE_VACUUM_STMT
  | NODE_ANALYZE_STMT
  | NODE_REINDEX_STMT
  | NODE_CLUSTER_STMT
  | NODE_GRANT_STMT
  | NODE_REVOKE_STMT
  | NODE_CONST
  | NODE_COLUMN_REF
  | NODE_PARAM_REF
  | NODE_A_EXPR
  | NODE_BOOL_EXPR
  | NODE_NULL_TEST
  | NODE_BOOLEAN_TEST
  | NODE_SUBLINK
  | NODE_CASE_EXPR
  | NODE_CASE_WHEN
  | NODE_COALESCE_EXPR
  | NODE_MIN_MAX_EXPR
  | NODE_FUNC_CALL
  | NODE_WINDOW_FUNC
  | NODE_ARRAY_EXPR
  | NODE_ROW_EXPR
  | NODE_COLLATE_EXPR
  | NODE_TYPE_CAST
  | NODE_FIELD_SELECT
  | NODE_FIELD_STORE
  | NODE_ARRAY_REF
  | NODE_NAMED_ARG_EXPR
  | NODE_RANGE_VAR
  | NODE_RANGE_SUBSELECT
  | NODE_RANGE_FUNCTION
  | NODE_RANGE_TABLE_SAMPLE
  | NODE_RANGE_TABLE_FUNC
  | NODE_RANGE_TABLE_FUNC_COL
  | NODE_JOIN_EXPR
  | NODE_FROM_EXPR
  | NODE_INTO_CLAUSE
  | NODE_ON_CONFLICT_EXPR
  | NODE_INFERENCE_ELEM
  | NODE_TARGET_ENTRY
  | NODE_RES_TARGET
  | NODE_MULTI_ASSIGN_REF
  | NODE_SORT_BY
  | NODE_WINDOW_DEF
  | NODE_RANGE_TABLE_ENTRY
  | NODE_COMMON_TABLE_EXPR
  | NODE_WITH_CLAUSE
  | NODE_INFER_CLAUSE
  | NODE_ON_CONFLICT_CLAUSE
  | NODE_RETURNING_CLAUSE
  | NODE_GROUP_CLAUSE
  | NODE_GROUPING_SET
  | NODE_WINDOW_CLAUSE
  | NODE_LIMIT_CLAUSE
  | NODE_LOCK_CLAUSE
  | NODE_ROWMARK_CLAUSE
  | NODE_LIST
  | NODE_INT_LIST
  | NODE_OID_LIST
  | NODE_A_CONST
  | NODE_A_STAR
  | NODE_A_INDICES
  | NODE_A_INDIRECTION
  | NODE_A_ARRAY_EXPR
  | NODE_TYPE_NAME
  | NODE_COLUMN_DEF
  | NODE_CONSTRAINT
  | NODE_DEF_ELEM
  | NODE_RANGE_TBL_ENTRY
  | NODE_SORT_GROUP_CLAUSE
  | NODE_GROUPING_FUNC
  | NODE_WINDOW_FUNC_CALL
  | NODE_MAX.

(** The C type [List]: [elements] is the array of [length] node
    pointers, none of them null; [A] is what the pointers point to. *)
Module PgList.
Record t (A : Type) : Type := mk {
  type : NodeType;
  length : Z;
  elements : list A
}.
Arguments mk {A}.
Arguments type {A}.
Arguments length {A}.
Arguments elements {A}.
End PgList.

Definition make_list {A : Type} : PgList.t A := PgList.mk NODE_LIST 0 [].

(** [realloc] to [length + 1] pointers keeps the first [length]. *)
Definition list_append {A : Type} (list : option (PgList.t A)) (node : option A)
    : option (PgList.t A) :=
  match list, node with
  | Some li, Some n =>
      Some (PgList.mk (PgList.type li) (int_wrap (PgList.length li + 1))
              (firstn (Z.to_nat (PgList.length li)) (PgList.elements li) ++ [n]))
  | _, _ => list
  end.

Definition list_prepend {A : Type} (list : option (PgList.t A)) (node : option A)
    : option (PgList.t A) :=
  match list, node with
  | Some li, Some n =>
      Some (PgList.mk (PgList.type li) (int_wrap (PgList.length li + 1))
              (n :: firstn (Z.to_nat (PgList.length li)) (PgList.elements li)))
  | _, _ => list
  end.

Definition list_nth {A : Type} (list : option (PgList.t A)) (n : Z) : option A :=
  match list with
  | None => None
  | Some li =>
      if (n <? 0) || (PgList.length li <=? n) then None
      else nth_error (PgList.elements li) (Z.to_nat n)
  end.

Definition list_length {A : Type} (list : option (PgList.t A)) : Z :=
  match list with
  | Some li => PgList.length li
  | None => 0
  end.

(** The length field counts the elements and can still be incremented. *)
Definition list_ok {A : Type} (li : PgList.t A) : Prop :=
  PgList.length li = Z.of_nat (List.length (PgList.elements li))
  /\ PgList.length li < INT_MAX.

(** ** The parser (sql_parser.h, [Parser]) *)

Module PgParser.
Record t : Type := mk {
  lexer : option Lexer;
  tokens : option (list Token);
  token_count : nat;
  token_pos : nat;
  error_msg : option string;
  parse_tree : option (PgList.t Token)
}.
End PgParser.

Definition parser_create (inp : list ascii) : PgParser.t :=
  PgParser.mk (Some (lexer_create inp)) None O O None None.

Definition is_eof (k : TokenType) : bool :=
  match k with
  | TOKEN_EOF => true
  | _ => false
  end.

(** The copy [parser_parse] makes of a token: the struct, with the text
    duplicated by [pstrdup]. *)
Definition copy_token (t : Token) : Token :=
  match value t with
  | Some _ => set_value t (pstrdup (value t)) (length t)
  | None => t
  end.

(** The tokenizing loop of [parser_parse].  Every turn that goes on has
    consumed a byte, so fuel for the unread bytes and one more turn is
    enough (see [parse_loop_fuel]). *)
Fixpoint parse_loop (fuel : nat) (lx : Lexer) (tokens : option (PgList.t Token))
    : Lexer * option (PgList.t Token) :=
  match fuel with
  | O => (lx, tokens)
  | S fuel' =>
      let (ok, lx') := lexer_next_token lx in
      if ok then
        match lexer_current_token lx' with
        | None => (lx', tokens)
        | Some token =>
            if is_eof (type token) then (lx', tokens)
            else parse_loop fuel' lx' (list_append tokens (Some (copy_token token)))
        end
      else (lx', tokens)
  end.

(** [parser_parse]: the parser after the call and the list returned. *)
Definition parser_parse (parser : option PgParser.t)
    : option PgParser.t * option (PgList.t Token) :=
  match parser with
  | None => (None, None)
  | Some p =>
      match PgParser.lexer p with
      | None => (parser, None)
      | Some lx =>
          let (lx', tokens) := parse_loop (S (remaining lx)) lx (Some make_list) in
          (Some (PgParser.mk (Some lx') (PgParser.tokens p) (PgParser.token_count p)
                   (PgParser.token_pos p) (PgParser.error_msg p) tokens),
           tokens)
      end
  end.

Definition parser_error (parser : option PgParser.t) : option string :=
  match parser with
  | None => None
  | Some p =>
      match PgParser.error_msg p with
      | Some m => Some m
      | None =>
          match PgParser.lexer p with
          | Some lx => lexer_error lx
          | None => None
          end
      end
  end.

(** The tokens of a whole input, as [parser_parse] collects them. *)
Definition tokenize (inp : list ascii) : option PgParser.t * option (PgList.t Token) :=
  parser_parse (Some (parser_create inp)).

(** ** What [parser_parse] collects *)

Definition token_offset (t : Token) : nat := Z.to_nat (offset (location t)).

Definition is_sconst (k : TokenType) : bool :=
  match k with
  | TOKEN_SCONST => true
  | _ => false
  end.

(** Where the text of a token starts in the input: at its offset, for a
    string literal one byte later. *)
Definition text_start (t : Token) : nat :=
  if is_sconst (type t) then S (token_offset t) else token_offset t.

(** The token [t] is a copy of a token read from [inp]: not the
    end-of-input token, its length that of a slice of [inp], its text the
    copy [pstrdup] makes of that slice. *)
Definition copied_from (inp : list ascii) (t : Token) : Prop :=
  type t <> TOKEN_EOF
  /\ value t = Some (c_string (substr inp (text_start t) (length t)))
  /\ (text_start t + length t <= List.length inp)%nat.

(** [a] ends before [b] starts. *)
Definition precedes (a b : Token) : Prop :=
  (token_offset a + length a <= token_offset b)%nat
  /\ (token_offset a < token_offset b)%nat.

(** [t] lies before the cursor position [p]. *)
Definition ends_by (p : nat) (t : Token) : Prop :=
  (token_offset t + length t <= p)%nat /\ (token_offset t < p)%nat.

(** What holds of the list while [parser_parse] reads [inp], the cursor
    being at [p]: the length field counts the elements, which are copies
    of tokens of [inp], each ending before the next starts and all of
    them before the cursor. *)
Definition collected (inp : list ascii) (p : nat) (li : PgList.t Token) : Prop :=
  PgList.length li = Z.of_nat (List.length (PgList.elements li))
  /\ (List.length (PgList.elements li) <= p)%nat
  /\ Forall (copied_from inp) (PgList.elements li)
  /\ Forall (ends_by p) (PgList.elements li)
  /\ ForallOrdPairs precedes (PgList.elements li).

(** How the loop of [parser_parse] leaves the lexer: at the end of the
    input with the end-of-input token and no message, or without a
    current token and with one of the messages of the lexer. *)
Definition parse_end (lx : Lexer) : Prop :=
  (lexer_error lx = None /\ unread lx = []
   /\ exists t, lexer_current_token lx = Some t /\ type t = TOKEN_EOF)
  \/ (exists m, lexer_error lx = Some m /\ In m lexer_messages
      /\ lexer_current_token lx = None).

(** * Properties *)

(** ** The unread input *)

Lemma skipn_cons_nth (n : nat) (s r : list ascii) (c : ascii) :
  skipn n s = c :: r -> nth n s NUL = c /\ skipn (S n) s = r /\ (n < List.length s)%nat.
Proof.
  revert s; induction n as [|n IH]; intros [|x s] H; simpl in *; try discriminate.
  - inversion H; subst; repeat split; lia.
  - destruct (IH s H) as (H1 & H2 & H3); repeat split; auto; lia.
Qed.

Lemma unread_length (l : Lexer) : List.length (unread l) = remaining l.
Proof. unfold unread, remaining, input_len. now rewrite length_skipn. Qed.

Lemma unread_nil (l : Lexer) : unread l = [] -> (input_len l <=? pos l)%nat = true.
Proof.
  intro H. apply Nat.leb_le. pose proof (unread_length l) as E.
  rewrite H in E. unfold remaining in E. simpl in E.
  unfold input_len in *.
  destruct (Nat.le_gt_cases (List.length (input l)) (pos l)) as [|G]; [assumption|].
  unfold unread in H. apply (f_equal (@List.length ascii)) in H.
  rewrite length_skipn in H. simpl in H. lia.
Qed.

Lemma unread_cons (l : Lexer) (c : ascii) (s : list ascii) :
  unread l = c :: s ->
  (pos l < input_len l)%nat /\ byte_at l (pos l) = c /\ lexer_peek l = c
  /\ advance l = (if (c =? newline)%char
                  then set_cursor l (S (pos l)) (int_wrap (line l + 1)) 1
                  else set_cursor l (S (pos l)) (line l) (int_wrap (column l + 1)))
  /\ unread (advance l) = s.
Proof.
  intro H. unfold unread in H.
  destruct (skipn_cons_nth _ _ _ _ H) as (Hn & Hs & Hlt).
  assert (Hb : (input_len l <=? pos l)%nat = false)
    by (apply Nat.leb_gt; exact Hlt).
  assert (Ha : advance l = (if (c =? newline)%char
                  then set_cursor l (S (pos l)) (int_wrap (line l + 1)) 1
                  else set_cursor l (S (pos l)) (line l) (int_wrap (column l + 1)))).
  { unfold advance, lexer_advance. rewrite Hb. unfold byte_at. rewrite Hn. reflexivity. }
  repeat split; auto.
  - unfold lexer_peek, byte_at. now rewrite Hb.
  - rewrite Ha. unfold unread. destruct (c =? newline)%char; simpl; exact Hs.
Qed.

Lemma unread_lt (l : Lexer) (c : ascii) (s : list ascii) :
  unread l = c :: s -> (pos l <? input_len l)%nat = true.
Proof. intro H. apply Nat.ltb_lt. now destruct (unread_cons _ _ _ H). Qed.

Lemma unread_not_end (l : Lexer) (c : ascii) (s : list ascii) :
  unread l = c :: s -> (input_len l <=? pos l)%nat = false.
Proof. intro H. apply Nat.leb_gt. now destruct (unread_cons _ _ _ H). Qed.

Lemma unread_peek (l : Lexer) (c : ascii) (s : list ascii) :
  unread l = c :: s -> lexer_peek l = c.
Proof. intro H. now destruct (unread_cons _ _ _ H) as (_ & _ & ? & _). Qed.

Lemma unread_advance (l : Lexer) (c : ascii) (s : list ascii) :
  unread l = c :: s -> unread (advance l) = s.
Proof. intro H. now destruct (unread_cons _ _ _ H) as (_ & _ & _ & _ & ?). Qed.

Lemma advance_fields (l : Lexer) :
  input (advance l) = input l /\ current_token (advance l) = current_token l
  /\ has_current (advance l) = has_current l /\ error_msg (advance l) = error_msg l.
Proof.
  unfold advance, lexer_advance.
  destruct (input_len l <=? pos l)%nat; simpl; [tauto|].
  destruct (byte_at l (pos l) =? newline)%char; simpl; tauto.
Qed.

Lemma advance_pos (l : Lexer) :
  pos (advance l) = if (input_len l <=? pos l)%nat then pos l else S (pos l).
Proof.
  unfold advance, lexer_advance.
  destruct (input_len l <=? pos l)%nat; simpl; [reflexivity|].
  destruct (byte_at l (pos l) =? newline)%char; reflexivity.
Qed.

Lemma input_len_advance (l : Lexer) : input_len (advance l) = input_len l.
Proof. unfold input_len. now destruct (advance_fields l) as (-> & _). Qed.

(** The second unread byte is [input[pos + 1]]. *)
Lemma unread_second (l : Lexer) (c : ascii) (s : list ascii) :
  unread l = c :: s ->
  (pos l + 1 <? input_len l)%nat = (match s with [] => false | _ => true end)
  /\ byte_at l (pos l + 1) = hd NUL s.
Proof.
  intro H. pose proof (unread_advance _ _ _ H) as H1.
  destruct (unread_cons _ _ _ H) as (Hlt & _).
  assert (Hp : pos (advance l) = S (pos l)).
  { rewrite advance_pos. apply Nat.leb_gt in Hlt. now rewrite Hlt. }
  destruct s as [|c1 s].
  - apply unread_nil in H1. rewrite input_len_advance, Hp in H1.
    apply Nat.leb_le in H1. split.
    + apply Nat.ltb_ge. lia.
    + unfold byte_at. apply nth_overflow. unfold input_len in H1. lia.
  - destruct (unread_cons _ _ _ H1) as (Hlt1 & Hb & _).
    rewrite input_len_advance, Hp in Hlt1. split.
    + apply Nat.ltb_lt. lia.
    + unfold byte_at in *. destruct (advance_fields l) as (Hi & _).
      rewrite Hi, Hp in Hb. now replace (pos l + 1)%nat with (S (pos l)) by lia.
Qed.

Lemma unread_tl (l : Lexer) : unread (advance l) = tl (unread l).
Proof.
  destruct (unread l) as [|c s] eqn:H.
  - unfold advance, lexer_advance. rewrite (unread_nil _ H). simpl. exact H.
  - exact (unread_advance _ _ _ H).
Qed.

Lemma advance_n_S (n : nat) (l : Lexer) :
  advance_n (S n) l = advance_n n (advance l).
Proof. unfold advance_n. apply Nat.iter_succ_r. Qed.

Lemma advance_n_add (n m : nat) (l : Lexer) :
  advance_n (n + m) l = advance_n m (advance_n n l).
Proof.
  revert l; induction n as [|n IH]; intro l; [reflexivity|].
  change (S n + m)%nat with (S (n + m)). now rewrite !advance_n_S, IH.
Qed.

Lemma advance_n_fields (n : nat) (l : Lexer) :
  input (advance_n n l) = input l
  /\ current_token (advance_n n l) = current_token l
  /\ has_current (advance_n n l) = has_current l
  /\ error_msg (advance_n n l) = error_msg l.
Proof.
  revert l; induction n as [|n IH]; intro l; [simpl; tauto|].
  rewrite advance_n_S. destruct (IH (advance l)) as (-> & -> & -> & ->).
  apply advance_fields.
Qed.

Lemma input_advance_n (n : nat) (l : Lexer) : input (advance_n n l) = input l.
Proof. apply advance_n_fields. Qed.

Lemma unread_advance_n (n : nat) (l : Lexer) :
  unread (advance_n n l) = skipn n (unread l).
Proof.
  revert l; induction n as [|n IH]; intro l; [reflexivity|].
  rewrite advance_n_S, IH, unread_tl.
  destruct (unread l); [now destruct n | reflexivity].
Qed.

Lemma pos_advance_n (n : nat) (l : Lexer) :
  (n <= List.length (unread l))%nat -> pos (advance_n n l) = (pos l + n)%nat.
Proof.
  revert l; induction n as [|n IH]; intros l H; [simpl; lia|].
  rewrite advance_n_S. destruct (unread l) as [|c s] eqn:E; [simpl in H; lia|].
  rewrite IH.
  - rewrite advance_pos, (unread_not_end _ _ _ E). lia.
  - rewrite (unread_advance _ _ _ E). simpl in H. lia.
Qed.

Lemma skipn_prefix (a s : list ascii) : skipn (List.length a) (a ++ s) = s.
Proof. induction a as [|c a IH]; simpl; auto. Qed.

Lemma firstn_prefix (a s : list ascii) : firstn (List.length a) (a ++ s) = a.
Proof. induction a as [|c a IH]; simpl; [reflexivity | now rewrite IH]. Qed.

Lemma unread_app_advance (l : Lexer) (a s : list ascii) :
  unread l = a ++ s ->
  unread (advance_n (List.length a) l) = s
  /\ pos (advance_n (List.length a) l) = (pos l + List.length a)%nat.
Proof.
  intro H. split.
  - rewrite unread_advance_n, H. apply skipn_prefix.
  - apply pos_advance_n. rewrite H, length_app. lia.
Qed.

Lemma run_length_le (p : ascii -> bool) (s : list ascii) :
  (run_length p s <= List.length s)%nat.
Proof. induction s as [|c s IH]; simpl; [lia|]. destruct (p c); lia. Qed.

(** [advance_while] consumes exactly the longest run, given fuel for it. *)
Lemma advance_while_run (p : ascii -> bool) (fuel : nat) (l : Lexer) :
  (run_length p (unread l) <= fuel)%nat ->
  advance_while p fuel l = advance_n (run_length p (unread l)) l.
Proof.
  revert l; induction fuel as [|fuel IH]; intros l H.
  - replace (run_length p (unread l)) with O by lia. reflexivity.
  - simpl. destruct (unread l) as [|c s] eqn:E.
    + apply unread_nil in E. apply Nat.leb_le in E.
      replace (pos l <? input_len l)%nat with false
        by (symmetry; apply Nat.ltb_ge; exact E).
      reflexivity.
    + rewrite (unread_lt _ _ _ E), (unread_peek _ _ _ E). simpl in *.
      destruct (p c); [|reflexivity].
      rewrite advance_n_S, <- (unread_advance _ _ _ E). apply IH.
      rewrite (unread_advance _ _ _ E). lia.
Qed.

Lemma lexer_skip_whitespace_run (l : Lexer) :
  lexer_skip_whitespace l = advance_n (run_length is_space (unread l)) l.
Proof.
  unfold lexer_skip_whitespace. apply advance_while_run.
  rewrite <- unread_length. apply run_length_le.
Qed.

Lemma scan_digits_run (l : Lexer) :
  scan_digits l = advance_n (run_length is_digit (unread l)) l.
Proof.
  unfold scan_digits. apply advance_while_run.
  rewrite <- unread_length. apply run_length_le.
Qed.

(** ** The skip loop on input that opens with a token *)

Lemma comment_start_unread (l : Lexer) :
  starts_line_comment l || starts_block_comment l = comment_start (unread l).
Proof.
  unfold starts_line_comment, starts_block_comment, comment_start.
  destruct (unread l) as [|c s] eqn:E.
  - unfold lexer_peek. rewrite (unread_nil _ E). reflexivity.
  - rewrite (unread_peek _ _ _ E).
    destruct (unread_second _ _ _ E) as (-> & ->).
    destruct s as [|c1 s]; simpl;
      [now rewrite !andb_false_r | now rewrite !andb_true_r].
Qed.

Lemma skip_loop_token (fuel : nat) (l : Lexer) (c : ascii) (s : list ascii) :
  unread l = c :: s -> is_space c = false -> comment_start (c :: s) = false ->
  skip_loop fuel l = l.
Proof.
  intros E Hs Hc. destruct fuel as [|fuel]; [reflexivity|]. simpl.
  rewrite (unread_lt _ _ _ E), lexer_skip_whitespace_run, E. simpl. rewrite Hs.
  simpl. rewrite (unread_not_end _ _ _ E), comment_start_unread, E, Hc.
  reflexivity.
Qed.

Lemma next_token_scan (l : Lexer) (c : ascii) (s : list ascii) :
  unread l = c :: s -> is_space c = false -> comment_start (c :: s) = false ->
  lexer_next_token l =
    let '(success, l', tok) :=
      scan_token l (set_location (release_current l) (here l)) in
    (success, set_current l' tok success).
Proof.
  intros E Hs Hc. unfold lexer_next_token.
  rewrite (skip_loop_token _ _ _ _ E Hs Hc), (unread_not_end _ _ _ E).
  reflexivity.
Qed.

(** ** Greedy operators *)

(** C6: when the unread input opens with the three bytes [->>], the call
    succeeds with one token of kind [TOKEN_JSON_EXTRACT_TEXT], of length 3
    and text [->>], located at the cursor, and all three bytes are
    consumed, so no [->] token and no separate [>] token come out of
    them. *)
Theorem json_extract_text_greedy (l : Lexer) (s : list ascii) :
  unread l = "-"%char :: ">"%char :: ">"%char :: s ->
  yields (lexer_next_token l) TOKEN_JSON_EXTRACT_TEXT
         ["-"%char; ">"%char; ">"%char]
  /\ (forall t, lexer_current_token (snd (lexer_next_token l)) = Some t ->
        length t = 3%nat /\ type t <> TOKEN_JSON_EXTRACT
        /\ offset (location t) = int_of_size_t (pos l))
  /\ pos (snd (lexer_next_token l)) = (pos l + 3)%nat
  /\ unread (snd (lexer_next_token l)) = s.
Proof.
  intro E.
  rewrite (next_token_scan l _ _ E eq_refl eq_refl).
  unfold scan_token. rewrite (unread_peek _ _ _ E). simpl.
  unfold lexer_scan_operator. rewrite (unread_peek _ _ _ E).
  destruct (unread_second _ _ _ E) as (-> & ->).
  pose proof (unread_advance _ _ _ E) as E1.
  unfold third_is. destruct (unread_second _ _ _ E1) as (-> & ->).
  cbn -[advance int_of_size_t].
  pose proof (unread_app_advance (advance l) [">"%char; ">"%char] s E1) as (Hu & Hp).
  change (advance_n _ (advance l)) with (advance (advance (advance l))) in Hu, Hp.
  assert (Hp1 : pos (advance l) = S (pos l))
    by (rewrite advance_pos; now rewrite (unread_not_end _ _ _ E)).
  repeat split.
  - eexists; repeat split; reflexivity.
  - inversion H; reflexivity.
  - inversion H; subst t; simpl; discriminate.
  - inversion H; reflexivity.
  - rewrite Hp, Hp1. simpl. lia.
  - exact Hu.
Qed.

Lemma json_extract_text_greedy_witness :
  yields (first_token (cstr "->>'k'")) TOKEN_JSON_EXTRACT_TEXT (cstr "->>")
  /\ unread (snd (first_token (cstr "->>'k'"))) = cstr "'k'".
Proof.
  pose proof (json_extract_text_greedy (lexer_create (cstr "->>'k'")) (cstr "'k'")
                eq_refl) as (H & _ & _ & Hu).
  split; [exact H | exact Hu].
Defined.

(** ** What a successful scanner leaves behind *)

Lemma substr_unread (l : Lexer) (n : nat) :
  substr (input l) (pos l) n = firstn n (unread l).
Proof. reflexivity. Qed.

Lemma pos_advance_cons (l : Lexer) (c : ascii) (s : list ascii) :
  unread l = c :: s -> pos (advance l) = S (pos l).
Proof. intro E. rewrite advance_pos. now rewrite (unread_not_end _ _ _ E). Qed.

Lemma is_char_true (c d : ascii) : is_char c d = true -> c = d.
Proof. apply Ascii.eqb_eq. Qed.

(** The parameter marker, from the list of unread bytes. *)
Lemma scan_operator_param (l : Lexer) (tok : Token) (s : list ascii) :
  unread l = "$"%char :: s ->
  lexer_scan_operator l tok =
    if is_digit (hd NUL s) then
      let n := run_length is_digit s in
      (true, advance_n (S n) l,
       set_data (set_type (set_value tok (Some ("$"%char :: firstn n s)) (S n))
                          TOKEN_PARAM)
                (ival (strtoll (firstn n s))))
    else (false, lexer_set_error (advance l) "invalid parameter marker",
          set_value tok (Some ["$"%char]) 1).
Proof.
  intro E. unfold lexer_scan_operator. rewrite (unread_peek _ _ _ E).
  destruct (unread_second _ _ _ E) as (-> & ->).
  pose proof (unread_advance _ _ _ E) as E1.
  replace (if match s with [] => false | _ :: _ => true end then hd NUL s else NUL)
    with (hd NUL s) by (now destruct s).
  cbn -[advance advance_n run_length scan_digits is_digit strtoll substr Nat.sub Nat.add].
  destruct (is_digit (hd NUL s)); [|reflexivity].
  rewrite scan_digits_run, E1.
  assert (Hle : (run_length is_digit s <= List.length (unread (advance l)))%nat)
    by (rewrite E1; apply run_length_le).
  rewrite (pos_advance_n _ _ Hle), input_advance_n.
  replace (pos (advance l) + run_length is_digit s - pos (advance l) + 1)%nat
    with (S (run_length is_digit s)) by lia.
  replace (S (run_length is_digit s) - 1)%nat with (run_length is_digit s) by lia.
  rewrite substr_unread, E1, advance_n_S. reflexivity.
Qed.

Lemma scan_operator_frame (l : Lexer) (tok : Token) (l' : Lexer) (tok' : Token)
    (c : ascii) (s : list ascii) :
  unread l = c :: s ->
  lexer_scan_operator l tok = (true, l', tok') ->
  frame_ok l tok l' tok' /\ type tok' <> TOKEN_EOF /\ type tok' <> TOKEN_SCONST.
Proof.
  intros E H.
  destruct (is_char c "$") eqn:Ed.
  { apply is_char_true in Ed. subst c.
    rewrite (scan_operator_param _ _ _ E) in H.
    destruct (is_digit (hd NUL s)); [|discriminate].
    cbv zeta in H. inversion H; subst l' tok'; clear H. unfold frame_ok.
    pose proof (run_length_le is_digit s) as Hr.
    change (advance (advance_n (run_length is_digit s) l))
      with (advance_n (S (run_length is_digit s)) l).
    rewrite E, input_advance_n. cbn [type value length location set_data set_type set_value].
    repeat split; try discriminate.
    - simpl. lia.
    - apply pos_advance_n. rewrite E. simpl. lia. }
  unfold lexer_scan_operator in H. rewrite (unread_peek _ _ _ E) in H.
  destruct (unread_second _ _ _ E) as (H2 & H2b). rewrite H2, H2b in H.
  pose proof (unread_advance _ _ _ E) as E1.
  pose proof (pos_advance_cons _ _ _ E) as P1.
  destruct (advance_fields l) as (Hi & _).
  replace (if match s with [] => false | _ :: _ => true end then hd NUL s else NUL)
    with (hd NUL s) in H by (now destruct s).
  cbv zeta in H. rewrite Ed in H. unfold frame_ok. rewrite E.
  op_cases H; try discriminate;
    unfold op1, op2, op3 in H; inversion H; subst l' tok'; clear H;
    cbn [type value length location set_data set_type set_value];
    repeat match goal with
      | Hc : is_char (hd NUL s) _ = true |- _ =>
          apply is_char_true in Hc; destruct s as [|c1 s]; simpl in Hc;
          [discriminate Hc | subst c1]
      | Ht : third_is (advance l) _ = true |- _ =>
          unfold third_is in Ht;
          destruct (unread_second _ _ _ E1) as (H3 & H3b); rewrite H3, H3b in Ht;
          destruct s as [|c2 s]; simpl in Ht;
          [discriminate Ht | apply is_char_true in Ht; subst c2]
      end;
    repeat split; try discriminate; try (rewrite ?Hi; reflexivity);
    try (simpl; lia).
  all: try (rewrite (pos_advance_cons _ _ _ E1), ?P1; lia).
  all: try (pose proof (unread_advance _ _ _ E1) as Eadv;
            rewrite (pos_advance_cons _ _ _ Eadv), (pos_advance_cons _ _ _ E1), P1; lia).
  all: try (destruct (advance_fields (advance l)) as (Hi2 & _); rewrite Hi2; exact Hi).
  all: try (destruct (advance_fields (advance l)) as (Hi2 & _);
            destruct (advance_fields (advance (advance l))) as (Hi3 & _);
            rewrite Hi3, Hi2; exact Hi).
Qed.

(** ** The number scanner *)

Lemma advance_n_view (n : nat) (l : Lexer) :
  (n <= List.length (unread l))%nat ->
  pos (advance_n n l) = (pos l + n)%nat
  /\ unread (advance_n n l) = skipn n (unread l)
  /\ input (advance_n n l) = input l.
Proof.
  intro H. repeat split.
  - now apply pos_advance_n.
  - apply unread_advance_n.
  - apply input_advance_n.
Qed.

Lemma frac_part_len_le (s : list ascii) : (frac_part_len s <= List.length s)%nat.
Proof.
  destruct s as [|c [|d s]]; simpl; try lia.
  destruct ((c =? ".")%char && is_digit d); [|lia].
  pose proof (run_length_le is_digit (d :: s)). simpl in *. lia.
Qed.

Lemma mantissa_len_le (s : list ascii) : (mantissa_len s <= List.length s)%nat.
Proof.
  unfold mantissa_len. pose proof (run_length_le is_digit s).
  pose proof (frac_part_len_le (skipn (run_length is_digit s) s)) as H1.
  rewrite length_skipn in H1. lia.
Qed.

Lemma sign_len_le (s : list ascii) : (sign_len s <= List.length s)%nat.
Proof. destruct s as [|c s]; simpl; [lia|]. destruct (is_sign c); simpl; lia. Qed.

(** The test for the decimal point, on the unread bytes. *)
Lemma has_dot_unread (l : Lexer) :
  (pos l <? input_len l)%nat && (lexer_peek l =? ".")%char
  && (pos l + 1 <? input_len l)%nat && is_digit (byte_at l (pos l + 1))
  = negb (frac_part_len (unread l) =? 0)%nat.
Proof.
  destruct (unread l) as [|c s] eqn:E.
  - apply unread_nil, Nat.leb_le in E.
    replace (pos l <? input_len l)%nat with false
      by (symmetry; apply Nat.ltb_ge; exact E). reflexivity.
  - rewrite (unread_lt _ _ _ E), (unread_peek _ _ _ E).
    destruct (unread_second _ _ _ E) as (-> & ->).
    destruct s as [|d s]; simpl; [now rewrite andb_false_r|].
    destruct ((c =? ".")%char); simpl; [|reflexivity].
    destruct (is_digit d); reflexivity.
Qed.

Lemma scan_fraction (l : Lexer) :
  (if negb (frac_part_len (unread l) =? 0)%nat then scan_digits (advance l) else l)
  = advance_n (frac_part_len (unread l)) l.
Proof.
  destruct (unread l) as [|c [|d s]] eqn:E; simpl; try reflexivity.
  destruct ((c =? ".")%char && is_digit d) eqn:Hd; simpl; [|reflexivity].
  apply andb_prop in Hd. destruct Hd as (_ & Hd). rewrite Hd.
  rewrite scan_digits_run, (unread_advance _ _ _ E). simpl. rewrite Hd.
  symmetry. apply (advance_n_S (S (run_length is_digit s)) l).
Qed.

Lemma has_exp_unread (l : Lexer) :
  (pos l <? input_len l)%nat
  && ((lexer_peek l =? "e")%char || (lexer_peek l =? "E")%char)
  = match unread l with c :: _ => is_exp_marker c | [] => false end.
Proof.
  destruct (unread l) as [|c s] eqn:E.
  - apply unread_nil, Nat.leb_le in E.
    replace (pos l <? input_len l)%nat with false
      by (symmetry; apply Nat.ltb_ge; exact E). reflexivity.
  - now rewrite (unread_lt _ _ _ E), (unread_peek _ _ _ E).
Qed.

Lemma scan_sign (l : Lexer) :
  (if (pos l <? input_len l)%nat
      && ((lexer_peek l =? "+")%char || (lexer_peek l =? "-")%char)
   then advance l else l)
  = advance_n (sign_len (unread l)) l.
Proof.
  destruct (unread l) as [|c s] eqn:E.
  - apply unread_nil, Nat.leb_le in E.
    replace (pos l <? input_len l)%nat with false
      by (symmetry; apply Nat.ltb_ge; exact E). reflexivity.
  - rewrite (unread_lt _ _ _ E), (unread_peek _ _ _ E). simpl.
    unfold is_sign. destruct ((c =? "+")%char || (c =? "-")%char); reflexivity.
Qed.

Lemma no_digit_unread (l : Lexer) :
  (input_len l <=? pos l)%nat || negb (is_digit (lexer_peek l))
  = (run_length is_digit (unread l) =? 0)%nat.
Proof.
  destruct (unread l) as [|c s] eqn:E.
  - now rewrite (unread_nil _ E).
  - rewrite (unread_not_end _ _ _ E), (unread_peek _ _ _ E). simpl.
    destruct (is_digit c); reflexivity.
Qed.

(** The slice a scanner copies once it has advanced [n] bytes from [l]. *)
Lemma slice_after (n : nat) (l : Lexer) :
  (n <= List.length (unread l))%nat ->
  (pos (advance_n n l) - pos l)%nat = n
  /\ substr (input (advance_n n l)) (pos l) (pos (advance_n n l) - pos l)
     = firstn n (unread l)
  /\ List.length (firstn n (unread l)) = n.
Proof.
  intro H. destruct (advance_n_view n l H) as (Hp & _ & Hi).
  rewrite Hp, Hi. replace (pos l + n - pos l)%nat with n by lia.
  repeat split. rewrite length_firstn. lia.
Qed.

(** The number scanner, from the list of unread bytes. *)
Lemma scan_number_lexeme (l : Lexer) (tok : Token) :
  lexer_scan_number l tok =
    match number_lexeme (unread l) with
    | Some (fl, n) =>
        (true, advance_n n l, number_token tok fl (firstn n (unread l)))
    | None =>
        let l1 := advance (advance_n (mantissa_len (unread l)) l) in
        (false,
         lexer_set_error (advance_n (sign_len (unread l1)) l1) "invalid number format",
         tok)
    end.
Proof.
  unfold lexer_scan_number. cbv zeta.
  rewrite scan_digits_run.
  set (u := unread l). set (i := run_length is_digit u).
  assert (Hi : (i <= List.length (unread l))%nat) by apply run_length_le.
  destruct (advance_n_view i l Hi) as (_ & Hu1 & _). fold u in Hu1.
  rewrite has_dot_unread, scan_fraction, Hu1.
  set (f := frac_part_len (skipn i u)).
  rewrite <- advance_n_add.
  assert (Hm : mantissa_len u = (i + f)%nat) by reflexivity.
  rewrite <- Hm.
  assert (Hml : (mantissa_len u <= List.length (unread l))%nat)
    by apply mantissa_len_le.
  destruct (advance_n_view _ l Hml) as (_ & Hu2 & _). fold u in Hu2.
  rewrite has_exp_unread, Hu2.
  unfold number_lexeme, exponent_of, exp_part. fold i f.
  destruct (skipn (mantissa_len u) u) as [|c s1] eqn:Es.
  - rewrite orb_false_r. unfold number_token.
    destruct (slice_after _ l Hml) as (H1 & H2 & H3).
    fold u in H3. rewrite H2, H1, H3.
    try destruct (negb (f =? 0)%nat); reflexivity.
  - destruct (is_exp_marker c) eqn:Ec.
    + rewrite orb_true_r. set (l2 := advance_n (mantissa_len u) l) in *.
      rewrite scan_sign, no_digit_unread.
      assert (Eu3 : unread (advance l2) = s1)
        by (apply (unread_advance _ c); exact Hu2).
      rewrite unread_advance_n, Eu3.
      destruct (run_length is_digit (skipn (sign_len s1) s1)) as [|n] eqn:Er.
      * reflexivity.
      * cbn [Nat.eqb]. rewrite scan_digits_run, unread_advance_n, Eu3, Er.
        assert (Ht : advance_n (S n) (advance_n (sign_len s1) (advance l2))
                     = advance_n (mantissa_len u + (1 + sign_len s1 + S n)) l).
        { rewrite !advance_n_add. reflexivity. }
        rewrite Ht.
        assert (Hl : (mantissa_len u + (1 + sign_len s1 + S n)
                      <= List.length (unread l))%nat).
        { fold u. pose proof (firstn_skipn (mantissa_len u) u) as Hfs.
          rewrite Es in Hfs. apply (f_equal (@List.length ascii)) in Hfs.
          rewrite length_app, length_firstn in Hfs. simpl in Hfs.
          pose proof (run_length_le is_digit (skipn (sign_len s1) s1)) as Hr.
          rewrite Er, length_skipn in Hr.
          pose proof (sign_len_le s1). fold u in Hml. lia. }
        unfold number_token.
        destruct (slice_after _ l Hl) as (H1 & H2 & H3).
        fold u in H3. rewrite H2, H1, H3.
    try destruct (negb (f =? 0)%nat); reflexivity.
    + rewrite orb_false_r. unfold number_token.
      destruct (slice_after _ l Hml) as (H1 & H2 & H3).
    fold u in H3. rewrite H2, H1, H3.
    try destruct (negb (f =? 0)%nat); reflexivity.
Qed.

Lemma number_lexeme_le (s : list ascii) (fl : bool) (n : nat) :
  number_lexeme s = Some (fl, n) -> (n <= List.length s)%nat.
Proof.
  unfold number_lexeme, exponent_of. pose proof (mantissa_len_le s) as Hm.
  destruct (skipn (mantissa_len s) s) as [|c s1] eqn:Es; simpl.
  - intro H; inversion H; subst; exact Hm.
  - pose proof (firstn_skipn (mantissa_len s) s) as Hfs.
    rewrite Es in Hfs. apply (f_equal (@List.length ascii)) in Hfs.
    rewrite length_app, length_firstn in Hfs. simpl in Hfs.
    destruct (is_exp_marker c).
    + pose proof (run_length_le is_digit (skipn (sign_len s1) s1)) as Hr.
      rewrite length_skipn in Hr. pose proof (sign_len_le s1).
      destruct (run_length is_digit (skipn (sign_len s1) s1)); [discriminate|].
      intro H0; inversion H0; subst. lia.
    + intro H; inversion H; subst; exact Hm.
Qed.

Lemma scan_number_frame (l : Lexer) (tok : Token) (l' : Lexer) (tok' : Token) :
  lexer_scan_number l tok = (true, l', tok') ->
  frame_ok l tok l' tok' /\ type tok' <> TOKEN_EOF /\ type tok' <> TOKEN_SCONST.
Proof.
  rewrite scan_number_lexeme.
  destruct (number_lexeme (unread l)) as [[fl n]|] eqn:E; [|discriminate].
  intro H; inversion H; subst l' tok'; clear H.
  pose proof (number_lexeme_le _ _ _ E) as Hn.
  assert (Hlen : List.length (firstn n (unread l)) = n)
    by (rewrite length_firstn; lia).
  unfold frame_ok, number_token. rewrite Hlen.
  destruct fl; cbn [type value length location set_data set_type set_value];
    (repeat split; try discriminate;
     [apply input_advance_n | exact Hn | now apply pos_advance_n]).
Qed.

(** ** The identifier scanner *)

Lemma is_alnum_run (l : Lexer) :
  advance_while is_alnum (remaining l) l
  = advance_n (run_length is_alnum (unread l)) l.
Proof.
  apply advance_while_run. rewrite <- unread_length. apply run_length_le.
Qed.

Lemma scan_identifier_run (l : Lexer) (tok : Token) (c : ascii) (s : list ascii) :
  unread l = c :: s -> is_alpha c = true ->
  lexer_scan_identifier l tok =
    let n := S (run_length is_alnum s) in
    let v := firstn n (c :: s) in
    (true, advance_n n l, set_type (set_value tok (Some v) n) (lookup_keyword v n)).
Proof.
  intros E Ha. unfold lexer_scan_identifier.
  rewrite (unread_peek _ _ _ E), Ha. cbv beta iota zeta. cbn [negb].
  rewrite is_alnum_run, (unread_advance _ _ _ E), <- advance_n_S.
  assert (Hn : (S (run_length is_alnum s) <= List.length (unread l))%nat).
  { rewrite E. pose proof (run_length_le is_alnum s). simpl. lia. }
  destruct (slice_after _ l Hn) as (H1 & H2 & _). rewrite H2, H1, E.
  reflexivity.
Qed.

(** ** Keyword lookup *)

Lemma quot2_between (a b : Z) : 0 <= a -> a <= b -> a <= Z.quot (a + b) 2 <= b.
Proof.
  intros Ha Hab. rewrite Z.quot_div_nonneg by lia.
  split.
  - apply Z.div_le_lower_bound; lia.
  - apply Z.div_le_upper_bound; lia.
Qed.

(** The binary search never runs out of fuel: any two amounts of fuel that
    cover the interval give the same answer. *)
Lemma lookup_loop_fuel (str : list ascii) (len : nat) (f1 : nat) :
  forall (f2 : nat) (left right : Z),
    0 <= left -> right - left + 1 <= Z.of_nat f1 -> right - left + 1 <= Z.of_nat f2 ->
    lookup_keyword_loop f1 str len left right
    = lookup_keyword_loop f2 str len left right.
Proof.
  induction f1 as [|f1 IH]; intros f2 left right H0 H1 H2.
  - destruct f2 as [|f2]; [reflexivity|]. simpl.
    destruct (Z.leb_spec left right); [lia | reflexivity].
  - destruct f2 as [|f2].
    + simpl. destruct (Z.leb_spec left right); [lia | reflexivity].
    + simpl. destruct (Z.leb_spec left right) as [Hle|]; [|reflexivity].
      pose proof (quot2_between left right H0 Hle) as Hq.
      destruct (_ && _); [reflexivity|].
      destruct (_ <? 0); apply IH; lia.
Qed.

Lemma lookup_loop_result (str : list ascii) (len : nat) (fuel : nat) :
  forall lo hi,
    lookup_keyword_loop fuel str len lo hi = TOKEN_IDENT
    \/ exists i,
         lookup_keyword_loop fuel str len lo hi = token (keyword_at i)
         /\ strncasecmp str (cstr (name (keyword_at i))) len = 0
         /\ strlen (cstr (name (keyword_at i))) = len.
Proof.
  induction fuel as [|fuel IH]; intros lo hi; [now left|]. simpl.
  destruct (lo <=? hi); [|now left].
  destruct (_ =? 0) eqn:Hc; simpl.
  - destruct (Nat.eqb_spec (strlen (cstr (name (keyword_at (Z.quot (lo + hi) 2))))) len)
      as [Hl|Hl].
    + right. exists (Z.quot (lo + hi) 2). repeat split; auto.
      now apply Z.eqb_eq.
    + destruct (_ <? 0); apply IH.
  - destruct (_ <? 0); apply IH.
Qed.

Lemma keyword_at_cases (i : Z) :
  token (keyword_at i) = TOKEN_IDENT \/ In (keyword_at i) keywords.
Proof.
  unfold keyword_at.
  destruct (nth_in_or_default (Z.to_nat i) keywords (mkKeyword EmptyString TOKEN_IDENT))
    as [H| ->]; [now right | now left].
Qed.

Lemma keywords_kinds :
  forallb (fun e => negb (eof_or_sconst (token e))) keywords = true.
Proof. vm_compute. reflexivity. Qed.

Lemma lookup_keyword_kind (str : list ascii) (len : nat) :
  eof_or_sconst (lookup_keyword str len) = false.
Proof.
  unfold lookup_keyword.
  destruct (lookup_loop_result str len (S (Z.to_nat num_keywords)) 0 (num_keywords - 1))
    as [-> | (i & -> & _)]; [reflexivity|].
  destruct (keyword_at_cases i) as [-> | Hin]; [reflexivity|].
  pose proof keywords_kinds as Hk. rewrite forallb_forall in Hk.
  apply Hk in Hin. now apply negb_true_iff in Hin.
Qed.

Lemma scan_identifier_frame (l : Lexer) (tok : Token) (l' : Lexer) (tok' : Token)
    (c : ascii) (s : list ascii) :
  unread l = c :: s -> is_alpha c = true ->
  lexer_scan_identifier l tok = (true, l', tok') ->
  frame_ok l tok l' tok' /\ type tok' <> TOKEN_EOF /\ type tok' <> TOKEN_SCONST.
Proof.
  intros E Ha. rewrite (scan_identifier_run _ _ _ _ E Ha). cbv zeta.
  intro H; inversion H; subst l' tok'; clear H.
  assert (Hn : (S (run_length is_alnum s) <= List.length (unread l))%nat).
  { rewrite E. pose proof (run_length_le is_alnum s). simpl. lia. }
  unfold frame_ok. cbn [type value length location set_data set_type set_value].
  change (advance (advance_n (run_length is_alnum s) l))
    with (advance_n (S (run_length is_alnum s)) l).
  rewrite E. repeat split.
  - apply input_advance_n.
  - rewrite <- E. exact Hn.
  - now apply pos_advance_n.
  - intro Hk. apply (f_equal eof_or_sconst) in Hk.
    rewrite lookup_keyword_kind in Hk. discriminate.
  - intro Hk. apply (f_equal eof_or_sconst) in Hk.
    rewrite lookup_keyword_kind in Hk. discriminate.
Qed.

(** ** The string scanner *)

Section StringLoop.

Variables (quote : ascii) (start : nat) (tok : Token).

Lemma string_result_shift (k : nat) (l : Lexer) (r : option nat) :
  (k <= List.length (unread l))%nat ->
  string_result start tok (advance_n k l) r
  = string_result start tok l (option_map (Nat.add k) r).
Proof.
  intro Hk. destruct (advance_n_view k l Hk) as (Hp & Hu & Hi).
  unfold string_result. destruct r as [n|]; cbn [option_map].
  - rewrite Hi, Hp, <- advance_n_add.
    replace (pos l + k + n)%nat with (pos l + (k + n))%nat by lia.
    replace (k + S n)%nat with (S (k + n)) by lia. reflexivity.
  - rewrite <- advance_n_add, Hu, length_skipn.
    replace (k + (List.length (unread l) - k))%nat
      with (List.length (unread l)) by lia.
    reflexivity.
Qed.

(** The string loop finds the closing delimiter that [string_end]
    describes; [fuel] for the unread bytes is enough. *)
Lemma scan_string_loop_end (fuel : nat) :
  forall l : Lexer,
    (List.length (unread l) <= fuel)%nat ->
    scan_string_loop fuel quote start l tok
    = string_result start tok l (string_end quote (unread l)).
Proof.
  induction fuel as [|fuel IH]; intros l Hf.
  - destruct (unread l) eqn:E; [|simpl in Hf; lia].
    unfold string_result. cbn [string_end]. rewrite E. reflexivity.
  - simpl. destruct (unread l) as [|c s1] eqn:E.
    + unfold string_result. cbn [string_end]. rewrite E.
      apply unread_nil, Nat.leb_le in E.
      replace (pos l <? input_len l)%nat with false
        by (symmetry; apply Nat.ltb_ge; exact E).
      reflexivity.
    + rewrite (unread_lt _ _ _ E), (unread_peek _ _ _ E).
      destruct (unread_second _ _ _ E) as (-> & ->).
      pose proof (unread_advance _ _ _ E) as E1.
      assert (H1 : (1 <= List.length (unread l))%nat) by (rewrite E; simpl; lia).
      simpl in Hf. simpl string_end.
      destruct (c =? quote)%char.
      * destruct s1 as [|c1 s2]; simpl.
        { unfold string_result. now rewrite Nat.add_0_r. }
        destruct (c1 =? quote)%char.
        -- assert (H2 : (2 <= List.length (unread l))%nat)
             by (rewrite E; simpl; lia).
           rewrite IH by (rewrite (unread_advance _ _ _ E1); simpl in Hf; lia).
           change (advance (advance l)) with (advance_n 2 l).
           now rewrite (string_result_shift 2 l _ H2), unread_advance_n, E.
        -- unfold string_result. now rewrite Nat.add_0_r.
      * destruct (c =? backslash)%char.
        -- destruct s1 as [|c1 s2].
           ++ replace (pos (advance l) <? input_len (advance l))%nat with false.
              2:{ symmetry. apply Nat.ltb_ge, Nat.leb_le, unread_nil. exact E1. }
              rewrite IH by (rewrite E1; simpl; lia).
              rewrite E1. change (advance l) with (advance_n 1 l).
              rewrite (string_result_shift 1 l _ H1). simpl.
              unfold string_result. now rewrite E.
           ++ rewrite (unread_lt _ _ _ E1).
              assert (H2 : (2 <= List.length (unread l))%nat)
                by (rewrite E; simpl; lia).
              rewrite IH by (rewrite (unread_advance _ _ _ E1); simpl in Hf; lia).
              change (advance (advance l)) with (advance_n 2 l).
              now rewrite (string_result_shift 2 l _ H2), unread_advance_n, E.
        -- rewrite IH by (rewrite E1; lia).
           change (advance l) with (advance_n 1 l).
           now rewrite (string_result_shift 1 l _ H1), unread_advance_n, E.
Qed.

End StringLoop.

Lemma string_end_lt (quote : ascii) (s : list ascii) :
  forall n, string_end quote s = Some n -> (n < List.length s)%nat.
Proof.
  induction s as [s IH] using (induction_ltof1 _ (@List.length ascii)).
  unfold ltof in IH. intros n H. destruct s as [|c s1]; [discriminate|].
  simpl in H. destruct (c =? quote)%char.
  - destruct s1 as [|c1 s2]; [inversion H; simpl; lia|].
    destruct (c1 =? quote)%char; [|inversion H; simpl; lia].
    destruct (string_end quote s2) as [m|] eqn:Em; [|discriminate].
    inversion H; subst. specialize (IH s2 ltac:(simpl; lia) m Em). simpl. lia.
  - destruct (c =? backslash)%char.
    + destruct s1 as [|c1 s2]; [discriminate|].
      destruct (string_end quote s2) as [m|] eqn:Em; [|discriminate].
      inversion H; subst. specialize (IH s2 ltac:(simpl; lia) m Em). simpl. lia.
    + destruct (string_end quote s1) as [m|] eqn:Em; [|discriminate].
      inversion H; subst. specialize (IH s1 ltac:(simpl; lia) m Em). simpl. lia.
Qed.

(** The string scanner, from the list of unread bytes: the token text is
    what lies between the delimiters, copied as it stands. *)
Lemma scan_string_end (l : Lexer) (tok : Token) (q : ascii) (s : list ascii) :
  unread l = q :: s ->
  lexer_scan_string l tok =
    match string_end q s with
    | Some n =>
        (true, advance_n (S (S n)) l, set_value tok (Some (firstn n s)) n)
    | None =>
        (false,
         lexer_set_error (advance_n (S (List.length s)) l)
                         "unterminated string literal",
         tok)
    end.
Proof.
  intro E. unfold lexer_scan_string.
  assert (Hq : lexer_advance l = (q, advance l)).
  { unfold advance. destruct (lexer_advance l) as [c l1] eqn:El. simpl.
    f_equal. unfold lexer_advance in El. rewrite (unread_not_end _ _ _ E) in El.
    destruct (unread_cons _ _ _ E) as (_ & Hb & _). rewrite Hb in El.
    now inversion El. }
  rewrite Hq. pose proof (unread_advance _ _ _ E) as E1.
  rewrite scan_string_loop_end by (rewrite unread_length; lia).
  rewrite E1. unfold string_result.
  destruct (string_end q s) as [n|] eqn:En.
  - pose proof (string_end_lt _ _ _ En) as Hn.
    replace (pos (advance l) + n - pos (advance l))%nat with n by lia.
    rewrite substr_unread, E1, <- advance_n_S. reflexivity.
  - rewrite E1, <- advance_n_S. reflexivity.
Qed.

(** ** The driver *)

Lemma advance_while_input (p : ascii -> bool) (fuel : nat) :
  forall l, input (advance_while p fuel l) = input l.
Proof.
  induction fuel as [|fuel IH]; intro l; [reflexivity|]. simpl.
  destruct (_ && _); [|reflexivity].
  rewrite IH. apply advance_fields.
Qed.

Lemma block_comment_loop_input (fuel : nat) :
  forall l, input (block_comment_loop fuel l) = input l.
Proof.
  induction fuel as [|fuel IH]; intro l; [reflexivity|]. simpl.
  destruct (_ <? _)%nat; [|reflexivity].
  destruct (_ && _).
  - change (advance (advance l)) with (advance_n 2 l). apply input_advance_n.
  - rewrite IH. apply advance_fields.
Qed.

Lemma lexer_skip_comment_input (l : Lexer) : input (lexer_skip_comment l) = input l.
Proof.
  unfold lexer_skip_comment.
  destruct (starts_line_comment l).
  - rewrite advance_while_input. apply (input_advance_n 2).
  - destruct (starts_block_comment l); [|reflexivity].
    rewrite block_comment_loop_input. apply (input_advance_n 2).
Qed.

Lemma skip_loop_input (fuel : nat) : forall l, input (skip_loop fuel l) = input l.
Proof.
  induction fuel as [|fuel IH]; intro l; [reflexivity|]. simpl.
  destruct (_ <? _)%nat; [|reflexivity].
  assert (Hw : input (lexer_skip_whitespace l) = input l)
    by apply advance_while_input.
  destruct (_ <=? _)%nat; [exact Hw|].
  destruct (_ || _); [|exact Hw].
  now rewrite IH, lexer_skip_comment_input.
Qed.

(** A successful scan: string tokens carry the bytes between the
    delimiters, the other tokens the bytes from the cursor on. *)
Lemma scan_token_frame (l : Lexer) (tok : Token) (l' : Lexer) (tok' : Token)
    (c : ascii) (s : list ascii) :
  unread l = c :: s ->
  scan_token l tok = (true, l', tok') ->
  input l' = input l /\ location tok' = location tok /\ type tok' <> TOKEN_EOF
  /\ ((type tok' = TOKEN_SCONST /\ value tok' = Some (firstn (length tok') s)
       /\ (length tok' < List.length s)%nat)
      \/ (type tok' <> TOKEN_SCONST
          /\ value tok' = Some (firstn (length tok') (c :: s))
          /\ (length tok' <= List.length (c :: s))%nat)).
Proof.
  intros E H. unfold scan_token in H. rewrite (unread_peek _ _ _ E) in H.
  destruct ((c =? squote)%char || (c =? dquote)%char).
  - rewrite (scan_string_end _ _ _ _ E) in H.
    destruct (string_end c s) as [n|] eqn:En; [|discriminate].
    inversion H; subst l' tok'; clear H.
    pose proof (string_end_lt _ _ _ En) as Hn.
    change (advance (advance (advance_n n l))) with (advance_n (S (S n)) l).
    rewrite input_advance_n.
    cbn [type value length location set_data set_type set_value].
    repeat split; try discriminate. left. repeat split. exact Hn.
  - assert (F : frame_ok l tok l' tok' /\ type tok' <> TOKEN_EOF
                /\ type tok' <> TOKEN_SCONST).
    { destruct (is_digit c); [now apply scan_number_frame|].
      destruct (is_alpha c) eqn:Ha.
      - now apply (scan_identifier_frame _ _ _ _ _ _ E Ha).
      - now apply (scan_operator_frame _ _ _ _ _ _ E). }
    destruct F as ((Hi & Hl & Hv & Hle & _) & H1 & H2). rewrite E in Hv, Hle.
    repeat split; auto.
Qed.

Lemma int_wrap_small (z : Z) : 0 <= z <= INT_MAX -> int_wrap z = z.
Proof.
  unfold int_wrap, INT_MAX. intro H.
  rewrite Z.mod_small; lia.
Qed.

(** The two ways a call ends: at the end of the input, or in a scanner
    started where the skip loop stopped. *)
Lemma next_token_cases (l : Lexer) :
  let l0 := skip_loop (remaining l) l in
  let tok0 := set_location (release_current l) (here l0) in
  (unread l0 = []
   /\ lexer_next_token l
      = (true, set_current l0 (set_value (set_type tok0 TOKEN_EOF) None O) true))
  \/ (exists c s, unread l0 = c :: s
      /\ lexer_next_token l
         = let '(success, l', tok) := scan_token l0 tok0 in
           (success, set_current l' tok success)).
Proof.
  cbv zeta. unfold lexer_next_token.
  destruct (unread (skip_loop (remaining l) l)) as [|c s] eqn:E.
  - left. split; [reflexivity|]. now rewrite (unread_nil _ E).
  - right. exists c, s. split; [reflexivity|]. now rewrite (unread_not_end _ _ _ E).
Qed.

Lemma skip_loop_end (fuel : nat) (l : Lexer) :
  (input_len l <=? pos l)%nat = true -> skip_loop fuel l = l.
Proof.
  intro H. destruct fuel as [|fuel]; [reflexivity|]. simpl.
  replace (pos l <? input_len l)%nat with false; [reflexivity|].
  symmetry. apply Nat.ltb_ge, Nat.leb_le. exact H.
Qed.

(** A successful call, seen from its result. *)
Lemma next_token_success (l l1 : Lexer) (t : Token) :
  lexer_next_token l = (true, l1) ->
  lexer_current_token l1 = Some t ->
  let l0 := skip_loop (remaining l) l in
  (unread l0 = [] /\ type t = TOKEN_EOF
   /\ l1 = set_current l0
             (set_value (set_type (set_location (release_current l) (here l0))
                                  TOKEN_EOF) None O) true)
  \/ (exists c s l' ,
        unread l0 = c :: s
        /\ scan_token l0 (set_location (release_current l) (here l0)) = (true, l', t)
        /\ l1 = set_current l' t true).
Proof.
  intros H Hc. cbv zeta.
  destruct (next_token_cases l) as [(E & Hn) | (c & s & E & Hn)]; rewrite Hn in H.
  - left. inversion H; subst l1; clear H. unfold lexer_current_token in Hc.
    simpl in Hc. inversion Hc; subst t. auto.
  - right. exists c, s.
    destruct (scan_token _ _) as [[ok l'] tok'].
    inversion H; subst ok l1; clear H. unfold lexer_current_token in Hc.
    simpl in Hc. inversion Hc; subst t. exists l'. auto.
Qed.

(** ** Token text and source slice *)

(** C1, as the code has it: for an input of at most [INT_MAX] bytes (the
    offset is an [int]), every token a successful call produces, other
    than the end-of-input token, carries a slice of the input of the
    token's length: for every kind but the string literal the slice starts
    at the token's offset; for a string literal it starts one byte later,
    after the opening delimiter, which is left out of the text together
    with the closing one. *)
Theorem token_text_is_source_slice (l l1 : Lexer) (t : Token) :
  Z.of_nat (input_len l) <= INT_MAX ->
  lexer_next_token l = (true, l1) ->
  lexer_current_token l1 = Some t ->
  type t <> TOKEN_EOF ->
  input l1 = input l
  /\ ((type t <> TOKEN_SCONST /\ text_is_slice (input l) t
       /\ (Z.to_nat (offset (location t)) + length t <= input_len l)%nat)
      \/ (type t = TOKEN_SCONST /\ text_is_inner_slice (input l) t
          /\ (Z.to_nat (offset (location t)) + 1 + length t < input_len l)%nat)).
Proof.
  intros Hmax H Hc Ht.
  destruct (next_token_success _ _ _ H Hc) as [(_ & He & _) | (c & s & l' & E & Hs & ->)];
    [contradiction|].
  set (l0 := skip_loop (remaining l) l) in *.
  assert (Hi0 : input l0 = input l) by apply skip_loop_input.
  destruct (scan_token_frame _ _ _ _ _ _ E Hs) as (Hi & Hl & _ & Hv).
  destruct (unread_cons _ _ _ E) as (Hlt & _).
  assert (Hlen : input_len l0 = input_len l) by (unfold input_len; now rewrite Hi0).
  assert (Hoff : Z.to_nat (offset (location t)) = pos l0).
  { rewrite Hl. cbn [location set_location here offset]. unfold int_of_size_t.
    rewrite int_wrap_small by lia. apply Nat2Z.id. }
  pose proof (unread_length l0) as Hul. rewrite E in Hul. unfold remaining in Hul.
  simpl in Hul. split; [simpl; congruence|].
  unfold text_is_slice, text_is_inner_slice. rewrite Hoff, <- Hi0.
  destruct Hv as [(Hk & Hv & Hn) | (Hk & Hv & Hn)]; [right | left]; repeat split; auto.
  - rewrite Hv. unfold substr. unfold unread in E.
    now destruct (skipn_cons_nth _ _ _ _ E) as (_ & -> & _).
  - lia.
  - rewrite Hv, substr_unread, E. reflexivity.
  - simpl in Hn. lia.
Qed.

Lemma token_text_is_source_slice_witness :
  (exists l1 t,
     first_token (cstr "select 'ab'") = (true, l1)
     /\ lexer_current_token l1 = Some t
     /\ type t = TOKEN_SELECT
     /\ text_is_slice (cstr "select 'ab'") t)
  /\ (exists l1 t,
        first_token (cstr "'ab' x") = (true, l1)
        /\ lexer_current_token l1 = Some t
        /\ type t = TOKEN_SCONST
        /\ text_is_inner_slice (cstr "'ab' x") t).
Proof.
  split.
  - eexists; eexists.
    assert (H1 : first_token (cstr "select 'ab'")
                 = (true, snd (first_token (cstr "select 'ab'")))) by reflexivity.
    assert (H2 : lexer_current_token (snd (first_token (cstr "select 'ab'")))
                 = Some (current_token (snd (first_token (cstr "select 'ab'")))))
      by reflexivity.
    split; [exact H1|]. split; [exact H2|]. split; [reflexivity|].
    destruct (token_text_is_source_slice (lexer_create (cstr "select 'ab'")) _ _
                ltac:(vm_compute; discriminate) H1 H2 ltac:(vm_compute; discriminate))
      as (_ & [(_ & Hs & _) | (Hk & _)]).
    + exact Hs.
    + vm_compute in Hk. discriminate Hk.
  - eexists; eexists.
    assert (H1 : first_token (cstr "'ab' x")
                 = (true, snd (first_token (cstr "'ab' x")))) by reflexivity.
    assert (H2 : lexer_current_token (snd (first_token (cstr "'ab' x")))
                 = Some (current_token (snd (first_token (cstr "'ab' x")))))
      by reflexivity.
    split; [exact H1|]. split; [exact H2|]. split; [reflexivity|].
    destruct (token_text_is_source_slice (lexer_create (cstr "'ab' x")) _ _
                ltac:(vm_compute; discriminate) H1 H2 ltac:(vm_compute; discriminate))
      as (_ & [(Hk & _) | (_ & Hs & _)]).
    + exfalso. apply Hk. reflexivity.
    + exact Hs.
Defined.

(** Counterexample to C1 as stated: the string token read from ['ab'] has
    offset 0 and length 2, its text is [ab], and the slice of the input at
    offset 0 of length 2 is ['a]. *)
Lemma string_token_text_is_not_source_slice :
  exists l1 t,
    first_token (cstr "'ab'") = (true, l1)
    /\ lexer_current_token l1 = Some t
    /\ type t <> TOKEN_EOF
    /\ value t = Some (cstr "ab")
    /\ substr (cstr "'ab'") (Z.to_nat (offset (location t))) (length t) = cstr "'a"
    /\ ~ text_is_slice (cstr "'ab'") t.
Proof.
  eexists; eexists. split; [vm_compute; reflexivity|].
  split; [reflexivity|]. split; [discriminate|].
  split; [reflexivity|]. split; [reflexivity|].
  unfold text_is_slice. vm_compute. discriminate.
Qed.

(** ** End of input *)

(** C9: once a call has produced the end-of-input token, every later call
    succeeds and leaves the lexer exactly as it was: the position is
    unchanged and the current token is again the end-of-input token. *)
Theorem next_token_idempotent_at_eof (l l1 : Lexer) (t : Token) :
  lexer_next_token l = (true, l1) ->
  lexer_current_token l1 = Some t ->
  type t = TOKEN_EOF ->
  forall n : nat,
    let ln := Nat.iter n (fun x => snd (lexer_next_token x)) l1 in
    lexer_next_token ln = (true, l1)
    /\ pos (snd (lexer_next_token ln)) = pos l1
    /\ lexer_current_token (snd (lexer_next_token ln)) = Some t.
Proof.
  intros H Hc Ht.
  assert (Hfix : lexer_next_token l1 = (true, l1)).
  { destruct (next_token_success _ _ _ H Hc) as [(E & _ & ->) | (c & s & l' & E & Hs & _)].
    - set (l0 := skip_loop (remaining l) l) in *.
      pose proof (unread_nil _ E) as Hend.
      unfold lexer_next_token.
      rewrite skip_loop_end by exact Hend.
      cbn -[Nat.leb input_len]. change (input_len _) with (input_len l0).
      rewrite Hend. reflexivity.
    - destruct (scan_token_frame _ _ _ _ _ _ E Hs) as (_ & _ & Hne & _).
      contradiction. }
  intro n. cbv zeta.
  assert (Hn : Nat.iter n (fun x => snd (lexer_next_token x)) l1 = l1).
  { induction n as [|n IH]; [reflexivity|]. simpl. rewrite IH, Hfix. reflexivity. }
  rewrite Hn, Hfix. simpl. auto.
Qed.

Lemma next_token_idempotent_at_eof_witness :
  exists l1 : Lexer,
    first_token (cstr "  -- done") = (true, l1)
    /\ lexer_next_token l1 = (true, l1)
    /\ lexer_next_token (snd (lexer_next_token l1)) = (true, l1).
Proof.
  eexists. split; [vm_compute; reflexivity|].
  match goal with
  | |- lexer_next_token ?l1 = _ /\ _ =>
      assert (H1 : lexer_next_token (lexer_create (cstr "  -- done")) = (true, l1))
        by (vm_compute; reflexivity);
      pose proof (next_token_idempotent_at_eof _ l1 _ H1 eq_refl eq_refl) as H
  end.
  split.
  - exact (proj1 (H O)).
  - exact (proj1 (H 1%nat)).
Defined.

(** ** The current-token accessor *)

(** C10: a fresh lexer has no current token, and after any call the
    accessor returns the token slot exactly when the call succeeded, and
    null when it failed. *)
Theorem current_token_iff_last_call_succeeded :
  (forall inp : list ascii, lexer_current_token (lexer_create inp) = None)
  /\ (forall l : Lexer,
        has_current (snd (lexer_next_token l)) = fst (lexer_next_token l)
        /\ lexer_current_token (snd (lexer_next_token l))
           = if fst (lexer_next_token l)
             then Some (current_token (snd (lexer_next_token l)))
             else None).
Proof.
  split; [reflexivity|]. intro l.
  assert (H : has_current (snd (lexer_next_token l)) = fst (lexer_next_token l)).
  { destruct (next_token_cases l) as [(_ & ->) | (c & s & _ & ->)]; [reflexivity|].
    destruct (scan_token _ _) as [[ok l'] tok']. reflexivity. }
  split; [exact H|]. unfold lexer_current_token. now rewrite H.
Qed.

(** ** Numbers *)



(** ** Parameter markers *)

Lemma run_length_all (p : ascii -> bool) (s : list ascii) :
  forallb p (firstn (run_length p s) s) = true.
Proof.
  induction s as [|c s IH]; simpl; [reflexivity|].
  destruct (p c) eqn:Hp; simpl; [now rewrite Hp | reflexivity].
Qed.

Lemma run_length_maximal (p : ascii -> bool) (s : list ascii) :
  p NUL = false -> p (hd NUL (skipn (run_length p s) s)) = false.
Proof.
  intro H0. induction s as [|c s IH]; simpl; [exact H0|].
  destruct (p c) eqn:Hp; simpl; [exact IH | exact Hp].
Qed.




(** ** String literals *)

Lemma is_quote_cases (q : ascii) : is_quote q = true -> q = squote \/ q = dquote.
Proof.
  unfold is_quote. intro H. apply orb_prop in H.
  destruct H as [H|H]; apply Ascii.eqb_eq in H; auto.
Qed.

Lemma string_end_render (q : ascii) (body : list BodyItem) (t : list ascii) :
  is_quote q = true ->
  forallb (item_ok q) body = true ->
  string_end q (render q body ++ t)
  = option_map (Nat.add (List.length (render q body))) (string_end q t).
Proof.
  intros Hq. induction body as [|it body IH]; intro H.
  - simpl. now destruct (string_end q t).
  - simpl in H. apply andb_prop in H. destruct H as (Hit & Hb).
    unfold render in *. cbn [flat_map]. rewrite <- app_assoc, length_app.
    destruct it as [c| |c]; cbn [render_item app List.length].
    + unfold item_ok, plain in Hit. apply andb_prop in Hit.
      destruct Hit as (H1 & H2). apply negb_true_iff in H1, H2.
      cbn [string_end]. rewrite H1, H2, (IH Hb).
      now destruct (string_end q t).
    + cbn [string_end]. rewrite Ascii.eqb_refl, (IH Hb).
      now destruct (string_end q t).
    + cbn [string_end].
      replace (backslash =? q)%char with false
        by (destruct (is_quote_cases q Hq) as [-> | ->]; reflexivity).
      rewrite Ascii.eqb_refl, (IH Hb). now destruct (string_end q t).
Qed.

Lemma string_end_close (q : ascii) (rest : list ascii) :
  (hd NUL rest =? q)%char = false -> string_end q (q :: rest) = Some O.
Proof.
  intro H. cbn [string_end]. rewrite Ascii.eqb_refl.
  destruct rest as [|c rest]; [reflexivity|]. simpl in H. now rewrite H.
Qed.

(** A whole literal: opening delimiter, body, closing delimiter. *)
Lemma next_token_string (l : Lexer) (q : ascii) (body rest : list ascii) :
  is_quote q = true ->
  string_end q (body ++ q :: rest) = Some (List.length body) ->
  unread l = q :: body ++ q :: rest ->
  yields (lexer_next_token l) TOKEN_SCONST body
  /\ unread (snd (lexer_next_token l)) = rest.
Proof.
  intros Hq He E.
  assert (Hs : is_space q = false /\ comment_start (q :: body ++ q :: rest) = false).
  { destruct (is_quote_cases q Hq) as [-> | ->];
      (split; [reflexivity | now destruct (body ++ _)]). }
  destruct Hs as (Hs & Hc).
  rewrite (next_token_scan l _ _ E Hs Hc). unfold scan_token.
  rewrite (unread_peek _ _ _ E). fold (is_quote q). rewrite Hq.
  rewrite (scan_string_end _ _ _ _ E), He, firstn_prefix.
  unfold yields. cbn [fst snd]. repeat split.
  - eexists. split; [reflexivity|]. repeat split.
  - change (unread (advance_n (S (S (List.length body))) l) = rest).
    rewrite unread_advance_n, E.
    replace (q :: body ++ q :: rest) with ((q :: body ++ [q]) ++ rest)
      by (simpl; now rewrite <- app_assoc).
    replace (S (S (List.length body))) with (List.length (q :: body ++ [q]))
      by (simpl; rewrite length_app; simpl; lia).
    apply skipn_prefix.
Qed.

(** C4, as the code has it: in a string literal a doubled delimiter does
    not end the literal, and the token text keeps it as it stands, as two
    delimiter bytes; nothing is decoded.  The literal is any well-formed
    one: before and after the doubled delimiter come plain bytes, further
    doubled delimiters and backslash pairs. *)
Theorem doubled_delimiter_kept (l : Lexer) (q : ascii)
    (before after : list BodyItem) (rest : list ascii) :
  is_quote q = true ->
  forallb (item_ok q) before = true ->
  forallb (item_ok q) after = true ->
  (hd NUL rest =? q)%char = false ->
  unread l = q :: render q before ++ q :: q :: render q after ++ q :: rest ->
  yields (lexer_next_token l) TOKEN_SCONST
         (render q before ++ q :: q :: render q after)
  /\ unread (snd (lexer_next_token l)) = rest.
Proof.
  intros Hq Ha Hb Hr E.
  assert (Hbody : render q before ++ q :: q :: render q after
                  = render q (before ++ Doubled :: after)).
  { unfold render. rewrite flat_map_app. reflexivity. }
  rewrite Hbody.
  apply (next_token_string l q _ rest Hq).
  - rewrite (string_end_render _ _ _ Hq), (string_end_close _ _ Hr).
    + cbn [option_map]. f_equal. lia.
    + rewrite forallb_app, Ha. simpl. exact Hb.
  - rewrite E, <- Hbody, <- app_assoc. reflexivity.
Qed.

Lemma doubled_delimiter_kept_witness :
  yields (first_token (cstr "'it''s'")) TOKEN_SCONST (cstr "it''s")
  /\ unread (snd (first_token (cstr "'it''s'"))) = [].
Proof.
  exact (doubled_delimiter_kept (lexer_create (cstr "'it''s'")) squote
           [Plain "i"; Plain "t"] [Plain "s"] []
           eq_refl eq_refl eq_refl eq_refl eq_refl).
Defined.

(** Counterexample to C4 as stated: the token read from ['it''s'] has the
    five-byte text [it''s], with two apostrophes, not the four-byte
    [it's]. *)
Lemma doubled_delimiter_not_resolved :
  exists t,
    fst (first_token (cstr "'it''s'")) = true
    /\ lexer_current_token (snd (first_token (cstr "'it''s'"))) = Some t
    /\ type t = TOKEN_SCONST
    /\ value t = Some (cstr "it''s")
    /\ length t = 5%nat
    /\ value t <> Some (cstr "it's").
Proof.
  exists (current_token (snd (first_token (cstr "'it''s'")))).
  vm_compute. repeat split; discriminate.
Qed.

(** C7: in a string literal a backslash and the byte after it, whatever
    that byte is, are both kept in the token text as they stand.  The
    literal is any well-formed one: before and after the pair come plain
    bytes, doubled delimiters and further backslash pairs. *)
Theorem backslash_pair_kept (l : Lexer) (q c : ascii)
    (before after : list BodyItem) (rest : list ascii) :
  is_quote q = true ->
  forallb (item_ok q) before = true ->
  forallb (item_ok q) after = true ->
  (hd NUL rest =? q)%char = false ->
  unread l = q :: render q before ++ backslash :: c :: render q after ++ q :: rest ->
  yields (lexer_next_token l) TOKEN_SCONST
         (render q before ++ backslash :: c :: render q after)
  /\ unread (snd (lexer_next_token l)) = rest.
Proof.
  intros Hq Ha Hb Hr E.
  assert (Hbody : render q before ++ backslash :: c :: render q after
                  = render q (before ++ Escaped c :: after)).
  { unfold render. rewrite flat_map_app. reflexivity. }
  rewrite Hbody.
  apply (next_token_string l q _ rest Hq).
  - rewrite (string_end_render _ _ _ Hq), (string_end_close _ _ Hr).
    + cbn [option_map]. f_equal. lia.
    + rewrite forallb_app, Ha. simpl. exact Hb.
  - rewrite E, <- Hbody, <- app_assoc. reflexivity.
Qed.

Lemma backslash_pair_kept_witness :
  let inp := cstr "'line" ++ backslash :: cstr "nend'" in
  yields (first_token inp) TOKEN_SCONST (cstr "line" ++ backslash :: cstr "nend")
  /\ ~ In newline (cstr "line" ++ backslash :: cstr "nend").
Proof.
  cbv zeta. split.
  - exact (proj1 (backslash_pair_kept
             (lexer_create (cstr "'line" ++ backslash :: cstr "nend'")) squote "n"
             [Plain "l"; Plain "i"; Plain "n"; Plain "e"]
             [Plain "e"; Plain "n"; Plain "d"] []
             eq_refl eq_refl eq_refl eq_refl eq_refl)).
  - simpl. intros [H|[H|[H|[H|[H|[H|[H|[H|[H|[]]]]]]]]]]; discriminate H.
Defined.

(** ** Unterminated block comments *)

(** Without a terminator the block-comment loop stops one byte short of
    the end of the input: its test is [pos + 1 < input_len]. *)
Lemma block_comment_loop_unterminated (body : list ascii) :
  forall (fuel : nat) (l : Lexer) (c : ascii),
    unread l = body ++ [c] ->
    has_terminator (body ++ [c]) = false ->
    (List.length body <= fuel)%nat ->
    block_comment_loop fuel l = advance_n (List.length body) l.
Proof.
  induction body as [|b body IH]; intros fuel l c E Ht Hf.
  - destruct fuel as [|fuel]; [reflexivity|]. simpl in *.
    destruct (unread_second _ _ _ E) as (-> & _). reflexivity.
  - destruct fuel as [|fuel]; [simpl in Hf; lia|].
    change ((b :: body) ++ [c]) with (b :: (body ++ [c])) in E, Ht.
    cbn [block_comment_loop]. rewrite (unread_peek _ _ _ E).
    destruct (unread_second _ _ _ E) as (-> & ->).
    cbn [has_terminator] in Ht. apply orb_false_elim in Ht.
    destruct Ht as (Ht1 & Ht2). rewrite Ht1.
    replace (match body ++ [c] with [] => false | _ :: _ => true end) with true
      by (now destruct body).
    change (List.length (b :: body)) with (S (List.length body)).
    rewrite advance_n_S.
    apply (IH fuel (advance l) c (unread_advance _ _ _ E) Ht2).
    simpl in Hf. lia.
Qed.

(** After [/*] and a body without [*/], the comment skipper leaves the
    last byte of the input unread. *)
Lemma skip_comment_unterminated (l : Lexer) (body : list ascii) (c : ascii) :
  unread l = "/"%char :: "*"%char :: body ++ [c] ->
  has_terminator (body ++ [c]) = false ->
  unread (lexer_skip_comment l) = [c].
Proof.
  intros E Ht. unfold lexer_skip_comment.
  assert (Hl : starts_line_comment l = false).
  { unfold starts_line_comment. now rewrite (unread_peek _ _ _ E). }
  assert (Hb : starts_block_comment l = true).
  { unfold starts_block_comment. rewrite (unread_peek _ _ _ E).
    now destruct (unread_second _ _ _ E) as (-> & ->). }
  rewrite Hl, Hb.
  pose proof (unread_advance _ _ _ (unread_advance _ _ _ E)) as E2.
  rewrite (block_comment_loop_unterminated body _ _ c E2 Ht).
  - rewrite unread_advance_n, E2. apply skipn_prefix.
  - rewrite <- unread_length, E2, length_app. lia.
Qed.

(** C2 on the code: after the unterminated comment [/*x] the first call
    does not report the end of the input but scans the last byte and
    yields the identifier [x]; after [/* '] the call fails with an error,
    and after [/*!] as well. *)
Theorem unterminated_comment_last_byte_scanned :
  has_terminator (cstr "x") = false
  /\ yields (first_token (cstr "/*x")) TOKEN_IDENT (cstr "x")
  /\ fails_with (first_token (cstr "/* '")) "unterminated string literal"
  /\ fails_with (first_token (cstr "/*!")) "unexpected character '!'".
Proof.
  split; [reflexivity|]. split; [|split].
  - split; [reflexivity|]. eexists. split; [vm_compute; reflexivity|].
    repeat split.
  - repeat split.
  - repeat split.
Qed.

(** ** Keywords the binary search misses *)

Lemma tolower_idempotent (c : ascii) : tolower (tolower c) = tolower c.
Proof. destruct c as [[] [] [] [] [] [] [] []]; reflexivity. Qed.

Lemma strncasecmp_tolower (n : nat) :
  forall s1 s2, strncasecmp (map tolower s1) s2 n = strncasecmp s1 s2 n.
Proof.
  induction n as [|n IH]; intros s1 s2; [reflexivity|].
  destruct s1 as [|c s1]; [reflexivity|]. cbn [strncasecmp map hd tl].
  rewrite tolower_idempotent, IH. reflexivity.
Qed.

Lemma lookup_loop_tolower (str : list ascii) (len : nat) (fuel : nat) :
  forall lo hi,
    lookup_keyword_loop fuel (map tolower str) len lo hi
    = lookup_keyword_loop fuel str len lo hi.
Proof.
  induction fuel as [|fuel IH]; intros lo hi; [reflexivity|]. simpl.
  rewrite strncasecmp_tolower, !IH. reflexivity.
Qed.

(** The lookup does not depend on the case of the candidate: every case
    variant of a spelling gets what the spelling itself gets. *)
Lemma lookup_keyword_case_variant (v : list ascii) (e : KeywordEntry) :
  case_variant v (name e) -> lookup_keyword v (List.length v) = lookup_spelling e.
Proof.
  unfold case_variant, lookup_spelling, lookup_keyword. intro H.
  rewrite <- H, length_map. symmetry. apply lookup_loop_tolower.
Qed.

(** The entries whose own spelling the binary search does not find: each
    is a proper prefix of a later entry, and a probe that lands on the
    longer entry moves right, away from it. *)
Lemma lookup_keyword_misses :
  map name (filter (fun e => token_eqb_ident (lookup_spelling e)) keywords)
  = ["as"; "char"; "in"; "no"; "on"; "or"; "over"; "time"]%string.
Proof. vm_compute. reflexivity. Qed.

(** C3 on the code: [as] is in the keyword table with kind [TOKEN_AS], but
    the lookup, and so the identifier scanner, gives [TOKEN_IDENT] for
    [as] and for its case variant [AS]. *)
Theorem keyword_as_scanned_as_identifier :
  In (mkKeyword "as" TOKEN_AS) keywords
  /\ lookup_keyword (cstr "as") 2 = TOKEN_IDENT
  /\ yields (first_token (cstr "as")) TOKEN_IDENT (cstr "as")
  /\ yields (first_token (cstr "AS")) TOKEN_IDENT (cstr "AS").
Proof.
  split; [vm_compute; tauto|]. split; [vm_compute; reflexivity|].
  split; (split; [vm_compute; reflexivity|]; eexists;
          split; [vm_compute; reflexivity|]; repeat split).
Qed.

(** Every entry the search does find gets its own kind. *)
Lemma lookup_keyword_hits :
  let found := filter (fun e => negb (token_eqb_ident (lookup_spelling e))) keywords in
  map lookup_spelling found = map token found /\ List.length found = 149%nat.
Proof. vm_compute. split; reflexivity. Qed.

Lemma char_code_inj (c d : ascii) : char_code c = char_code d -> c = d.
Proof.
  unfold char_code. intro H. apply N2Z.inj in H.
  rewrite <- (ascii_N_embedding c), <- (ascii_N_embedding d). now rewrite H.
Qed.

(** A zero comparison over the whole of both strings means that the
    candidate folds to the stored spelling. *)
Lemma strncasecmp_zero (n : nat) :
  forall s1 s2 : list ascii,
    strncasecmp s1 s2 n = 0 ->
    List.length s1 = n -> strlen s1 = n ->
    List.length s2 = n -> map tolower s2 = s2 ->
    map tolower s1 = s2.
Proof.
  induction n as [|n IH]; intros s1 s2 H L1 N1 L2 T2.
  - destruct s1, s2; try discriminate. reflexivity.
  - destruct s1 as [|c1 s1], s2 as [|c2 s2]; try discriminate.
    cbn [strncasecmp hd tl] in H. simpl in L1, L2, N1, T2.
    inversion T2 as [[Tc Ts]]. rewrite Tc, Ts.
    destruct (c1 =? NUL)%char eqn:E1; [discriminate|].
    assert (Hn : (tolower c1 =? NUL)%char = false).
    { destruct (tolower c1 =? NUL)%char eqn:E2; [|reflexivity].
      apply Ascii.eqb_eq in E2. exfalso.
      revert E1 E2. clear. destruct c1 as [[] [] [] [] [] [] [] []]; discriminate. }
    rewrite Tc in H.
    destruct (tolower c1 =? c2)%char eqn:Ec; simpl in H.
    + apply Ascii.eqb_eq in Ec. rewrite Hn in H. simpl. f_equal; [exact Ec|].
      apply IH; auto; lia.
    + exfalso. assert (tolower c1 = c2) by (apply char_code_inj; lia).
      subst c2. now rewrite Ascii.eqb_refl in Ec.
Qed.

Lemma keywords_spellings :
  forallb (fun e => let w := cstr (name e) in
                    (strlen w =? List.length w)%nat
                    && forallb (fun c => (tolower c =? c)%char) w) keywords = true.
Proof. vm_compute. reflexivity. Qed.

Lemma forallb_tolower (w : list ascii) :
  forallb (fun c => (tolower c =? c)%char) w = true -> map tolower w = w.
Proof.
  induction w as [|c w IH]; simpl; [reflexivity|]. intro H.
  apply andb_prop in H. destruct H as (Hc & Hw). apply Ascii.eqb_eq in Hc.
  now rewrite Hc, (IH Hw).
Qed.

(** A candidate without a zero byte gets a reserved-word kind only if it
    is a case variant of an entry with that kind; so an extension of a
    keyword that is not itself a keyword (such as [andx]) is an
    identifier. *)
Lemma lookup_keyword_only_variants (v : list ascii) :
  strlen v = List.length v ->
  lookup_keyword v (List.length v) <> TOKEN_IDENT ->
  exists e, In e keywords /\ case_variant v (name e)
            /\ lookup_keyword v (List.length v) = token e.
Proof.
  intros Hz Hk. unfold lookup_keyword in *.
  destruct (lookup_loop_result v (List.length v) (S (Z.to_nat num_keywords)) 0
              (num_keywords - 1)) as [H | (i & H & Hc & Hl)]; [contradiction|].
  rewrite H in *. destruct (keyword_at_cases i) as [Hi | Hin]; [contradiction|].
  exists (keyword_at i). repeat split; auto. unfold case_variant.
  pose proof keywords_spellings as Hs. rewrite forallb_forall in Hs.
  specialize (Hs _ Hin). cbv zeta in Hs. apply andb_prop in Hs.
  destruct Hs as (Hs1 & Hs2). apply Nat.eqb_eq in Hs1.
  apply (strncasecmp_zero (List.length v)); auto.
  - congruence.
  - now apply forallb_tolower.
Qed.

Lemma extension_andx_is_identifier :
  yields (first_token (cstr "andx")) TOKEN_IDENT (cstr "andx")
  /\ yields (first_token (cstr "asc")) TOKEN_ASC (cstr "asc").
Proof.
  split; (split; [vm_compute; reflexivity|]; eexists;
          split; [vm_compute; reflexivity|]; repeat split).
Qed.

(** ** The loops never run out of fuel

    [advance_while], the string loop and the keyword search are covered by
    [advance_while_run], [scan_string_loop_end] and [lookup_loop_fuel]; the
    block-comment loop and the skip loop follow. *)

Lemma remaining_advance (l : Lexer) : remaining (advance l) = Nat.pred (remaining l).
Proof.
  unfold remaining. rewrite input_len_advance, advance_pos.
  destruct (Nat.leb_spec (input_len l) (pos l)); lia.
Qed.

Lemma remaining_advance_while (p : ascii -> bool) (fuel : nat) :
  forall l, (remaining (advance_while p fuel l) <= remaining l)%nat.
Proof.
  induction fuel as [|fuel IH]; intro l; simpl; [lia|].
  destruct (_ && _); [|lia].
  specialize (IH (advance l)). rewrite remaining_advance in IH. lia.
Qed.

Lemma remaining_block_comment_loop (fuel : nat) :
  forall l, (remaining (block_comment_loop fuel l) <= remaining l)%nat.
Proof.
  induction fuel as [|fuel IH]; intro l; simpl; [lia|].
  destruct (_ <? _)%nat; [|lia].
  destruct (_ && _).
  - rewrite !remaining_advance. lia.
  - specialize (IH (advance l)). rewrite remaining_advance in IH. lia.
Qed.

Lemma block_comment_loop_fuel (f1 : nat) :
  forall (f2 : nat) (l : Lexer),
    (remaining l <= f1)%nat -> (remaining l <= f2)%nat ->
    block_comment_loop f1 l = block_comment_loop f2 l.
Proof.
  assert (Hend : forall f l, remaining l = O -> block_comment_loop f l = l).
  { intros [|f] l H; [reflexivity|]. simpl.
    replace (pos l + 1 <? input_len l)%nat with false; [reflexivity|].
    symmetry. apply Nat.ltb_ge. unfold remaining in H. lia. }
  induction f1 as [|f1 IH]; intros f2 l H1 H2.
  - rewrite (Hend f2 l); [reflexivity | lia].
  - destruct f2 as [|f2]; [rewrite (Hend (S f1) l); [reflexivity | lia]|].
    simpl. destruct (pos l + 1 <? input_len l)%nat eqn:Hlt; [|reflexivity].
    destruct (_ && _); [reflexivity|].
    apply IH; rewrite remaining_advance; lia.
Qed.

(** A comment takes at least its two opening bytes. *)
Lemma remaining_skip_comment (l : Lexer) :
  starts_line_comment l || starts_block_comment l = true ->
  (remaining (lexer_skip_comment l) + 2 <= remaining l)%nat.
Proof.
  intro H. unfold lexer_skip_comment.
  assert (H2 : (2 <= remaining l)%nat).
  { unfold starts_line_comment, starts_block_comment, remaining in *.
    destruct (pos l + 1 <? input_len l)%nat eqn:Hlt.
    - apply Nat.ltb_lt in Hlt. lia.
    - rewrite !andb_false_r in H. discriminate. }
  assert (H3 : remaining (advance (advance l)) = (remaining l - 2)%nat)
    by (rewrite !remaining_advance; lia).
  destruct (starts_line_comment l).
  - pose proof (remaining_advance_while (fun c => negb (c =? newline)%char)
                  (remaining (advance (advance l))) (advance (advance l))). lia.
  - simpl in H. rewrite H.
    pose proof (remaining_block_comment_loop
                  (remaining (advance (advance l))) (advance (advance l))). lia.
Qed.

Lemma remaining_skip_whitespace (l : Lexer) :
  (remaining (lexer_skip_whitespace l) <= remaining l)%nat.
Proof. apply remaining_advance_while. Qed.

Lemma skip_loop_fuel (f1 : nat) :
  forall (f2 : nat) (l : Lexer),
    (remaining l <= f1)%nat -> (remaining l <= f2)%nat ->
    skip_loop f1 l = skip_loop f2 l.
Proof.
  assert (Hend : forall f l, remaining l = O -> skip_loop f l = l).
  { intros f l H. apply skip_loop_end, Nat.leb_le. unfold remaining in H. lia. }
  induction f1 as [|f1 IH]; intros f2 l H1 H2.
  - rewrite (Hend f2 l); [reflexivity | lia].
  - destruct f2 as [|f2]; [rewrite (Hend (S f1) l); [reflexivity | lia]|].
    simpl. destruct (pos l <? input_len l)%nat; [|reflexivity].
    destruct (_ <=? _)%nat; [reflexivity|].
    destruct (_ || _) eqn:Hc; [|reflexivity].
    pose proof (remaining_skip_comment _ Hc).
    pose proof (remaining_skip_whitespace l).
    apply IH; lia.
Qed.

(** Where the skip loop stops: at the end of the input, or before a byte
    that is neither blank nor the start of a comment. *)
Lemma skip_loop_done (fuel : nat) :
  forall l : Lexer,
    (remaining l <= fuel)%nat ->
    unread (skip_loop fuel l) = []
    \/ exists c s, unread (skip_loop fuel l) = c :: s
                   /\ is_space c = false /\ comment_start (c :: s) = false.
Proof.
  induction fuel as [|fuel IH]; intros l Hf.
  - left. simpl. pose proof (unread_length l) as H.
    destruct (unread l); [reflexivity | simpl in H; lia].
  - simpl. destruct (pos l <? input_len l)%nat eqn:Hlt.
    + destruct (unread (lexer_skip_whitespace l)) as [|c s] eqn:E.
      * rewrite (unread_nil _ E). now left.
      * rewrite (unread_not_end _ _ _ E).
        destruct (starts_line_comment _ || starts_block_comment _) eqn:Hc.
        -- apply IH. pose proof (remaining_skip_comment _ Hc).
           pose proof (remaining_skip_whitespace l). lia.
        -- right. exists c, s. rewrite comment_start_unread, E in Hc.
           repeat split; auto.
           rewrite lexer_skip_whitespace_run, unread_advance_n in E.
           pose proof (run_length_maximal is_space (unread l) eq_refl) as Hm.
           now rewrite E in Hm.
    + left. apply Nat.ltb_ge in Hlt. pose proof (unread_length l) as H.
      unfold remaining in H. destruct (unread l); [reflexivity | simpl in H; lia].
Qed.

(** * Further properties of the lexer *)

(** ** The operator scanner is a longest match *)

Lemma third_is_unread (l : Lexer) (x : ascii) (s : list ascii) :
  unread l = s ->
  third_is l x = match s with
                 | _ :: c2 :: _ => is_char c2 x
                 | _ => false
                 end.
Proof.
  intro E. unfold third_is. destruct s as [|c1 s].
  - apply unread_nil, Nat.leb_le in E.
    replace (pos l + 1 <? input_len l)%nat with false; [reflexivity|].
    symmetry. apply Nat.ltb_ge. lia.
  - destruct (unread_second _ _ _ E) as (-> & ->). now destruct s.
Qed.

(** The operator scanner returns the longest spelling of the table that
    opens the unread bytes, and fails when there is none. *)
Lemma scan_operator_lexeme (l : Lexer) (tok : Token) (c : ascii) (s : list ascii) :
  unread l = c :: s -> is_char c "$" = false ->
  lexer_scan_operator l tok = operator_result l tok c (operator_lexeme (c :: s)).
Proof.
  intros E Hd. unfold lexer_scan_operator. rewrite (unread_peek _ _ _ E).
  destruct (unread_second _ _ _ E) as (-> & ->).
  replace (if match s with [] => false | _ :: _ => true end then hd NUL s else NUL)
    with (hd NUL s) by (now destruct s).
  rewrite !(third_is_unread _ _ _ (unread_advance _ _ _ E)).
  unfold op1, op2, op3, operator_result, operator_lexeme, matching_operators.
  cbv zeta. rewrite Hd. clear E.
  solve_operator.
Qed.

Lemma longest_spec (es : list (string * TokenType)) :
  forall best,
    match longest best es with
    | Some e =>
        (In e es \/ best = Some e)
        /\ (forall e', In e' es \/ best = Some e' ->
                       (String.length (fst e') <= String.length (fst e))%nat)
    | None => es = [] /\ best = None
    end.
Proof.
  induction es as [|e es IH]; intro best.
  - simpl. destruct best as [b|]; [|auto]. split; [now right|].
    intros e' [[]|H]. inversion H. lia.
  - cbn [longest].
    set (best' := match best with
                  | Some b => if (String.length (fst b) <? String.length (fst e))%nat
                              then Some e else best
                  | None => Some e
                  end).
    specialize (IH best').
    assert (Hb : exists b', best' = Some b'
                 /\ (b' = e \/ best = Some b')
                 /\ (String.length (fst e) <= String.length (fst b'))%nat
                 /\ (forall b, best = Some b ->
                       (String.length (fst b) <= String.length (fst b'))%nat)).
    { subst best'. destruct best as [b|].
      - destruct (Nat.ltb_spec (String.length (fst b)) (String.length (fst e))).
        + exists e. repeat split; auto. intros b0 H0. inversion H0; subst. lia.
        + exists b. repeat split; auto. intros b0 H0. inversion H0; subst. lia.
      - exists e. repeat split; auto. discriminate. }
    destruct Hb as (b' & Hb' & Hor & Hle & Hbest).
    destruct (longest best' es) as [r|].
    + destruct IH as (Hin & Hmax). split.
      * destruct Hin as [Hin | Hin]; [left; now right|].
        rewrite Hb' in Hin. inversion Hin; subst r.
        destruct Hor as [-> | Hor]; [left; now left | now right].
      * intros e' [[<- | Hin'] | Hbe].
        -- specialize (Hmax b' (or_intror Hb')). lia.
        -- apply Hmax. now left.
        -- specialize (Hmax b' (or_intror Hb')). specialize (Hbest _ Hbe). lia.
    + destruct IH as (_ & Hn). rewrite Hb' in Hn. discriminate.
Qed.

Lemma matching_operators_In (s : list ascii) (e : string * TokenType) :
  In e (matching_operators s) <-> In e operators /\ is_prefix (cstr (fst e)) s = true.
Proof.
  unfold matching_operators. rewrite in_flat_map. split.
  - intros (x & Hx & Hin). destruct (is_prefix (cstr (fst x)) s) eqn:Hp.
    + destruct Hin as [<- | []]. auto.
    + destruct Hin.
  - intros (Hin & Hp). exists e. rewrite Hp. split; [assumption | now left].
Qed.

Lemma is_prefix_firstn (p s : list ascii) :
  is_prefix p s = true -> firstn (List.length p) s = p.
Proof.
  revert s; induction p as [|a p IH]; intros s H; [reflexivity|].
  destruct s as [|b s]; [discriminate|]. simpl in H.
  apply andb_prop in H. destruct H as (Hc & Hp). apply is_char_true in Hc.
  subst b. simpl. now rewrite (IH s Hp).
Qed.

Lemma cstr_length (w : string) : List.length (cstr w) = String.length w.
Proof. induction w as [|c w IH]; simpl; [reflexivity | now rewrite IH]. Qed.

Lemma cstr_inj (v w : string) : cstr v = cstr w -> v = w.
Proof.
  intro H. unfold cstr in H.
  rewrite <- (string_of_list_ascii_of_string v), <- (string_of_list_ascii_of_string w).
  now rewrite H.
Qed.

Lemma operators_spellings_distinct : NoDup (map fst operators).
Proof.
  assert (H : nodup string_dec (map fst operators) = map fst operators)
    by (vm_compute; reflexivity).
  rewrite <- H. apply NoDup_nodup.
Qed.

Lemma NoDup_fst_functional (A B : Type) (es : list (A * B)) (a : A) (b b' : B) :
  NoDup (map fst es) -> In (a, b) es -> In (a, b') es -> b = b'.
Proof.
  induction es as [|[x y] es IH]; intros Hn H1 H2; [destruct H1|].
  simpl in Hn. inversion Hn as [|? ? Hnotin Hn']; subst.
  destruct H1 as [H1 | H1], H2 as [H2 | H2].
  - congruence.
  - inversion H1; subst. exfalso. apply Hnotin.
    change a with (fst (a, b')). now apply in_map.
  - inversion H2; subst. exfalso. apply Hnotin.
    change a with (fst (a, b)). now apply in_map.
  - now apply IH.
Qed.

(** An operator never opens with a blank, a quote, a digit, a letter or
    [$]. *)
Lemma operators_first_bytes :
  forallb (fun e => let c := hd NUL (cstr (fst e)) in
                    negb (is_space c) && negb (is_quote c) && negb (is_digit c)
                    && negb (is_alpha c) && negb (is_char c "$")
                    && (0 <? String.length (fst e))%nat) operators = true.
Proof. vm_compute. reflexivity. Qed.

Lemma operator_first_byte (sp : string) (k : TokenType) (c : ascii) (s : list ascii) :
  In (sp, k) operators -> is_prefix (cstr sp) (c :: s) = true ->
  is_space c = false /\ is_quote c = false /\ is_digit c = false
  /\ is_alpha c = false /\ is_char c "$" = false.
Proof.
  intros Hin Hp. pose proof operators_first_bytes as H.
  rewrite forallb_forall in H. specialize (H _ Hin). cbv zeta in H.
  cbn [fst] in H. destruct (cstr sp) as [|a p] eqn:Ea.
  - apply (f_equal (@List.length ascii)) in Ea. rewrite cstr_length in Ea.
    simpl in Ea. rewrite Ea in H. cbn [Nat.ltb Nat.leb] in H.
    rewrite andb_false_r in H. discriminate.
  - simpl in Hp. apply andb_prop in Hp. destruct Hp as (Hc & _).
    apply is_char_true in Hc. subst a. cbn [hd] in H.
    repeat (apply andb_prop in H; destruct H as (H & ?)).
    repeat match goal with
           | Hn : negb _ = true |- _ => apply negb_true_iff in Hn
           end.
    auto.
Qed.

Lemma scan_token_operator (l : Lexer) (tok : Token) (c : ascii) (s : list ascii) :
  unread l = c :: s ->
  is_quote c = false -> is_digit c = false -> is_alpha c = false ->
  scan_token l tok = lexer_scan_operator l tok.
Proof.
  intros E Hq Hd Ha. unfold scan_token. rewrite (unread_peek _ _ _ E).
  fold (is_quote c). now rewrite Hq, Hd, Ha.
Qed.

(** X1: longest match.  Where the unread bytes open with a spelling of
    the operator table and no longer spelling of the table opens them
    (and they do not open a comment), the call yields that operator, with
    the spelling as text, and consumes exactly its bytes.  Where no
    spelling of the table opens them, and the first byte is not a blank, a
    quote, a digit, a letter or [$], the call fails with "unexpected
    character" (for [!]: "unexpected character '!'") and consumes one
    byte. *)
Theorem operator_longest_match (l : Lexer) (c : ascii) (s : list ascii) :
  unread l = c :: s ->
  comment_start (c :: s) = false ->
  (forall sp k,
      In (sp, k) operators ->
      is_prefix (cstr sp) (c :: s) = true ->
      (forall sp' k', In (sp', k') operators ->
                      is_prefix (cstr sp') (c :: s) = true ->
                      (String.length sp' <= String.length sp)%nat) ->
      yields (lexer_next_token l) k (cstr sp)
      /\ unread (snd (lexer_next_token l)) = skipn (String.length sp) (c :: s))
  /\ ((forall sp k, In (sp, k) operators -> is_prefix (cstr sp) (c :: s) = false) ->
      is_space c = false -> is_quote c = false -> is_digit c = false ->
      is_alpha c = false -> is_char c "$" = false ->
      fails_with (lexer_next_token l)
        (if is_char c "!" then "unexpected character '!'" else "unexpected character")
      /\ unread (snd (lexer_next_token l)) = s).
Proof.
  intros E Hc. split.
  - intros sp k Hin Hp Hmax.
    destruct (operator_first_byte _ _ _ _ Hin Hp) as (Hs & Hq & Hd & Ha & Hdol).
    rewrite (next_token_scan l _ _ E Hs Hc),
      (scan_token_operator _ _ _ _ E Hq Hd Ha),
      (scan_operator_lexeme _ _ _ _ E Hdol).
    unfold operator_lexeme.
    pose proof (longest_spec (matching_operators (c :: s)) None) as L.
    destruct (longest None (matching_operators (c :: s))) as [[sp1 k1]|].
    + destruct L as ([Hin1 | Hin1] & Hmax1); [|discriminate].
      apply matching_operators_In in Hin1. destruct Hin1 as (Hin1 & Hp1).
      cbn [fst] in Hp1.
      assert (Hlen : String.length sp1 = String.length sp).
      { apply Nat.le_antisymm.
        - exact (Hmax _ _ Hin1 Hp1).
        - apply (Hmax1 (sp, k)). left. apply matching_operators_In. auto. }
      assert (sp1 = sp).
      { apply cstr_inj. rewrite <- (is_prefix_firstn _ _ Hp1), <- (is_prefix_firstn _ _ Hp).
        now rewrite !cstr_length, Hlen. }
      subst sp1.
      assert (k1 = k)
        by (apply (NoDup_fst_functional _ _ _ _ _ _ operators_spellings_distinct Hin1 Hin)).
      subst k1. unfold operator_result, yields. cbn [fst snd]. split.
      * split; [reflexivity|]. eexists. split; [reflexivity|].
        repeat split. cbn [length set_type set_value]. now rewrite cstr_length.
      * change (unread (advance_n (String.length sp) l)
                = skipn (String.length sp) (c :: s)).
        now rewrite unread_advance_n, E.
    + destruct L as (Hnil & _). exfalso.
      assert (Hm : In (sp, k) (matching_operators (c :: s)))
        by (apply matching_operators_In; auto).
      rewrite Hnil in Hm. destruct Hm.
  - intros Hnone Hs Hq Hd Ha Hdol.
    rewrite (next_token_scan l _ _ E Hs Hc),
      (scan_token_operator _ _ _ _ E Hq Hd Ha),
      (scan_operator_lexeme _ _ _ _ E Hdol).
    unfold operator_lexeme.
    pose proof (longest_spec (matching_operators (c :: s)) None) as L.
    destruct (longest None (matching_operators (c :: s))) as [[sp1 k1]|].
    + destruct L as ([Hin1 | Hin1] & _); [|discriminate].
      apply matching_operators_In in Hin1. destruct Hin1 as (Hin1 & Hp1).
      cbn [fst] in Hp1. rewrite (Hnone _ _ Hin1) in Hp1. discriminate.
    + unfold operator_result, fails_with. cbn [fst snd]. repeat split.
      change (unread (advance l) = s). exact (unread_advance _ _ _ E).
Qed.

Lemma operator_longest_match_witness :
  (yields (first_token (cstr "<=>")) TOKEN_LE (cstr "<=")
   /\ unread (snd (first_token (cstr "<=>"))) = cstr ">")
  /\ (fails_with (first_token (cstr "@x")) "unexpected character"
      /\ unread (snd (first_token (cstr "@x"))) = cstr "x").
Proof.
  destruct (operator_longest_match (lexer_create (cstr "<=>")) "<" (cstr "=>")
              eq_refl eq_refl) as (H1 & _).
  destruct (operator_longest_match (lexer_create (cstr "@x")) "@" (cstr "x")
              eq_refl eq_refl) as (_ & H2).
  split.
  - apply (H1 "<="%string TOKEN_LE).
    + vm_compute. tauto.
    + reflexivity.
    + intros sp' k' Hin Hp.
      assert (Hall : forallb (fun e => negb (is_prefix (cstr (fst e)) (cstr "<=>"))
                                       || (String.length (fst e) <=? 2)%nat)
                             operators = true) by (vm_compute; reflexivity).
      rewrite forallb_forall in Hall. specialize (Hall _ Hin). cbn [fst] in Hall.
      change ("<"%char :: cstr "=>") with (cstr "<=>") in Hp.
      rewrite Hp in Hall. simpl in Hall. now apply Nat.leb_le in Hall.
  - apply H2; try reflexivity.
    intros sp k Hin.
    assert (Hall : forallb (fun e => negb (is_prefix (cstr (fst e)) (cstr "@x")))
                           operators = true) by (vm_compute; reflexivity).
    rewrite forallb_forall in Hall. specialize (Hall _ Hin). cbn [fst] in Hall.
    now apply negb_true_iff in Hall.
Defined.

(** ** Where a call leaves the cursor *)

Lemma advance_while_advance_n (p : ascii -> bool) (fuel : nat) :
  forall l, exists k, (k <= List.length (unread l))%nat
                      /\ advance_while p fuel l = advance_n k l.
Proof.
  induction fuel as [|fuel IH]; intro l.
  - exists O. split; [lia | reflexivity].
  - simpl. destruct (unread l) as [|c s] eqn:E.
    + exists O. split; [simpl; lia|].
      apply unread_nil, Nat.leb_le in E.
      replace (pos l <? input_len l)%nat with false; [reflexivity|].
      symmetry. apply Nat.ltb_ge. exact E.
    + rewrite (unread_lt _ _ _ E). simpl.
      destruct (p (lexer_peek l)); [|exists O; split; [simpl; lia | reflexivity]].
      destruct (IH (advance l)) as (k & Hk & ->).
      rewrite (unread_advance _ _ _ E) in Hk.
      exists (S k). split; [simpl; lia | now rewrite advance_n_S].
Qed.

Lemma block_comment_loop_advance_n (fuel : nat) :
  forall l, exists k, (k <= List.length (unread l))%nat
                      /\ block_comment_loop fuel l = advance_n k l.
Proof.
  induction fuel as [|fuel IH]; intro l.
  - exists O. split; [lia | reflexivity].
  - simpl. destruct (pos l + 1 <? input_len l)%nat eqn:Hlt;
      [|exists O; split; [lia | reflexivity]].
    apply Nat.ltb_lt in Hlt.
    assert (Hr : (2 <= List.length (unread l))%nat)
      by (rewrite unread_length; unfold remaining; lia).
    destruct (_ && _).
    + exists 2%nat. split; [exact Hr | reflexivity].
    + destruct (IH (advance l)) as (k & Hk & ->).
      rewrite unread_tl in Hk.
      exists (S k). split; [|now rewrite advance_n_S].
      destruct (unread l); simpl in *; lia.
Qed.

Lemma advance_n_advance_n (j k : nat) (l : Lexer) :
  (k <= List.length (unread (advance_n j l)))%nat ->
  (j <= List.length (unread l))%nat ->
  (j + k <= List.length (unread l))%nat
  /\ advance_n k (advance_n j l) = advance_n (j + k) l.
Proof.
  intros Hk Hj. rewrite unread_advance_n, length_skipn in Hk.
  split; [lia | now rewrite advance_n_add].
Qed.

Lemma lexer_skip_comment_advance_n (l : Lexer) :
  exists k, (k <= List.length (unread l))%nat /\ lexer_skip_comment l = advance_n k l.
Proof.
  unfold lexer_skip_comment.
  assert (H2 : starts_line_comment l || starts_block_comment l = true ->
               (2 <= List.length (unread l))%nat).
  { intro H. pose proof (remaining_skip_comment _ H). rewrite unread_length. lia. }
  destruct (starts_line_comment l) eqn:Hl.
  - specialize (H2 eq_refl).
    destruct (advance_while_advance_n (fun c => negb (c =? newline)%char)
                (remaining (advance (advance l))) (advance (advance l))) as (k & Hk & ->).
    change (advance (advance l)) with (advance_n 2 l) in *.
    destruct (advance_n_advance_n 2 k l Hk H2) as (Hle & ->). eauto.
  - destruct (starts_block_comment l) eqn:Hb.
    + specialize (H2 eq_refl).
      destruct (block_comment_loop_advance_n
                  (remaining (advance (advance l))) (advance (advance l))) as (k & Hk & ->).
      change (advance (advance l)) with (advance_n 2 l) in *.
      destruct (advance_n_advance_n 2 k l Hk H2) as (Hle & ->). eauto.
    + exists O. split; [lia | reflexivity].
Qed.

(** The skip loop only advances. *)
Lemma skip_loop_advance_n (fuel : nat) :
  forall l, exists k, (k <= List.length (unread l))%nat
                      /\ skip_loop fuel l = advance_n k l.
Proof.
  induction fuel as [|fuel IH]; intro l.
  - exists O. split; [lia | reflexivity].
  - simpl. destruct (pos l <? input_len l)%nat; [|exists O; split; [lia | reflexivity]].
    destruct (advance_while_advance_n is_space (remaining l) l) as (j & Hj & Hw).
    unfold lexer_skip_whitespace. rewrite Hw.
    destruct (_ <=? _)%nat; [eauto|].
    destruct (_ || _); [|eauto].
    destruct (lexer_skip_comment_advance_n (advance_n j l)) as (k & Hk & ->).
    destruct (IH (advance_n k (advance_n j l))) as (m & Hm & ->).
    destruct (advance_n_advance_n j k l Hk Hj) as (Hjk & Ejk). rewrite Ejk in *.
    destruct (advance_n_advance_n (j + k) m l Hm Hjk) as (Hjkm & ->). eauto.
Qed.

Lemma number_lexeme_ge (c : ascii) (s : list ascii) (fl : bool) (n : nat) :
  is_digit c = true -> number_lexeme (c :: s) = Some (fl, n) -> (1 <= n)%nat.
Proof.
  intros Hd. unfold number_lexeme.
  assert (Hm : (1 <= mantissa_len (c :: s))%nat)
    by (unfold mantissa_len; simpl; rewrite Hd; lia).
  destruct (exponent_of (c :: s)); intro H; inversion H; subst; lia.
Qed.

(** Every scanner leaves the lexer at least one byte further and within
    the unread bytes, with one of the five messages when it fails. *)
Lemma scan_token_end (l : Lexer) (tok : Token) (c : ascii) (s : list ascii) :
  unread l = c :: s ->
  exists k err tok',
    scan_token l tok = (match err with None => true | Some _ => false end,
                        scan_end l k err, tok')
    /\ (1 <= k <= S (List.length s))%nat
    /\ match err with Some m => In m lexer_messages | None => True end.
Proof.
  intro E. unfold scan_token. rewrite (unread_peek _ _ _ E). fold (is_quote c).
  destruct (is_quote c).
  { rewrite (scan_string_end _ _ _ _ E).
    destruct (string_end c s) as [n|] eqn:En.
    - pose proof (string_end_lt _ _ _ En).
      exists (S (S n)), None. eexists. split; [reflexivity|]. split; [lia | exact I].
    - exists (S (List.length s)), (Some "unterminated string literal"%string).
      eexists. split; [reflexivity|]. split; [lia | simpl; tauto]. }
  destruct (is_digit c) eqn:Hd.
  { rewrite scan_number_lexeme, E.
    destruct (number_lexeme (c :: s)) as [[fl n]|] eqn:En.
    - pose proof (number_lexeme_ge _ _ _ _ Hd En).
      pose proof (number_lexeme_le _ _ _ En). simpl in *.
      exists n, None. eexists. split; [reflexivity|]. split; [lia | exact I].
    - cbv zeta.
      set (m := mantissa_len (c :: s)).
      assert (Hml : (m <= List.length (unread l))%nat)
        by (rewrite E; apply mantissa_len_le).
      assert (Hm1 : (1 <= m)%nat)
        by (unfold m, mantissa_len; simpl; rewrite Hd; lia).
      assert (Hu : unread (advance_n m l) = skipn m (c :: s))
        by (now rewrite unread_advance_n, E).
      unfold number_lexeme, exponent_of, exp_part in En. fold m in En.
      destruct (skipn m (c :: s)) as [|e s1] eqn:Es; [discriminate|].
      pose proof (firstn_skipn m (c :: s)) as Hfs. rewrite Es in Hfs.
      apply (f_equal (@List.length ascii)) in Hfs.
      rewrite length_app, length_firstn in Hfs. simpl in Hfs.
      rewrite (unread_advance _ _ _ Hu).
      pose proof (sign_len_le s1).
      exists (m + 1 + sign_len s1)%nat, (Some "invalid number format"%string).
      eexists. split.
      + unfold scan_end. rewrite !advance_n_add. reflexivity.
      + split; [rewrite E in Hml; simpl in Hml; lia | simpl; tauto]. }
  destruct (is_alpha c) eqn:Ha.
  { rewrite (scan_identifier_run _ _ _ _ E Ha). cbv zeta.
    pose proof (run_length_le is_alnum s).
    exists (S (run_length is_alnum s)), None. eexists.
    split; [reflexivity|]. split; [lia | exact I]. }
  destruct (is_char c "$") eqn:Hdol.
  { apply is_char_true in Hdol. subst c. rewrite (scan_operator_param _ _ _ E).
    destruct (is_digit (hd NUL s)).
    - cbv zeta. pose proof (run_length_le is_digit s).
      exists (S (run_length is_digit s)), None. eexists.
      split; [reflexivity|]. split; [lia | exact I].
    - exists 1%nat, (Some "invalid parameter marker"%string). eexists.
      split; [reflexivity|]. split; [lia | simpl; tauto]. }
  rewrite (scan_operator_lexeme _ _ _ _ E Hdol). unfold operator_lexeme.
  pose proof (longest_spec (matching_operators (c :: s)) None) as L.
  destruct (longest None (matching_operators (c :: s))) as [[sp k]|].
  - destruct L as ([Hin | Hin] & _); [|discriminate].
    apply matching_operators_In in Hin. destruct Hin as (Hin & Hp). cbn [fst] in Hp.
    pose proof operators_first_bytes as Hf. rewrite forallb_forall in Hf.
    specialize (Hf _ Hin). cbv zeta in Hf. apply andb_prop in Hf.
    destruct Hf as (_ & Hf). apply Nat.ltb_lt in Hf. cbn [fst] in Hf.
    pose proof (is_prefix_firstn _ _ Hp) as Hfi.
    apply (f_equal (@List.length ascii)) in Hfi.
    rewrite length_firstn, !cstr_length in Hfi. simpl in Hfi.
    exists (String.length sp), None. eexists.
    split; [reflexivity|]. split; [lia | exact I].
  - unfold operator_result.
    exists 1%nat. eexists (Some _). eexists.
    split; [reflexivity|]. split; [lia|].
    destruct (is_char c "!"); simpl; tauto.
Qed.

(** A call, whatever its outcome: the cursor has advanced by [k] bytes
    within the unread bytes, at least one unless the input was at its end;
    a failure has set one of the five messages, a success has left the
    message as it was. *)
Lemma next_token_end (l : Lexer) :
  exists k err tok',
    lexer_next_token l
    = (match err with None => true | Some _ => false end,
       set_current (scan_end l k err) tok'
                   (match err with None => true | Some _ => false end))
    /\ (k <= List.length (unread l))%nat
    /\ (unread l <> [] -> (1 <= k)%nat)
    /\ match err with Some m => In m lexer_messages | None => True end.
Proof.
  destruct (skip_loop_advance_n (remaining l) l) as (j & Hj & Hs).
  destruct (next_token_cases l) as [(E & ->) | (c & s & E & ->)]; rewrite Hs in *.
  - exists j, None. eexists. split; [reflexivity|]. split; [exact Hj|].
    split; [|exact I]. intro Hne. rewrite unread_advance_n in E.
    destruct j; [simpl in E; contradiction | lia].
  - destruct (scan_token_end (advance_n j l)
                (set_location (release_current l) (here (advance_n j l))) c s E)
      as (k & err & tok' & -> & Hk & Hm).
    assert (Hjk : (j + k <= List.length (unread l))%nat).
    { rewrite unread_advance_n in E. apply (f_equal (@List.length ascii)) in E.
      rewrite length_skipn in E. simpl in E. lia. }
    exists (j + k)%nat, err, tok'. split.
    + unfold scan_end. rewrite advance_n_add. reflexivity.
    + split; [exact Hjk|]. split; [intros _; lia | exact Hm].
Qed.

Lemma scan_end_fields (l : Lexer) (k : nat) (err : option string) :
  input (scan_end l k err) = input l
  /\ pos (scan_end l k err) = pos (advance_n k l)
  /\ line (scan_end l k err) = line (advance_n k l)
  /\ column (scan_end l k err) = column (advance_n k l)
  /\ unread (scan_end l k err) = skipn k (unread l)
  /\ lexer_error (scan_end l k err)
     = match err with Some m => Some m | None => lexer_error l end.
Proof.
  destruct (advance_n_fields k l) as (Hi & _ & _ & He).
  destruct err as [m|]; unfold scan_end, lexer_error; simpl;
    repeat split; auto; try apply unread_advance_n.
Qed.

(** X2: a call never moves the cursor backwards or past the end of the
    input and never changes the input; unless the cursor already is at
    the end, the call consumes at least one byte, whether it succeeds or
    fails. *)
Theorem next_token_advances (l : Lexer) :
  let l' := snd (lexer_next_token l) in
  input l' = input l
  /\ (pos l <= pos l')%nat
  /\ ((pos l <= input_len l)%nat -> (pos l' <= input_len l)%nat)
  /\ ((pos l < input_len l)%nat -> (pos l < pos l')%nat)
  /\ unread l' = skipn (pos l' - pos l) (unread l).
Proof.
  cbv zeta. destruct (next_token_end l) as (k & err & tok' & -> & Hk & H1 & _).
  cbn [snd]. destruct (scan_end_fields l k err) as (Hi & Hp & _ & _ & Hu & _).
  change (input (set_current ?a ?b ?c)) with (input a).
  change (pos (set_current ?a ?b ?c)) with (pos a).
  change (unread (set_current ?a ?b ?c)) with (unread a).
  rewrite Hi, Hp, Hu, (pos_advance_n _ _ Hk).
  pose proof (unread_length l) as Hl. unfold remaining in Hl.
  repeat split; try lia.
  - intro Hlt. assert (Hne : unread l <> []).
    { intro Hn. rewrite Hn in Hl. simpl in Hl. lia. }
    specialize (H1 Hne). lia.
  - f_equal. lia.
Qed.

Lemma next_token_advances_witness :
  (pos (lexer_create (cstr "a @")) < pos (snd (first_token (cstr "a @"))))%nat
  /\ (pos (snd (first_token (cstr "a @")))
      < pos (snd (lexer_next_token (snd (first_token (cstr "a @"))))))%nat
  /\ fst (lexer_next_token (snd (first_token (cstr "a @")))) = false.
Proof.
  pose proof (next_token_advances (lexer_create (cstr "a @"))) as (_ & _ & _ & H1 & _).
  pose proof (next_token_advances (snd (first_token (cstr "a @"))))
    as (_ & _ & _ & H2 & _).
  split; [apply H1; vm_compute; lia|].
  split; [apply H2; vm_compute; lia | reflexivity].
Defined.

(** X3: a failing call sets the error message to one of five texts
    ("unterminated string literal", "invalid number format", "unexpected
    character '!'", "invalid parameter marker", "unexpected character")
    and leaves no current token; the message "invalid identifier" of the
    identifier scanner is never set through [lexer_next_token]. *)
Theorem failing_call_sets_message (l l' : Lexer) :
  lexer_next_token l = (false, l') ->
  exists m, lexer_error l' = Some m /\ In m lexer_messages
            /\ m <> "invalid identifier"%string
            /\ lexer_current_token l' = None.
Proof.
  intro H. destruct (next_token_end l) as (k & err & tok' & Hn & _ & _ & Hm).
  rewrite Hn in H. destruct err as [m|]; [|discriminate].
  inversion H; subst l'; clear H. exists m. repeat split; auto.
  intros ->. vm_compute in Hm. intuition discriminate.
Qed.

Lemma failing_call_sets_message_witness :
  exists m, lexer_error (snd (first_token (cstr "'abc"))) = Some m
            /\ In m lexer_messages.
Proof.
  destruct (failing_call_sets_message (lexer_create (cstr "'abc"))
              (snd (first_token (cstr "'abc"))) eq_refl) as (m & H1 & H2 & _).
  exists m. auto.
Defined.

(** X4: a successful call leaves the error message as it was: the
    message of an earlier failure stays readable through [lexer_error]
    after later successful calls, and is only replaced by the next
    failure. *)
Theorem successful_call_keeps_message (l l' : Lexer) :
  lexer_next_token l = (true, l') -> lexer_error l' = lexer_error l.
Proof.
  intro H. destruct (next_token_end l) as (k & err & tok' & Hn & _ & _ & _).
  rewrite Hn in H. destruct err as [m|]; [discriminate|].
  inversion H; subst l'; clear H.
  destruct (scan_end_fields l k None) as (_ & _ & _ & _ & _ & He). exact He.
Qed.

Lemma successful_call_keeps_message_witness :
  let l1 := snd (first_token (cstr "@ x")) in
  fst (first_token (cstr "@ x")) = false
  /\ fst (lexer_next_token l1) = true
  /\ lexer_error (snd (lexer_next_token l1)) = Some "unexpected character"%string.
Proof.
  cbv zeta. split; [reflexivity|]. split; [reflexivity|].
  rewrite (successful_call_keeps_message (snd (first_token (cstr "@ x")))
             (snd (lexer_next_token (snd (first_token (cstr "@ x"))))) eq_refl).
  reflexivity.
Defined.

(** ** Line and column *)




Lemma input_len_advance_n (n : nat) (l : Lexer) :
  input_len (advance_n n l) = input_len l.
Proof. unfold input_len. now rewrite input_advance_n. Qed.





Lemma next_token_input_pos (l : Lexer) :
  input (snd (lexer_next_token l)) = input l
  /\ (pos l <= pos (snd (lexer_next_token l)))%nat.
Proof.
  destruct (next_token_end l) as (k & err & tok' & -> & Hk & _).
  cbn [snd]. destruct (scan_end_fields l k err) as (Hi & Hp & _).
  change (input (set_current ?a ?b ?c)) with (input a).
  change (pos (set_current ?a ?b ?c)) with (pos a).
  rewrite Hi, Hp, (pos_advance_n _ _ Hk). split; [reflexivity | lia].
Qed.

Lemma has_current_next_token (l : Lexer) :
  has_current (snd (lexer_next_token l)) = fst (lexer_next_token l).
Proof.
  destruct (next_token_end l) as (k & err & tok' & -> & _). reflexivity.
Qed.



(** ** Blanks and comments are passed over *)

Lemma run_length_stop (p : ascii -> bool) (a rest : list ascii) :
  forallb p a = true -> p (hd NUL rest) = false ->
  run_length p (a ++ rest) = List.length a.
Proof.
  intros Ha Hr. induction a as [|c a IH]; simpl in *.
  - destruct rest as [|r rest]; [reflexivity|]. simpl in *. now rewrite Hr.
  - apply andb_prop in Ha. destruct Ha as (Hc & Ha). rewrite Hc. now rewrite IH.
Qed.

Lemma block_comment_loop_terminated (body : list ascii) :
  forall (fuel : nat) (l : Lexer) (rest : list ascii),
    unread l = body ++ "*"%char :: "/"%char :: rest ->
    has_terminator body = false ->
    (List.length body < fuel)%nat ->
    block_comment_loop fuel l = advance_n (List.length body + 2) l.
Proof.
  induction body as [|b body IH]; intros fuel l rest E Ht Hf.
  - destruct fuel as [|fuel]; [lia|]. simpl in E. cbn [block_comment_loop].
    rewrite (unread_peek _ _ _ E).
    destruct (unread_second _ _ _ E) as (-> & ->). reflexivity.
  - destruct fuel as [|fuel]; [lia|].
    change ((b :: body) ++ "*"%char :: "/"%char :: rest)
      with (b :: (body ++ "*"%char :: "/"%char :: rest)) in E.
    cbn [block_comment_loop]. rewrite (unread_peek _ _ _ E).
    destruct (unread_second _ _ _ E) as (-> & ->).
    cbn [has_terminator] in Ht. apply orb_false_elim in Ht. destruct Ht as (Ht1 & Ht2).
    replace (match body ++ "*"%char :: "/"%char :: rest with
             | [] => false | _ :: _ => true end) with true by (now destruct body).
    replace ((b =? "*")%char && (hd NUL (body ++ "*"%char :: "/"%char :: rest) =? "/")%char)
      with false.
    2:{ destruct body as [|b' body]; [simpl; now rewrite andb_false_r | exact (eq_sym Ht1)]. }
    change (List.length (b :: body) + 2)%nat with (S (List.length body + 2)).
    rewrite advance_n_S.
    apply (IH fuel (advance l) rest (unread_advance _ _ _ E) Ht2).
    simpl in Hf. lia.
Qed.

Lemma skip_whitespace_token (l : Lexer) (c : ascii) (s : list ascii) :
  unread l = c :: s -> is_space c = false -> lexer_skip_whitespace l = l.
Proof.
  intros E Hs. rewrite lexer_skip_whitespace_run, E. simpl. now rewrite Hs.
Qed.

(** One turn of the skip loop over a comment. *)
Lemma skip_loop_comment (fuel : nat) (l : Lexer) (c : ascii) (s : list ascii) :
  unread l = c :: s -> is_space c = false -> comment_start (c :: s) = true ->
  skip_loop (S fuel) l = skip_loop fuel (lexer_skip_comment l).
Proof.
  intros E Hs Hc. cbn [skip_loop].
  rewrite (unread_lt _ _ _ E), (skip_whitespace_token _ _ _ E Hs),
    (unread_not_end _ _ _ E), comment_start_unread, E, Hc.
  reflexivity.
Qed.

(** The skip loop over a blank. *)
Lemma skip_loop_blank (fuel : nat) (l : Lexer) (c : ascii) (s : list ascii) :
  unread l = c :: s -> is_space c = true ->
  skip_loop (S fuel) l = skip_loop (S fuel) (advance l).
Proof.
  intros E Hs. pose proof (unread_advance _ _ _ E) as E1.
  assert (Hw : lexer_skip_whitespace l = lexer_skip_whitespace (advance l)).
  { rewrite !lexer_skip_whitespace_run, E, E1. simpl. rewrite Hs.
    apply advance_n_S. }
  cbn [skip_loop]. rewrite (unread_lt _ _ _ E), Hw.
  destruct s as [|c1 s].
  - pose proof (unread_nil _ E1) as Hend.
    replace (pos (advance l) <? input_len (advance l))%nat with false
      by (symmetry; apply Nat.ltb_ge, Nat.leb_le; exact Hend).
    assert (H0 : lexer_skip_whitespace (advance l) = advance l)
      by (rewrite lexer_skip_whitespace_run, E1; reflexivity).
    rewrite H0, Hend. reflexivity.
  - now rewrite (unread_lt _ _ _ E1).
Qed.

Lemma line_comment_skipped (l : Lexer) (body rest : list ascii) :
  unread l = "-"%char :: "-"%char :: body ++ rest ->
  forallb not_newline body = true ->
  not_newline (hd NUL rest) = false \/ rest = [] ->
  lexer_skip_comment l = advance_n (2 + List.length body) l.
Proof.
  intros E Hb Hr. unfold lexer_skip_comment.
  assert (Hl : starts_line_comment l = true).
  { unfold starts_line_comment. rewrite (unread_peek _ _ _ E).
    now destruct (unread_second _ _ _ E) as (-> & ->). }
  rewrite Hl. pose proof (unread_advance _ _ _ (unread_advance _ _ _ E)) as E2.
  rewrite advance_while_run by (rewrite <- unread_length; apply run_length_le).
  rewrite E2. change (fun c : ascii => negb (c =? newline)%char) with not_newline.
  assert (Hrun : run_length not_newline (body ++ rest) = List.length body).
  { destruct Hr as [Hr | ->].
    - now apply run_length_stop.
    - rewrite app_nil_r. clear E E2. induction body as [|b body IH]; [reflexivity|].
      simpl in *. apply andb_prop in Hb. destruct Hb as (-> & Hb). now rewrite IH. }
  rewrite Hrun. change (advance (advance l)) with (advance_n 2 l).
  now rewrite <- advance_n_add.
Qed.

Lemma block_comment_skipped (l : Lexer) (body rest : list ascii) :
  unread l = "/"%char :: "*"%char :: body ++ "*"%char :: "/"%char :: rest ->
  has_terminator body = false ->
  lexer_skip_comment l = advance_n (2 + (List.length body + 2)) l.
Proof.
  intros E Ht. unfold lexer_skip_comment.
  assert (Hl : starts_line_comment l = false).
  { unfold starts_line_comment. now rewrite (unread_peek _ _ _ E). }
  assert (Hb : starts_block_comment l = true).
  { unfold starts_block_comment. rewrite (unread_peek _ _ _ E).
    now destruct (unread_second _ _ _ E) as (-> & ->). }
  rewrite Hl, Hb.
  pose proof (unread_advance _ _ _ (unread_advance _ _ _ E)) as E2.
  rewrite (block_comment_loop_terminated body _ _ rest E2 Ht).
  - change (advance (advance l)) with (advance_n 2 l). now rewrite <- advance_n_add.
  - rewrite <- unread_length, E2, length_app. simpl. lia.
Qed.

Lemma remaining_advance_n (k : nat) (l : Lexer) :
  remaining (advance_n k l) = (remaining l - k)%nat.
Proof.
  rewrite <- !unread_length, unread_advance_n. apply length_skipn.
Qed.

(** The skip loop passes over any sequence of blanks and comments. *)
Lemma skip_loop_trivia (pre : list Trivia) :
  forall (fuel : nat) (l : Lexer) (tail : list ascii),
    forallb trivia_ok pre = true ->
    unread l = flat_map render_trivia pre ++ tail ->
    (remaining l <= fuel)%nat ->
    skip_loop fuel l
    = skip_loop fuel (advance_n (List.length (flat_map render_trivia pre)) l).
Proof.
  induction pre as [|t pre IH]; intros fuel l tail Hok E Hf; [reflexivity|].
  simpl in Hok. apply andb_prop in Hok. destruct Hok as (Ht & Hok).
  cbn [flat_map] in *. rewrite <- app_assoc in E. rewrite length_app, advance_n_add.
  assert (Hlen : (List.length (render_trivia t) <= remaining l)%nat).
  { rewrite <- unread_length, E, length_app. lia. }
  assert (Hnext : unread (advance_n (List.length (render_trivia t)) l)
                  = flat_map render_trivia pre ++ tail).
  { rewrite unread_advance_n, E. apply skipn_prefix. }
  assert (Hrem : (remaining (advance_n (List.length (render_trivia t)) l)
                  <= fuel - List.length (render_trivia t))%nat)
    by (rewrite remaining_advance_n; lia).
  destruct t as [c | body | body]; cbn [render_trivia trivia_ok] in *.
  - destruct fuel as [|fuel]; [simpl in Hlen; lia|].
    simpl in E. rewrite (skip_loop_blank _ _ _ _ E Ht).
    apply (IH (S fuel) (advance l) tail Hok Hnext). simpl in Hrem. lia.
  - destruct fuel as [|fuel]; [simpl in Hlen; lia|].
    cbn [app] in E. rewrite <- app_assoc in E.
    rewrite (skip_loop_comment _ _ _ _ E eq_refl eq_refl).
    rewrite (line_comment_skipped l body _ E Ht (or_introl eq_refl)).
    set (l2 := advance_n (2 + List.length body) l).
    assert (E2 : unread l2 = newline :: (flat_map render_trivia pre ++ tail)).
    { unfold l2. rewrite unread_advance_n, E.
      change ("-"%char :: "-"%char :: body ++ [newline] ++ flat_map render_trivia pre ++ tail)
        with (("-"%char :: "-"%char :: body)
              ++ [newline] ++ flat_map render_trivia pre ++ tail).
      apply (skipn_prefix ("-"%char :: "-"%char :: body)). }
    assert (Hl2 : advance_n (List.length ("-"%char :: "-"%char :: body ++ [newline])) l
                  = advance l2).
    { unfold l2. change (advance ?x) with (advance_n 1 x). rewrite <- advance_n_add.
      f_equal. simpl. rewrite length_app. simpl. lia. }
    rewrite Hl2 in *.
    assert (Hr2 : remaining l2 = (remaining l - (2 + List.length body))%nat)
      by apply remaining_advance_n.
    simpl in Hlen. rewrite length_app in Hlen. simpl in Hlen.
    destruct fuel as [|fuel]; [lia|].
    rewrite (skip_loop_blank _ _ _ _ E2 eq_refl).
    rewrite (skip_loop_fuel (S fuel) (S (S fuel)) (advance l2)) at 1;
      [| rewrite remaining_advance; lia | rewrite remaining_advance; lia].
    apply (IH (S (S fuel)) (advance l2) tail Hok Hnext).
    rewrite remaining_advance. lia.
  - destruct fuel as [|fuel]; [simpl in Hlen; lia|].
    cbn [app] in E. rewrite <- app_assoc in E. cbn [app] in E.
    rewrite (skip_loop_comment _ _ _ _ E eq_refl eq_refl).
    apply negb_true_iff in Ht.
    rewrite (block_comment_skipped l body _ E Ht).
    assert (Hl2 : advance_n (List.length ("/"%char :: "*"%char :: body ++ ["*"%char; "/"%char])) l
                  = advance_n (2 + (List.length body + 2)) l).
    { f_equal. simpl. rewrite length_app. simpl. lia. }
    rewrite Hl2 in *.
    rewrite (skip_loop_fuel fuel (S fuel) (advance_n (2 + (List.length body + 2)) l)) at 1.
    + apply (IH (S fuel) _ tail Hok Hnext). rewrite remaining_advance_n. lia.
    + rewrite remaining_advance_n. simpl in Hlen. rewrite length_app in Hlen.
      simpl in Hlen. lia.
    + rewrite remaining_advance_n. lia.
Qed.

(** X6: blanks and comments before a token are insignificant.  When the
    unread bytes open with any sequence of blanks, line comments ended by
    a newline and terminated block comments, the call returns exactly what
    it returns from the state in which the cursor has been advanced past
    that sequence. *)
Theorem trivia_is_insignificant (l : Lexer) (pre : list Trivia) (tail : list ascii) :
  forallb trivia_ok pre = true ->
  unread l = flat_map render_trivia pre ++ tail ->
  lexer_next_token l
  = lexer_next_token (advance_n (List.length (flat_map render_trivia pre)) l).
Proof.
  intros Hok E.
  set (n := List.length (flat_map render_trivia pre)).
  assert (Hrel : release_current (advance_n n l) = release_current l).
  { unfold release_current. now destruct (advance_n_fields n l) as (_ & -> & -> & _). }
  assert (Hskip : skip_loop (remaining (advance_n n l)) (advance_n n l)
                  = skip_loop (remaining l) l).
  { rewrite (skip_loop_trivia pre (remaining l) l tail Hok E (Nat.le_refl _)).
    fold n. apply skip_loop_fuel; rewrite remaining_advance_n; lia. }
  unfold lexer_next_token. now rewrite Hrel, Hskip.
Qed.

Lemma trivia_is_insignificant_witness :
  let inp := cstr "  -- c" ++ newline :: cstr "/* x */ <> y" in
  lexer_next_token (lexer_create inp) = lexer_next_token (advance_n 15 (lexer_create inp))
  /\ yields (first_token inp) TOKEN_NE (cstr "<>").
Proof.
  cbv zeta. split.
  - exact (trivia_is_insignificant
             (lexer_create (cstr "  -- c" ++ newline :: cstr "/* x */ <> y"))
             [Blank " "; Blank " "; LineComment (cstr " c");
              BlockComment (cstr " x "); Blank " "]
             (cstr "<> y") eq_refl eq_refl).
  - split; [vm_compute; reflexivity|]. eexists.
    split; [vm_compute; reflexivity|]. repeat split.
Defined.

(** X7: the comment skipper consumes a line comment up to, but not
    including, the newline that ends it (or up to the end of the input),
    and a block comment through the first [*/] after its opener. *)
Theorem skip_comment_extent (l : Lexer) (body rest : list ascii) :
  (unread l = "-"%char :: "-"%char :: body ++ rest ->
   forallb not_newline body = true ->
   hd_error rest = Some newline \/ rest = [] ->
   unread (lexer_skip_comment l) = rest)
  /\ (unread l = "/"%char :: "*"%char :: body ++ "*"%char :: "/"%char :: rest ->
      has_terminator body = false ->
      unread (lexer_skip_comment l) = rest).
Proof.
  split.
  - intros E Hb Hr.
    rewrite (line_comment_skipped l body rest E Hb).
    + rewrite unread_advance_n, E.
      apply (skipn_prefix ("-"%char :: "-"%char :: body) rest).
    + destruct Hr as [Hr | Hr]; [left | now right].
      destruct rest as [|r rest]; [discriminate|]. simpl in Hr. inversion Hr.
      reflexivity.
  - intros E Ht. rewrite (block_comment_skipped l body rest E Ht).
    rewrite unread_advance_n, E.
    replace ("/"%char :: "*"%char :: body ++ "*"%char :: "/"%char :: rest)
      with (("/"%char :: "*"%char :: body ++ ["*"%char; "/"%char]) ++ rest)
      by (simpl; now rewrite <- app_assoc).
    replace (2 + (List.length body + 2))%nat
      with (List.length ("/"%char :: "*"%char :: body ++ ["*"%char; "/"%char]))
      by (simpl; rewrite length_app; simpl; lia).
    apply skipn_prefix.
Qed.

Lemma skip_comment_extent_witness :
  unread (lexer_skip_comment (lexer_create (cstr "-- hi" ++ newline :: cstr "x")))
  = newline :: cstr "x"
  /\ unread (lexer_skip_comment (lexer_create (cstr "/* a*b */x"))) = cstr "x".
Proof.
  split.
  - exact (proj1 (skip_comment_extent
                    (lexer_create (cstr "-- hi" ++ newline :: cstr "x"))
                    (cstr " hi") (newline :: cstr "x"))
                 eq_refl eq_refl (or_introl eq_refl)).
  - exact (proj2 (skip_comment_extent (lexer_create (cstr "/* a*b */x"))
                    (cstr " a*b ") (cstr "x"))
                 eq_refl eq_refl).
Defined.

(** ** Unterminated strings *)

(** X8: a string literal that is never closed, whether the input ends
    after well-formed content or after a lone backslash, makes the call
    fail with "unterminated string literal", all of the input being
    consumed. *)
Theorem unterminated_string_fails (l : Lexer) (q : ascii)
    (body : list BodyItem) (tail : list ascii) :
  is_quote q = true ->
  forallb (item_ok q) body = true ->
  tail = [] \/ tail = [backslash] ->
  unread l = q :: render q body ++ tail ->
  fails_with (lexer_next_token l) "unterminated string literal"
  /\ unread (snd (lexer_next_token l)) = [].
Proof.
  intros Hq Hb Ht E.
  assert (Hs : is_space q = false /\ comment_start (q :: render q body ++ tail) = false).
  { destruct (is_quote_cases q Hq) as [-> | ->];
      (split; [reflexivity | now destruct (render _ body ++ tail)]). }
  destruct Hs as (Hs & Hc).
  rewrite (next_token_scan l _ _ E Hs Hc). unfold scan_token.
  rewrite (unread_peek _ _ _ E). fold (is_quote q). rewrite Hq.
  rewrite (scan_string_end _ _ _ _ E), (string_end_render _ _ _ Hq Hb).
  assert (Hn : string_end q tail = None).
  { destruct Ht as [-> | ->]; [reflexivity|]. cbn [string_end].
    destruct (is_quote_cases q Hq) as [-> | ->]; reflexivity. }
  rewrite Hn. cbn [option_map]. unfold fails_with. cbn [fst snd].
  repeat split.
  change (unread (advance_n (S (List.length (render q body ++ tail))) l) = []).
  rewrite unread_advance_n, E. apply skipn_all.
Qed.

Lemma unterminated_string_fails_witness :
  fails_with (first_token (cstr "'it''s")) "unterminated string literal"
  /\ unread (snd (first_token (cstr "'it''s"))) = [].
Proof.
  exact (unterminated_string_fails (lexer_create (cstr "'it''s")) squote
           [Plain "i"; Plain "t"; Doubled; Plain "s"] []
           eq_refl eq_refl (or_introl eq_refl) eq_refl).
Defined.

(** ** Identifiers and keywords *)

Lemma alpha_starts_token (c : ascii) (s : list ascii) :
  is_alpha c = true ->
  is_space c = false /\ is_quote c = false /\ is_digit c = false
  /\ comment_start (c :: s) = false.
Proof.
  intro H. destruct c as [[] [] [] [] [] [] [] []]; try discriminate H;
    (repeat split; try reflexivity; now destruct s).
Qed.

Lemma digit_starts_token (c : ascii) (s : list ascii) :
  is_digit c = true ->
  is_space c = false /\ is_quote c = false /\ comment_start (c :: s) = false.
Proof.
  intro H. destruct c as [[] [] [] [] [] [] [] []]; try discriminate H;
    (repeat split; try reflexivity; now destruct s).
Qed.

(** X9: at a letter or underscore the call always succeeds; the token
    text is that byte and the longest run of letters, digits and
    underscores after it, the byte after the token is none of these, and
    the kind is what [lookup_keyword] gives for the text. *)
Theorem identifier_token (l : Lexer) (c : ascii) (s : list ascii) :
  unread l = c :: s -> is_alpha c = true ->
  let n := run_length is_alnum s in
  let v := c :: firstn n s in
  yields (lexer_next_token l) (lookup_keyword v (List.length v)) v
  /\ forallb is_alnum v = true
  /\ unread (snd (lexer_next_token l)) = skipn n s
  /\ (is_alnum (hd NUL (skipn n s)) = false).
Proof.
  intros E Ha. cbv zeta.
  destruct (alpha_starts_token c s Ha) as (Hs & Hq & Hd & Hc).
  rewrite (next_token_scan l _ _ E Hs Hc). unfold scan_token.
  rewrite (unread_peek _ _ _ E). fold (is_quote c). rewrite Hq, Hd, Ha.
  rewrite (scan_identifier_run _ _ _ _ E Ha). cbv zeta.
  pose proof (run_length_le is_alnum s) as Hn.
  assert (Hlen : List.length (c :: firstn (run_length is_alnum s) s)
                 = S (run_length is_alnum s))
    by (simpl; rewrite length_firstn; lia).
  unfold yields. cbn [fst snd]. repeat split.
  - eexists. split; [reflexivity|].
    cbn [type value length set_type set_value firstn]. rewrite Hlen. auto.
  - simpl. unfold is_alnum at 1. rewrite Ha. simpl. apply run_length_all.
  - change (unread (advance_n (S (run_length is_alnum s)) l)
            = skipn (run_length is_alnum s) s).
    now rewrite unread_advance_n, E.
  - now apply run_length_maximal.
Qed.

Lemma identifier_token_witness :
  yields (first_token (cstr "user_id2+1")) TOKEN_IDENT (cstr "user_id2")
  /\ unread (snd (first_token (cstr "user_id2+1"))) = cstr "+1".
Proof.
  destruct (identifier_token (lexer_create (cstr "user_id2+1")) "u" (cstr "ser_id2+1")
              eq_refl eq_refl) as (H1 & _ & H2 & _).
  split; [exact H1 | exact H2].
Defined.

Lemma lookup_spellings_table :
  map lookup_spelling keywords
  = map (fun e => if is_missed (name e) then TOKEN_IDENT else token e) keywords.
Proof. vm_compute. reflexivity. Qed.

Lemma map_eq_In (A B : Type) (f g : A -> B) (xs : list A) (x : A) :
  map f xs = map g xs -> In x xs -> f x = g x.
Proof.
  induction xs as [|y xs IH]; intros H Hin; [destruct Hin|].
  simpl in H. inversion H. destruct Hin as [-> | Hin]; auto.
Qed.

(** X10: what the keyword lookup returns for a candidate without a zero
    byte.  For a case variant of a table spelling it is the kind of that
    entry, except for the eight spellings [as], [char], [in], [no], [on],
    [or], [over], [time], for which it is [TOKEN_IDENT]; for a candidate
    that is a case variant of no table spelling it is [TOKEN_IDENT]. *)
Theorem keyword_lookup_result (v : list ascii) :
  strlen v = List.length v ->
  (forall e, In e keywords -> case_variant v (name e) ->
             lookup_keyword v (List.length v)
             = if is_missed (name e) then TOKEN_IDENT else token e)
  /\ ((forall e, In e keywords -> ~ case_variant v (name e)) ->
      lookup_keyword v (List.length v) = TOKEN_IDENT).
Proof.
  intro Hz. split.
  - intros e Hin Hv. rewrite (lookup_keyword_case_variant v e Hv).
    exact (map_eq_In _ _ _ _ keywords e lookup_spellings_table Hin).
  - intro Hnone.
    destruct (lookup_keyword v (List.length v)) eqn:Hk; try reflexivity;
      (destruct (lookup_keyword_only_variants v Hz) as (e & Hin & Hv & _);
       [rewrite Hk; discriminate | elim (Hnone e Hin Hv)]).
Qed.

Lemma keyword_lookup_result_witness :
  lookup_keyword (cstr "SeLeCt") 6 = TOKEN_SELECT
  /\ lookup_keyword (cstr "Over") 4 = TOKEN_IDENT.
Proof.
  destruct (keyword_lookup_result (cstr "SeLeCt") eq_refl) as (H1 & _).
  destruct (keyword_lookup_result (cstr "Over") eq_refl) as (H2 & _).
  split.
  - apply (H1 (mkKeyword "select" TOKEN_SELECT)); [vm_compute; tauto | reflexivity].
  - apply (H2 (mkKeyword "over" TOKEN_OVER)); [vm_compute; tauto | reflexivity].
Defined.

(** ** A dot after an integer *)

Lemma number_lexeme_trailing_dot (ds rest : list ascii) :
  forallb is_digit ds = true -> is_digit (hd NUL rest) = false ->
  number_lexeme (ds ++ "."%char :: rest) = Some (false, List.length ds).
Proof.
  intros Hd Hr.
  assert (Hrun : run_length is_digit (ds ++ "."%char :: rest) = List.length ds)
    by (now apply run_length_stop).
  assert (Hfrac : frac_part_len ("."%char :: rest) = O).
  { destruct rest as [|r rest]; [reflexivity|]. simpl in *. now rewrite Hr. }
  unfold number_lexeme, exponent_of, mantissa_len.
  rewrite Hrun, skipn_prefix, Hfrac, Nat.add_0_r, skipn_prefix. reflexivity.
Qed.

(** X11: a dot that is not followed by a digit does not belong to the
    number before it: digits followed by such a dot give an integer token
    with the digits as text and their value, and the next call gives the
    dot as a token of its own. *)
Theorem trailing_dot_is_separate (l : Lexer) (d : ascii) (ds rest : list ascii) :
  forallb is_digit (d :: ds) = true ->
  is_digit (hd NUL rest) = false ->
  unread l = (d :: ds) ++ "."%char :: rest ->
  let r1 := lexer_next_token l in
  let r2 := lexer_next_token (snd r1) in
  yields r1 TOKEN_ICONST (d :: ds)
  /\ data (current_token (snd r1)) = ival (strtoll (d :: ds))
  /\ unread (snd r1) = "."%char :: rest
  /\ yields r2 TOKEN_DOT ["."%char]
  /\ unread (snd r2) = rest.
Proof.
  intros Hd Hr E. cbv zeta.
  assert (Hd1 : is_digit d = true) by (simpl in Hd; now apply andb_prop in Hd).
  change ((d :: ds) ++ "."%char :: rest) with (d :: (ds ++ "."%char :: rest)) in E.
  destruct (digit_starts_token d (ds ++ "."%char :: rest) Hd1) as (Hs & Hq & Hc).
  assert (H1 : lexer_next_token l
               = (true, set_current (advance_n (List.length (d :: ds)) l)
                          (number_token (set_location (release_current l) (here l))
                                        false (d :: ds)) true)).
  { rewrite (next_token_scan l _ _ E Hs Hc). unfold scan_token.
    rewrite (unread_peek _ _ _ E). fold (is_quote d). rewrite Hq, Hd1.
    rewrite scan_number_lexeme, E.
    change (d :: ds ++ "."%char :: rest) with ((d :: ds) ++ "."%char :: rest).
    rewrite (number_lexeme_trailing_dot _ _ Hd Hr), firstn_prefix. reflexivity. }
  rewrite H1. cbn [snd].
  set (l1 := set_current _ _ true).
  assert (E1 : unread l1 = "."%char :: rest).
  { unfold l1. change (unread (set_current ?a ?b ?c)) with (unread a).
    rewrite unread_advance_n, E.
    apply (skipn_prefix (d :: ds) ("."%char :: rest)). }
  assert (H2 : lexer_next_token l1
               = (true, set_current (advance l1)
                          (set_type (set_value (set_location (release_current l1) (here l1))
                                               (Some ["."%char]) 1) TOKEN_DOT) true)).
  { rewrite (next_token_scan l1 _ _ E1 eq_refl); [|now destruct rest].
    rewrite (scan_token_operator _ _ _ _ E1 eq_refl eq_refl eq_refl),
      (scan_operator_lexeme _ _ _ _ E1 eq_refl).
    reflexivity. }
  rewrite H2. unfold yields. cbn [fst snd]. repeat split.
  - eexists. split; [reflexivity|]. unfold number_token. repeat split.
  - exact E1.
  - eexists. split; [reflexivity|]. repeat split.
  - change (unread (advance l1) = rest). exact (unread_advance _ _ _ E1).
Qed.

Lemma trailing_dot_is_separate_witness :
  yields (first_token (cstr "12.x")) TOKEN_ICONST (cstr "12")
  /\ yields (lexer_next_token (snd (first_token (cstr "12.x")))) TOKEN_DOT (cstr ".").
Proof.
  destruct (trailing_dot_is_separate (lexer_create (cstr "12.x")) "1" (cstr "2") (cstr "x")
              eq_refl eq_refl eq_refl) as (H1 & _ & _ & H2 & _).
  split; [exact H1 | exact H2].
Defined.

(** * Properties of the rest of sql_parser.c *)

(** ** Case-insensitive comparison *)

Lemma c_string_nil (s : list ascii) :
  c_string s = [] <-> (hd NUL s =? NUL)%char = true.
Proof.
  unfold c_string. destruct s as [|c s]; simpl; [tauto|].
  destruct (c =? NUL)%char; simpl; split; auto; discriminate.
Qed.

Lemma c_string_cons (c : ascii) (s : list ascii) :
  (c =? NUL)%char = false -> c_string (c :: s) = c :: c_string s.
Proof. intro H. unfold c_string. simpl. now rewrite H. Qed.

Lemma pg_strcasecmp_loop_spec (a : list ascii) :
  forall b, pg_strcasecmp_loop a b = true
            <-> map tolower (c_string a) = map tolower (c_string b).
Proof.
  assert (Hnil : forall b, (NUL =? hd NUL b)%char = true
                           <-> [] = map tolower (c_string b)).
  { intro b. rewrite Ascii.eqb_sym, <- c_string_nil. split.
    - intros ->. reflexivity.
    - intro H. symmetry in H. now apply map_eq_nil in H. }
  induction a as [|c1 a IH]; intro b.
  - cbn [pg_strcasecmp_loop]. exact (Hnil b).
  - cbn [pg_strcasecmp_loop].
    destruct (c1 =? NUL)%char eqn:E1.
    + apply Ascii.eqb_eq in E1. subst c1. cbn [negb andb]. exact (Hnil b).
    + rewrite (c_string_cons _ _ E1). cbn [negb andb map].
      destruct (hd NUL b =? NUL)%char eqn:E2; cbn [negb].
      * assert (Hb : c_string b = []) by (now apply c_string_nil).
        rewrite Hb. apply Ascii.eqb_eq in E2. rewrite E2, E1.
        split; discriminate.
      * destruct b as [|c2 b]; [discriminate E2|]. cbn [hd tl] in *.
        rewrite (c_string_cons _ _ E2). cbn [map].
        destruct (tolower c1 =? tolower c2)%char eqn:Et; cbn [negb].
        -- apply Ascii.eqb_eq in Et. rewrite IH, Et. split.
           ++ intros ->. reflexivity.
           ++ intro H. now inversion H.
        -- split; [discriminate|]. intro H. inversion H as [[Hc Hr]].
           rewrite Hc, Ascii.eqb_refl in Et. discriminate.
Qed.

(** X12: on two strings [pg_strcasecmp] returns true exactly when they
    are equal up to the case of ASCII letters, so it is reflexive,
    symmetric and transitive on strings.  With a null argument it returns
    whether the two pointers differ: false for two nulls, true for a null
    and a string. *)
Theorem pg_strcasecmp_equal_up_to_case :
  (forall a b : list ascii,
      pg_strcasecmp (Some a) (Some b) = true
      <-> map tolower (c_string a) = map tolower (c_string b))
  /\ (forall a, pg_strcasecmp (Some a) (Some a) = true)
  /\ (forall a b, pg_strcasecmp (Some a) (Some b) = pg_strcasecmp (Some b) (Some a))
  /\ (forall a b c, pg_strcasecmp (Some a) (Some b) = true ->
                    pg_strcasecmp (Some b) (Some c) = true ->
                    pg_strcasecmp (Some a) (Some c) = true)
  /\ pg_strcasecmp None None = false
  /\ (forall a, pg_strcasecmp None (Some a) = true
                /\ pg_strcasecmp (Some a) None = true).
Proof.
  assert (H : forall a b, pg_strcasecmp (Some a) (Some b) = true
                          <-> map tolower (c_string a) = map tolower (c_string b))
    by (intros a b; apply pg_strcasecmp_loop_spec).
  split; [exact H|]. split; [intro a; now apply H|]. split.
  - intros a b.
    destruct (pg_strcasecmp (Some a) (Some b)) eqn:E1,
             (pg_strcasecmp (Some b) (Some a)) eqn:E2; try reflexivity.
    + apply H in E1. symmetry in E1. apply H in E1. congruence.
    + apply H in E2. symmetry in E2. apply H in E2. congruence.
  - split.
    + intros a b c H1 H2. apply H. apply H in H1, H2. congruence.
    + split; [reflexivity|]. intro a. split; reflexivity.
Qed.

Lemma pg_strcasecmp_equal_up_to_case_witness :
  pg_strcasecmp (Some (cstr "Select")) (Some (cstr "sELECT")) = true
  /\ pg_strcasecmp (Some (cstr "select")) (Some (cstr "selects")) = false.
Proof.
  destruct pg_strcasecmp_equal_up_to_case as (H & _).
  split.
  - apply H. reflexivity.
  - destruct (pg_strcasecmp (Some (cstr "select")) (Some (cstr "selects"))) eqn:E;
      [|reflexivity].
    apply H in E. vm_compute in E. discriminate E.
Defined.

(** ** Node lists *)

Lemma list_append_ok (A : Type) (li : PgList.t A) (x : A) :
  list_ok li ->
  list_append (Some li) (Some x)
  = Some (PgList.mk (PgList.type li) (PgList.length li + 1) (PgList.elements li ++ [x])).
Proof.
  intros (Hl & Hm). unfold list_append.
  rewrite int_wrap_small by (unfold INT_MAX in *; lia).
  rewrite Hl at 2. rewrite Nat2Z.id, firstn_all. reflexivity.
Qed.

Lemma list_prepend_ok (A : Type) (li : PgList.t A) (x : A) :
  list_ok li ->
  list_prepend (Some li) (Some x)
  = Some (PgList.mk (PgList.type li) (PgList.length li + 1) (x :: PgList.elements li)).
Proof.
  intros (Hl & Hm). unfold list_prepend.
  rewrite int_wrap_small by (unfold INT_MAX in *; lia).
  rewrite Hl at 2. rewrite Nat2Z.id, firstn_all. reflexivity.
Qed.

(** X13: appending a node to a list puts it at the index that was the
    length, leaves every other index as it was and adds one to
    [list_length]; [list_nth] is null for an index below 0 or at or beyond
    the length; a null list or a null node makes [list_append] do
    nothing. *)
Theorem list_append_nth (A : Type) (li : PgList.t A) (x : A) :
  list_ok li ->
  let r := list_append (Some li) (Some x) in
  list_length r = list_length (Some li) + 1
  /\ list_nth r (list_length (Some li)) = Some x
  /\ (forall i, i <> list_length (Some li) -> list_nth r i = list_nth (Some li) i)
  /\ (forall i, i < 0 \/ list_length r <= i -> list_nth r i = None)
  /\ list_append None (Some x) = None
  /\ list_append (Some li) None = Some li.
Proof.
  intros Hok. cbv zeta. rewrite (list_append_ok _ _ _ Hok).
  destruct Hok as (Hl & Hm). cbn [list_length list_nth PgList.length PgList.elements].
  split; [reflexivity|]. split; [|split; [|split; [|split; reflexivity]]].
  - replace (PgList.length li <? 0) with false by (symmetry; apply Z.ltb_ge; lia).
    replace (PgList.length li + 1 <=? PgList.length li) with false
      by (symmetry; apply Z.leb_gt; lia).
    cbn [orb]. rewrite Hl, Nat2Z.id, nth_error_app2, Nat.sub_diag by lia. reflexivity.
  - intros i Hi.
    destruct (Z.ltb_spec i 0) as [Hneg|Hpos]; [reflexivity|]. cbn [orb].
    destruct (Z.leb_spec (PgList.length li + 1) i) as [Hbig|Hsmall].
    + replace (PgList.length li <=? i) with true by (symmetry; apply Z.leb_le; lia).
      reflexivity.
    + replace (PgList.length li <=? i) with false by (symmetry; apply Z.leb_gt; lia).
      apply nth_error_app1. lia.
  - intros i [Hi | Hi].
    + replace (i <? 0) with true by (symmetry; apply Z.ltb_lt; lia). reflexivity.
    + replace (PgList.length li + 1 <=? i) with true by (symmetry; apply Z.leb_le; lia).
      now rewrite orb_true_r.
Qed.

Lemma list_append_nth_witness :
  let r := list_append (Some (@make_list nat)) (Some 7%nat) in
  list_length r = 1 /\ list_nth r 0 = Some 7%nat /\ list_nth r 1 = None.
Proof.
  destruct (list_append_nth nat make_list 7%nat
              ltac:(split; [reflexivity | vm_compute; reflexivity]))
    as (H1 & H2 & _ & H4 & _).
  cbv zeta. split; [exact H1|]. split; [exact H2|].
  apply H4. right. rewrite H1. simpl. lia.
Defined.

(** X14: prepending a node puts it at index 0, moves the node at every
    index [i] to index [i + 1] and adds one to [list_length]; a null list
    or a null node makes [list_prepend] do nothing. *)
Theorem list_prepend_nth (A : Type) (li : PgList.t A) (x : A) :
  list_ok li ->
  let r := list_prepend (Some li) (Some x) in
  list_length r = list_length (Some li) + 1
  /\ list_nth r 0 = Some x
  /\ (forall i, 0 <= i -> list_nth r (i + 1) = list_nth (Some li) i)
  /\ list_prepend None (Some x) = None
  /\ list_prepend (Some li) None = Some li.
Proof.
  intros Hok. cbv zeta. rewrite (list_prepend_ok _ _ _ Hok).
  destruct Hok as (Hl & Hm). cbn [list_length list_nth PgList.length PgList.elements].
  split; [reflexivity|]. split; [|split; [|split; reflexivity]].
  - replace (PgList.length li + 1 <=? 0) with false by (symmetry; apply Z.leb_gt; lia).
    reflexivity.
  - intros i Hi.
    replace (i + 1 <? 0) with false by (symmetry; apply Z.ltb_ge; lia).
    replace (i <? 0) with false by (symmetry; apply Z.ltb_ge; lia). cbn [orb].
    replace (PgList.length li + 1 <=? i + 1) with (PgList.length li <=? i)
      by (destruct (Z.leb_spec (PgList.length li) i),
                   (Z.leb_spec (PgList.length li + 1) (i + 1)); auto; lia).
    destruct (PgList.length li <=? i); [reflexivity|].
    replace (Z.to_nat (i + 1)) with (S (Z.to_nat i)) by lia. reflexivity.
Qed.

Lemma list_prepend_nth_witness :
  let l1 := list_append (Some (@make_list nat)) (Some 7%nat) in
  let r := list_prepend l1 (Some 3%nat) in
  list_length r = 2 /\ list_nth r 0 = Some 3%nat /\ list_nth r 1 = Some 7%nat.
Proof.
  cbv zeta.
  destruct (list_prepend_nth nat (PgList.mk NODE_LIST 1 [7%nat]) 3%nat
              ltac:(split; [reflexivity | vm_compute; reflexivity]))
    as (H1 & H2 & H3 & _).
  split; [exact H1|]. split; [exact H2|]. exact (H3 0 ltac:(lia)).
Defined.

Lemma append_all_ok (A : Type) (xs : list A) :
  forall li : PgList.t A,
    PgList.length li = Z.of_nat (List.length (PgList.elements li)) ->
    Z.of_nat (List.length (PgList.elements li) + List.length xs) <= INT_MAX ->
    fold_left (fun l x => list_append l (Some x)) xs (Some li)
    = Some (PgList.mk (PgList.type li)
              (Z.of_nat (List.length (PgList.elements li) + List.length xs))
              (PgList.elements li ++ xs)).
Proof.
  induction xs as [|x xs IH]; intros li Hl Hm.
  - simpl. rewrite Nat.add_0_r, <- Hl, app_nil_r. now destruct li.
  - cbn [fold_left]. simpl in Hm.
    rewrite list_append_ok by (split; [exact Hl | lia]).
    rewrite IH; cbn [PgList.length PgList.elements PgList.type].
    + rewrite length_app, <- app_assoc. simpl. f_equal. f_equal. lia.
    + rewrite length_app. simpl. lia.
    + rewrite length_app. simpl. lia.
Qed.

(** X15: a list built from [make_list] by appending the nodes [xs] one
    after the other (at most [INT_MAX] of them) reads back as [xs]:
    [list_length] is the number of nodes, [list_nth] at [i] is the node
    appended [i]-th, and null for any other index. *)
Theorem list_built_by_append_reads_back (A : Type) (xs : list A) :
  Z.of_nat (List.length xs) <= INT_MAX ->
  let r := fold_left (fun l x => list_append l (Some x)) xs (Some make_list) in
  list_length r = Z.of_nat (List.length xs)
  /\ (forall i : nat, list_nth r (Z.of_nat i) = nth_error xs i)
  /\ (forall i : Z, i < 0 -> list_nth r i = None).
Proof.
  intro Hm. cbv zeta.
  rewrite (append_all_ok A xs make_list eq_refl Hm).
  cbn [list_length list_nth PgList.length PgList.elements make_list List.length
       Nat.add app].
  split; [reflexivity|]. split.
  - intro i. replace (Z.of_nat i <? 0) with false by (symmetry; apply Z.ltb_ge; lia).
    cbn [orb]. rewrite Nat2Z.id.
    destruct (Z.leb_spec (Z.of_nat (List.length xs)) (Z.of_nat i)); [|reflexivity].
    symmetry. apply nth_error_None. lia.
  - intros i Hi. replace (i <? 0) with true by (symmetry; apply Z.ltb_lt; lia).
    reflexivity.
Qed.

Lemma list_built_by_append_reads_back_witness :
  let r := fold_left (fun l x => list_append l (Some x)) [5; 6; 7]%nat (Some make_list) in
  list_length r = 3 /\ list_nth r 2 = Some 7%nat /\ list_nth r 3 = None.
Proof.
  destruct (list_built_by_append_reads_back nat [5; 6; 7]%nat
              ltac:(vm_compute; discriminate)) as (H1 & H2 & _).
  cbv zeta. split; [exact H1|]. split; [exact (H2 2%nat) | exact (H2 3%nat)].
Defined.

(** ** The parser *)

Lemma is_sconst_false (k : TokenType) : k <> TOKEN_SCONST -> is_sconst k = false.
Proof. intro H. destruct k; try reflexivity. now elim H. Qed.

Lemma is_eof_true (k : TokenType) : is_eof k = true -> k = TOKEN_EOF.
Proof. destruct k; try discriminate. reflexivity. Qed.

Lemma is_eof_false (k : TokenType) : is_eof k = false -> k <> TOKEN_EOF.
Proof. intros H ->. discriminate. Qed.

(** A successful scan, with the extent of the token: a string literal
    takes its text and the two delimiters, any other token its text. *)
Lemma scan_token_text (l : Lexer) (tok : Token) (l' : Lexer) (tok' : Token)
    (c : ascii) (s : list ascii) :
  unread l = c :: s ->
  scan_token l tok = (true, l', tok') ->
  let d := if is_sconst (type tok') then 1%nat else O in
  input l' = input l /\ location tok' = location tok /\ type tok' <> TOKEN_EOF
  /\ error_msg l' = error_msg l
  /\ value tok' = Some (substr (input l) (pos l + d) (length tok'))
  /\ pos l' = (pos l + length tok' + 2 * d)%nat
  /\ (pos l < pos l' <= input_len l)%nat.
Proof.
  intros E H. cbv zeta.
  pose proof (unread_length l) as Hlen. rewrite E in Hlen. unfold remaining in Hlen.
  simpl in Hlen.
  assert (Herr : error_msg l' = error_msg l /\ (pos l < pos l')%nat).
  { destruct (scan_token_end l tok c s E) as (k & err & tok'' & Heq & Hk & _).
    rewrite Heq in H. destruct err; [discriminate|]. inversion H; subst.
    unfold scan_end. rewrite pos_advance_n by (rewrite E; simpl; lia).
    split; [apply advance_n_fields | lia]. }
  destruct Herr as (Herr & Hlt).
  unfold scan_token in H. rewrite (unread_peek _ _ _ E) in H. fold (is_quote c) in H.
  destruct (is_quote c).
  - rewrite (scan_string_end _ _ _ _ E) in H.
    destruct (string_end c s) as [n|] eqn:En; [|discriminate].
    inversion H; subst l' tok'; clear H.
    pose proof (string_end_lt _ _ _ En) as Hn.
    change (advance (advance (advance_n n l))) with (advance_n (S (S n)) l) in *.
    cbn [type value length location set_type set_value is_sconst].
    rewrite input_advance_n, pos_advance_n by (rewrite E; simpl; lia).
    repeat split; try discriminate; auto; try lia.
    unfold substr. unfold unread in E.
    destruct (skipn_cons_nth _ _ _ _ E) as (_ & Hs & _).
    now rewrite Nat.add_1_r, Hs.
  - assert (F : frame_ok l tok l' tok' /\ type tok' <> TOKEN_EOF
                /\ type tok' <> TOKEN_SCONST).
    { destruct (is_digit c); [now apply scan_number_frame|].
      destruct (is_alpha c) eqn:Ha.
      - now apply (scan_identifier_frame _ _ _ _ _ _ E Ha).
      - now apply (scan_operator_frame _ _ _ _ _ _ E). }
    destruct F as ((Hi & Hl & Hv & Hle & Hp) & H1 & H2).
    rewrite (is_sconst_false _ H2), Nat.add_0_r. rewrite E in Hle. simpl in Hle.
    repeat split; auto; lia.
Qed.

(** A call that yields a token other than end-of-input: where the token
    lies between the old and the new cursor, and what its text is. *)
Lemma next_token_token (l l' : Lexer) (t : Token) :
  Z.of_nat (input_len l) <= INT_MAX ->
  (pos l <= input_len l)%nat ->
  lexer_next_token l = (true, l') ->
  lexer_current_token l' = Some t ->
  type t <> TOKEN_EOF ->
  input l' = input l /\ lexer_error l' = lexer_error l
  /\ (pos l <= token_offset t)%nat
  /\ (token_offset t + length t <= pos l')%nat
  /\ (token_offset t < pos l')%nat
  /\ (pos l' <= input_len l)%nat
  /\ value t = Some (substr (input l) (text_start t) (length t))
  /\ (text_start t + length t <= input_len l)%nat.
Proof.
  intros Hmax Hpos H Hc Ht.
  destruct (next_token_success _ _ _ H Hc) as [(_ & He & _) | (c & s & l1 & E & Hs & ->)];
    [contradiction|].
  destruct (skip_loop_advance_n (remaining l) l) as (j & Hj & Hsk). rewrite Hsk in *.
  destruct (scan_token_text _ _ _ _ _ _ E Hs)
    as (Hi & Hl & _ & He & Hv & Hp & Hlt1 & Hle).
  pose proof (unread_length l) as Hul. unfold remaining in Hul.
  pose proof (pos_advance_n _ _ Hj) as Hp0.
  destruct (advance_n_fields j l) as (Hi0 & _ & _ & He0).
  assert (Hlen0 : input_len (advance_n j l) = input_len l)
    by apply input_len_advance_n.
  destruct (unread_cons _ _ _ E) as (Hlt & _).
  rewrite Hlen0 in Hlt, Hle.
  assert (Hoff : token_offset t = pos (advance_n j l)).
  { unfold token_offset. rewrite Hl. cbn [location set_location here offset].
    unfold int_of_size_t. rewrite int_wrap_small by lia. apply Nat2Z.id. }
  unfold text_start. rewrite Hoff.
  change (input (set_current ?a ?b ?c)) with (input a).
  change (pos (set_current ?a ?b ?c)) with (pos a).
  change (lexer_error (set_current ?a ?b ?c)) with (error_msg a).
  unfold lexer_error. rewrite Hi0 in Hi, Hv. rewrite Hi, He, He0.
  destruct (is_sconst (type t)); rewrite ?Nat.add_1_r, ?Nat.add_0_r in Hv;
    repeat split; auto; lia.
Qed.

Lemma ForallOrdPairs_snoc (A : Type) (R : A -> A -> Prop) (l : list A) (x : A) :
  ForallOrdPairs R l -> Forall (fun a => R a x) l -> ForallOrdPairs R (l ++ [x]).
Proof.
  induction 1 as [|a l Ha Hl IH]; intro Hx; simpl.
  - constructor; constructor.
  - inversion Hx; subst. constructor; [|now apply IH].
    apply Forall_app. split; [assumption|]. constructor; [assumption | constructor].
Qed.

Lemma ends_by_le (p q : nat) (t : Token) : (p <= q)%nat -> ends_by p t -> ends_by q t.
Proof. unfold ends_by. lia. Qed.

Lemma collected_le (inp : list ascii) (p q : nat) (li : PgList.t Token) :
  (p <= q)%nat -> collected inp p li -> collected inp q li.
Proof.
  intros Hpq (H1 & H2 & H3 & H4 & H5). repeat split; auto; [lia|].
  eapply Forall_impl; [|exact H4]. intro t. now apply ends_by_le.
Qed.

Lemma copy_token_fields (t : Token) (v : list ascii) :
  value t = Some v ->
  type (copy_token t) = type t /\ length (copy_token t) = length t
  /\ location (copy_token t) = location t
  /\ value (copy_token t) = Some (c_string v).
Proof.
  intro Hv. unfold copy_token. rewrite Hv. now destruct t.
Qed.

(** One more token on the list. *)
Lemma collected_append (lx lx' : Lexer) (t : Token) (li : PgList.t Token) :
  Z.of_nat (input_len lx) <= INT_MAX ->
  (pos lx <= input_len lx)%nat ->
  lexer_next_token lx = (true, lx') ->
  lexer_current_token lx' = Some t ->
  type t <> TOKEN_EOF ->
  collected (input lx) (pos lx) li ->
  exists li',
    list_append (Some li) (Some (copy_token t)) = Some li'
    /\ PgList.type li' = PgList.type li
    /\ collected (input lx) (pos lx') li'.
Proof.
  intros Hmax Hpos H Hc Ht (H1 & H2 & H3 & H4 & H5).
  destruct (next_token_token _ _ _ Hmax Hpos H Hc Ht)
    as (Hi & _ & Ho1 & Ho2 & Ho3 & Hle & Hv & Hts).
  destruct (copy_token_fields _ _ Hv) as (Ct & Cl & Cloc & Cv).
  assert (Coff : token_offset (copy_token t) = token_offset t)
    by (unfold token_offset; now rewrite Cloc).
  assert (Cst : text_start (copy_token t) = text_start t)
    by (unfold text_start; now rewrite Ct, Coff).
  rewrite list_append_ok by (split; [assumption | unfold input_len in *; lia]).
  eexists. split; [reflexivity|]. split; [reflexivity|].
  unfold collected. cbn [PgList.length PgList.elements].
  repeat split.
  - rewrite length_app. simpl. lia.
  - rewrite length_app. simpl. lia.
  - apply Forall_app. split; [assumption|]. constructor; [|constructor].
    unfold copied_from. rewrite Ct, Cl, Cst, Cv. unfold input_len in Hts. now repeat split.
  - apply Forall_app. split.
    + eapply Forall_impl; [|exact H4]. intro a. apply ends_by_le. lia.
    + constructor; [|constructor]. unfold ends_by. rewrite Coff, Cl. lia.
  - apply ForallOrdPairs_snoc; [assumption|].
    eapply Forall_impl; [|exact H4]. intros a (Ha1 & Ha2).
    unfold precedes. rewrite Coff. lia.
Qed.

(** A call that fails leaves a message of the lexer and no current
    token; a call that yields the end-of-input token has read all. *)
Lemma next_token_parse_end (l l' : Lexer) (ok : bool) :
  lexer_error l = None ->
  lexer_next_token l = (ok, l') ->
  (ok = true -> exists t, lexer_current_token l' = Some t /\ type t = TOKEN_EOF) ->
  parse_end l'.
Proof.
  intros He H Hok.
  destruct (next_token_end l) as (k & err & tok' & Heq & Hk & _ & Hm).
  rewrite Heq in H. destruct (scan_end_fields l k err) as (_ & _ & _ & _ & _ & Herr).
  destruct err as [m|]; inversion H; subst ok l'; clear H.
  - right. exists m. repeat split; auto.
  - left. destruct (Hok eq_refl) as (t & Hc & Ht).
    destruct (next_token_success _ _ _ Heq Hc) as [(E & _ & Hl) | (c & s & l1 & E & Hs & Hl)].
    + split; [|split; [|now exists t]].
      * change (lexer_error (set_current ?a ?b ?c)) with (lexer_error a).
        change (advance_n k l) with (scan_end l k None). now rewrite Herr.
      * change (advance_n k l) with (scan_end l k None). rewrite Hl. exact E.
    + exfalso. destruct (scan_token_text _ _ _ _ _ _ E Hs) as (_ & _ & Hne & _).
      contradiction.
Qed.

Lemma next_token_pos_le (l : Lexer) :
  (pos l <= input_len l)%nat ->
  (pos (snd (lexer_next_token l)) <= input_len l)%nat.
Proof.
  intro Hpos. destruct (next_token_end l) as (k & err & tok' & -> & Hk & _).
  cbn [snd]. destruct (scan_end_fields l k err) as (_ & Hp & _).
  change (pos (set_current ?a ?b ?c)) with (pos a).
  rewrite Hp, (pos_advance_n _ _ Hk). rewrite unread_length in Hk.
  unfold remaining in Hk. lia.
Qed.

(** The loop of [parser_parse], started with more fuel than there are
    unread bytes: it ends, keeps what [collected] says of the list, and
    leaves the lexer as [parse_end] says. *)
Lemma parse_loop_spec (fuel : nat) :
  forall (lx : Lexer) (li : PgList.t Token),
    (remaining lx < fuel)%nat ->
    Z.of_nat (input_len lx) <= INT_MAX ->
    (pos lx <= input_len lx)%nat ->
    lexer_error lx = None ->
    collected (input lx) (pos lx) li ->
    exists lx' li',
      parse_loop fuel lx (Some li) = (lx', Some li')
      /\ input lx' = input lx
      /\ PgList.type li' = PgList.type li
      /\ (pos lx' <= input_len lx)%nat
      /\ collected (input lx) (pos lx') li'
      /\ parse_end lx'.
Proof.
  induction fuel as [|fuel IH]; intros lx li Hf Hmax Hpos He Hc; [lia|].
  cbn [parse_loop].
  pose proof (next_token_input_pos lx) as (Hi & Hp).
  pose proof (has_current_next_token lx) as Hh.
  pose proof (next_token_pos_le lx Hpos) as Hle.
  destruct (lexer_next_token lx) as [ok lx1] eqn:H. cbn [fst snd] in *.
  assert (Hstop : (ok = true -> exists t, lexer_current_token lx1 = Some t
                                          /\ type t = TOKEN_EOF) ->
                  exists lx' li',
                    (lx1, Some li) = (lx', Some li')
                    /\ input lx' = input lx
                    /\ PgList.type li' = PgList.type li
                    /\ (pos lx' <= input_len lx)%nat
                    /\ collected (input lx) (pos lx') li'
                    /\ parse_end lx').
  { intro Hok. exists lx1, li.
    split; [reflexivity|]. split; [exact Hi|]. split; [reflexivity|].
    split; [exact Hle|]. split.
    - now apply (collected_le _ (pos lx)).
    - now apply (next_token_parse_end lx lx1 ok). }
  destruct ok; [|apply Hstop; discriminate].
  unfold lexer_current_token in *. rewrite Hh in *.
  destruct (is_eof (type (current_token lx1))) eqn:Ee.
  { apply Hstop. intros _. exists (current_token lx1).
    split; [reflexivity | now apply is_eof_true]. }
  clear Hstop. apply is_eof_false in Ee.
  assert (Hcur : lexer_current_token lx1 = Some (current_token lx1))
    by (unfold lexer_current_token; now rewrite Hh).
  destruct (collected_append _ _ _ li Hmax Hpos H Hcur Ee Hc) as (li1 & -> & Ht1 & Hc1).
  destruct (next_token_token _ _ _ Hmax Hpos H Hcur Ee)
    as (_ & He1 & Ho1 & _ & Ho3 & _).
  assert (Hlen : input_len lx1 = input_len lx) by (unfold input_len; now rewrite Hi).
  destruct (IH lx1 li1) as (lx' & li' & Hr & Hi' & Ht' & Hp' & Hc' & Hend).
  - unfold remaining in *. lia.
  - now rewrite Hlen.
  - now rewrite Hlen.
  - now rewrite He1.
  - now rewrite Hi.
  - exists lx', li'. rewrite Hi, Hlen in *.
    split; [exact Hr|]. split; [exact Hi'|]. split; [congruence|].
    split; [exact Hp'|]. split; [exact Hc' | exact Hend].
Qed.

(** A turn of the loop that goes on has consumed a byte. *)
Lemma next_token_progress (l l' : Lexer) (t : Token) :
  lexer_next_token l = (true, l') ->
  lexer_current_token l' = Some t ->
  type t <> TOKEN_EOF ->
  (remaining l' < remaining l)%nat.
Proof.
  intros H Hc Ht.
  destruct (next_token_success _ _ _ H Hc) as [(_ & He & _) | (c & s & l1 & E & Hs & ->)];
    [contradiction|].
  destruct (skip_loop_advance_n (remaining l) l) as (j & Hj & Hsk). rewrite Hsk in *.
  destruct (scan_token_text _ _ _ _ _ _ E Hs) as (Hi & _ & _ & _ & _ & _ & Hlt & Hle).
  rewrite input_len_advance_n in Hle. rewrite (pos_advance_n _ _ Hj) in Hlt.
  destruct (advance_n_fields j l) as (Hi0 & _).
  unfold remaining, input_len in *.
  change (input (set_current l1 t true)) with (input l1).
  change (pos (set_current l1 t true)) with (pos l1).
  rewrite Hi, Hi0. lia.
Qed.

(** Fuel beyond the unread bytes and one more turn changes nothing. *)
Lemma parse_loop_fuel (f1 : nat) :
  forall (f2 : nat) (lx : Lexer) (tokens : option (PgList.t Token)),
    (remaining lx < f1)%nat -> (remaining lx < f2)%nat ->
    parse_loop f1 lx tokens = parse_loop f2 lx tokens.
Proof.
  induction f1 as [|f1 IH]; intros f2 lx tokens H1 H2; [lia|].
  destruct f2 as [|f2]; [lia|]. cbn [parse_loop].
  destruct (lexer_next_token lx) as [ok lx1] eqn:H.
  destruct ok; [|reflexivity].
  destruct (lexer_current_token lx1) as [t|] eqn:Hc; [|reflexivity].
  destruct (is_eof (type t)) eqn:Ee; [reflexivity|].
  pose proof (next_token_progress _ _ _ H Hc (is_eof_false _ Ee)).
  apply IH; lia.
Qed.

Lemma collected_nil (inp : list ascii) : collected inp 0 make_list.
Proof. repeat split; simpl; auto; constructor. Qed.

(** [parser_parse] on a new parser. *)
Lemma tokenize_spec (inp : list ascii) :
  Z.of_nat (List.length inp) <= INT_MAX ->
  exists lx li,
    tokenize inp
    = (Some (PgParser.mk (Some lx) None O O None (Some li)), Some li)
    /\ input lx = inp
    /\ PgList.type li = NODE_LIST
    /\ (pos lx <= List.length inp)%nat
    /\ collected inp (pos lx) li
    /\ parse_end lx.
Proof.
  intro Hmax. unfold tokenize, parser_parse, parser_create.
  cbn [PgParser.lexer PgParser.tokens PgParser.token_count PgParser.token_pos
       PgParser.error_msg].
  destruct (parse_loop_spec (S (remaining (lexer_create inp))) (lexer_create inp)
              make_list)
    as (lx & li & -> & Hi & Ht & Hp & Hc & He);
    try (simpl; lia); try reflexivity; try assumption.
  - apply collected_nil.
  - exists lx, li. repeat (split; [first [reflexivity | assumption]|]). assumption.
Qed.





(** At the end of the input the call yields the end-of-input token and
    leaves the cursor and the message alone. *)
Lemma next_token_at_end (l : Lexer) :
  unread l = [] ->
  exists t,
    lexer_next_token l = (true, set_current l t true) /\ type t = TOKEN_EOF.
Proof.
  intro E. pose proof (unread_length l) as Hl. rewrite E in Hl. simpl in Hl.
  assert (Hs : skip_loop (remaining l) l = l) by (now rewrite <- Hl).
  destruct (next_token_cases l) as [(_ & H) | (c & s & E' & _)]; rewrite Hs in *.
  - eexists. split; [exact H | reflexivity].
  - rewrite E in E'. discriminate.
Qed.

(** X18: a parser is used up by a parse that succeeds.  When
    [parser_parse] on a new parser over [inp] leaves no error, a second
    [parser_parse] on the same parser returns an empty list, stores it as
    the parse tree in place of the first one, and leaves no error
    either. *)
Theorem parser_parse_again (inp : list ascii) (p : PgParser.t)
    (li : PgList.t Token) :
  Z.of_nat (List.length inp) <= INT_MAX ->
  parser_parse (Some (parser_create inp)) = (Some p, Some li) ->
  parser_error (Some p) = None ->
  exists p',
    parser_parse (Some p) = (Some p', Some make_list)
    /\ PgParser.parse_tree p' = Some make_list
    /\ parser_error (Some p') = None.
Proof.
  intros Hmax H He.
  destruct (tokenize_spec inp Hmax) as (lx & li0 & H0 & _ & _ & _ & _ & Hend).
  unfold tokenize in H0. rewrite H0 in H. inversion H; subst p li; clear H.
  cbn [parser_error PgParser.error_msg PgParser.lexer] in He.
  destruct Hend as [(_ & Hu & _) | (m & Hm & _)]; [|congruence].
  destruct (next_token_at_end lx Hu) as (t & Hn & Ht).
  unfold parser_parse. cbn [PgParser.lexer parse_loop]. rewrite Hn.
  unfold lexer_current_token. cbn [has_current set_current current_token].
  rewrite Ht. cbn [is_eof].
  eexists. split; [reflexivity|]. split; [reflexivity|]. exact He.
Qed.

Lemma parser_parse_again_witness :
  exists p li,
    parser_parse (Some (parser_create (cstr "a b"))) = (Some p, Some li)
    /\ exists p',
         parser_parse (Some p) = (Some p', Some make_list)
         /\ PgParser.parse_tree p' = Some make_list
         /\ parser_error (Some p') = None.
Proof.
  eexists; eexists. split; [vm_compute; reflexivity|].
  eapply (parser_parse_again (cstr "a b")).
  - vm_compute. discriminate.
  - vm_compute. reflexivity.
  - vm_compute. reflexivity.
Defined.

(** X19: an input that consists of blanks, line comments ended by a
    newline and terminated block comments only (the empty input among
    them) holds no token: [parser_parse] on a new parser over it returns
    an empty list and leaves no error. *)
Theorem only_trivia_parses_to_nothing (pre : list Trivia) :
  forallb trivia_ok pre = true ->
  exists p,
    parser_parse (Some (parser_create (flat_map render_trivia pre)))
    = (Some p, Some make_list)
    /\ parser_error (Some p) = None.
Proof.
  intro Hok.
  set (inp := flat_map render_trivia pre).
  set (l := lexer_create inp).
  assert (E : unread l = inp ++ []) by (now rewrite app_nil_r).
  assert (En : unread (advance_n (List.length inp) l) = []).
  { rewrite unread_advance_n, E, app_nil_r. apply skipn_all. }
  assert (Hs : unread (skip_loop (remaining l) l) = []
               /\ error_msg (skip_loop (remaining l) l) = None).
  { rewrite (skip_loop_trivia pre (remaining l) l [] Hok E (Nat.le_refl _)).
    fold inp. rewrite (skip_loop_end _ _ (unread_nil _ En)).
    split; [exact En | apply advance_n_fields]. }
  destruct Hs as (Hu & He).
  unfold parser_parse, parser_create. cbn [PgParser.lexer parse_loop]. fold inp l.
  destruct (next_token_cases l) as [(_ & ->) | (c & s & E' & _)];
    [|rewrite Hu in E'; discriminate].
  eexists. split; [reflexivity|].
  cbn [parser_error PgParser.error_msg PgParser.lexer]. exact He.
Qed.

Lemma only_trivia_parses_to_nothing_witness :
  let inp := cstr " /* a */ -- b" ++ [newline] in
  exists p,
    parser_parse (Some (parser_create inp)) = (Some p, Some make_list)
    /\ parser_error (Some p) = None.
Proof.
  exact (only_trivia_parses_to_nothing
           [Blank " "; BlockComment (cstr " a "); Blank " "; LineComment (cstr " b")]
           eq_refl).
Defined.
